(** * Patrol: probe scheduler and history store

    A shallow embedding of the [checker] and [history] packages and of the
    per-check defaults of [FromConfig], with the properties of the
    specification stated over it.

    Conventions.
    - A [time.Time] is the instant it denotes, in nanoseconds since the Unix
      epoch (what [UnixNano] returns for instants inside the [int64] range);
      a [time.Duration] is its nanosecond count.
    - A [[]byte] is a [string].
    - Go pointers are [option loc]: [None] is [nil], [Some l] addresses node
      [l] of the heap of list nodes owned by a group container.
    - A computation that can panic, return an [error] or loop returns a
      [Res]. *)

From stdpp Require Import gmap strings list fin_maps pretty.

Open Scope Z_scope.

(** ** Outcomes of Go code *)

Inductive Res (A : Type) : Type :=
  | Ok (a : A)
  | Err (e : string)
  | Panic
  | OutOfFuel.
Arguments Ok {A} a.
Arguments Err {A} e.
Arguments Panic {A}.
Arguments OutOfFuel {A}.

Global Instance Res_ret : MRet Res := λ A a, Ok a.
Global Instance Res_bind : MBind Res := λ A B f r,
  match r with
  | Ok a => f a
  | Err e => Err e
  | Panic => Panic
  | OutOfFuel => OutOfFuel
  end.

Definition is_Ok {A} (r : Res A) : bool :=
  match r with Ok _ => true | _ => false end.

Module history.

(** ** Data model *)

Record Item : Type := mkItem {
  ID : string;
  Group : string;
  Name : string;
  Type_ : string;
  Output : string;
  CreatedAt : Z;
  Duration : Z;
  Metric : Z;
  MetricUnit : string;
  Status : string;
  Error : string
}.

Global Instance Item_eq_dec : EqDecision Item.
Proof. solve_decision. Defined.

Definition zeroItem : Item := mkItem "" "" "" "" "" 0 0 0 "" "" "".

Definition withID (id : string) (it : Item) : Item :=
  mkItem id (Group it) (Name it) (Type_ it) (Output it) (CreatedAt it)
         (Duration it) (Metric it) (MetricUnit it) (Status it) (Error it).

Definition loc : Type := nat.

Record listNode : Type := mkNode {
  value : Item;
  next : option loc;
  prev : option loc
}.

Definition setValue (v : Item) (n : listNode) : listNode :=
  mkNode v (next n) (prev n).
Definition setNext (p : option loc) (n : listNode) : listNode :=
  mkNode (value n) p (prev n).
Definition setPrev (p : option loc) (n : listNode) : listNode :=
  mkNode (value n) (next n) p.

(** A group container with the heap of the nodes it has allocated. *)
Record dataContainer : Type := mkContainer {
  nodes : gmap loc listNode;
  byID : gmap string loc;
  head : option loc;
  tail : option loc
}.

Definition emptyContainer : dataContainer := mkContainer ∅ ∅ None None.

Definition setNodes (ns : gmap loc listNode) (c : dataContainer) : dataContainer :=
  mkContainer ns (byID c) (head c) (tail c).
Definition setByID (m : gmap string loc) (c : dataContainer) : dataContainer :=
  mkContainer (nodes c) m (head c) (tail c).
Definition setHead (p : option loc) (c : dataContainer) : dataContainer :=
  mkContainer (nodes c) (byID c) p (tail c).
Definition setTail (p : option loc) (c : dataContainer) : dataContainer :=
  mkContainer (nodes c) (byID c) (head c) p.

(** One line of the durable log, as [json.Unmarshal(line, &item)] sees it:
    the decoder applied to the current content of [item]; fields the line
    does not mention keep their value, a malformed line gives [None]. *)
Definition line : Type := Item → option Item.

(** The line [json.Marshal] produces for an item: every field of the struct
    is present, so decoding it overwrites the whole of [item]. *)
Definition encode (it : Item) : line := λ _, Some it.

Record writeRequest : Type := mkRequest {
  item : Item;
  errChan : nat
}.

(** [File]: the log file's content, the queue of pending write requests (the
    buffered channel [writes], oldest first), the index and the bound. *)
Record File : Type := mkFile {
  fd : list line;
  writes : list writeRequest;
  data : gmap string dataContainer;
  maxEntries : Z
}.

Definition setData (d : gmap string dataContainer) (file : File) : File :=
  mkFile (fd file) (writes file) d (maxEntries file).
Definition setFd (f : list line) (file : File) : File :=
  mkFile f (writes file) (data file) (maxEntries file).
Definition setWrites (q : list writeRequest) (file : File) : File :=
  mkFile (fd file) q (data file) (maxEntries file).

Record NewOptions : Type := mkOptions {
  MaxEntries : Z;
  MaxConcurrentWrites : Z
}.

(** ** Pointer access *)

(** [p.f] for a read: a [nil] pointer panics. *)
Definition load (c : dataContainer) (p : option loc) : Res listNode :=
  match p with
  | None => Panic
  | Some l => match nodes c !! l with Some n => Ok n | None => Panic end
  end.

(** [p.f = v] for a write. *)
Definition store (c : dataContainer) (p : option loc)
    (f : listNode → listNode) : Res dataContainer :=
  match p with
  | None => Panic
  | Some l =>
      match nodes c !! l with
      | Some n => Ok (setNodes (<[l := f n]> (nodes c)) c)
      | None => Panic
      end
  end.

(** [&listNode{}] *)
Definition alloc (c : dataContainer) : loc * dataContainer :=
  let l := fresh (dom (nodes c)) in
  (l, setNodes (<[l := mkNode zeroItem None None]> (nodes c)) c).

(** ** Identity derivation *)

(** [int64(24 * time.Hour)] *)
Definition dayNanos : Z := 86400000000000.

(** [fmt.Sprintf("%s|%s|%d|0", Group, Name, UnixNano/int64(24*time.Hour))];
    Go's [/] on integers truncates toward zero. *)
Definition booleanID (item : Item) : string :=
  Group item +:+ "|" +:+ Name item +:+ "|"
    +:+ pretty (CreatedAt item `quot` dayNanos) +:+ "|0".

(** [fmt.Sprintf("%s|%s|%d|", Group, Name, UnixNano)] *)
Definition metricPrefix (item : Item) : string :=
  Group item +:+ "|" +:+ Name item +:+ "|" +:+ pretty (CreatedAt item) +:+ "|".

(** The search for an unused sequence number: [for { ID = prefix +
    FormatInt(n); if !exists break; n++ }]. *)
Fixpoint nextFreeID (fuel : nat) (m : gmap string loc) (prefix : string)
    (n : Z) : Res string :=
  match fuel with
  | O => OutOfFuel
  | S fuel' =>
      let id := prefix +:+ pretty n in
      match m !! id with
      | None => Ok id
      | Some _ => nextFreeID fuel' m prefix (n + 1)
      end
  end.

Definition deriveID (c : dataContainer) (item : Item) : Res string :=
  if decide (Type_ item = "boolean") then Ok (booleanID item)
  else nextFreeID (S (size (byID c))) (byID c) (metricPrefix item) 0.

(** ** The ordered insertion *)

(** [t.Before(u)] *)
Definition Before (t u : Z) : bool := t <? u.

(** The scan of [addItem]:
    [for curr := head; curr != nil && !inserted; prev, curr = curr, curr.next].
    Returns the container and [inserted]. *)
Fixpoint insertScan (fuel : nat) (c : dataContainer) (node : loc)
    (prev0 curr : option loc) : Res (dataContainer * bool) :=
  match fuel with
  | O => OutOfFuel
  | S fuel' =>
      match curr with
      | None => Ok (c, false)
      | Some _ =>
          n ← load c (Some node);
          cn ← load c curr;
          if negb (Before (CreatedAt (value n)) (CreatedAt (value cn))) then
            match prev0 with
            | None =>
                c ← store c (Some node) (setNext (head c));
                c ← store c (head c) (setPrev (Some node));
                Ok (setHead (Some node) c, true)
            | Some _ =>
                c ← store c (Some node) (setPrev prev0);
                pn ← load c prev0;
                c ← store c (Some node) (setNext (next pn));
                c ← store c prev0 (setNext (Some node));
                Ok (c, true)
            end
          else insertScan fuel' c node curr (next cn)
      end
  end.

(** [container.tail.next = node; node.prev = container.tail;
     container.tail = node] *)
Definition appendTail (c : dataContainer) (node : loc) : Res dataContainer :=
  c1 ← store c (tail c) (setNext (Some node));
  c2 ← store c1 (Some node) (setPrev (tail c1));
  Ok (setTail (Some node) c2).

(** The body of the eviction loop: [drop := container.tail;
    container.tail = drop.prev; if container.tail == nil { container.head =
    nil } else { container.tail.next = nil }; delete(container.byID,
    drop.value.ID)]. *)
Definition dropTail (c : dataContainer) : Res dataContainer :=
  drop ← load c (tail c);
  let c1 := setTail (prev drop) c in
  c2 ← match tail c1 with
       | None => Ok (setHead None c1)
       | Some _ => store c1 (tail c1) (setNext None)
       end;
  Ok (setByID (delete (ID (value drop)) (byID c2)) c2).

(** [for len(container.byID) > file.maxEntries { ... }] *)
Fixpoint evict (fuel : nat) (maxE : Z) (c : dataContainer) : Res dataContainer :=
  if decide (Z.of_nat (size (byID c)) > maxE) then
    match fuel with
    | O => OutOfFuel
    | S fuel' => c' ← dropTail c; evict fuel' maxE c'
    end
  else Ok c.

(** [addItem] on the container of the item's group. *)
Definition addToContainer (maxE : Z) (container : dataContainer) (item0 : Item)
    : Res (dataContainer * Item) :=
  id ← deriveID container item0;
  let item := withID id item0 in
  let exists_ := bool_decide (is_Some (byID container !! id)) in
  let '(node, container) :=
    match byID container !! id with
    | Some l => (l, container)
    | None =>
        let '(l, c) := alloc container in
        (l, setByID (<[id := l]> (byID c)) c)
    end in
  container ← store container (Some node) (setValue item);
  container ←
    (if bool_decide (Type_ item = "metric") || negb exists_ then
       match head container with
       | None => Ok (setTail (Some node) (setHead (Some node) container))
       | Some _ =>
           '(c, inserted) ← insertScan (S (size (nodes container)))
                              container node None (head container);
           c ← (if inserted : bool then Ok c else appendTail c node);
           evict (S (size (nodes c))) maxE c
       end
     else Ok container);
  Ok (container, item).

Definition addItem (file : File) (item : Item) : Res (File * Item) :=
  let container := default emptyContainer (data file !! Group item) in
  '(container, item') ← addToContainer (maxEntries file) container item;
  Ok (setData (<[Group item := container]> (data file)) file, item').

(** ** Readers *)

(** [for curr := p; curr != nil; curr = curr.next { list = append(list,
    curr.value) }] *)
Fixpoint walk (fuel : nat) (c : dataContainer) (p : option loc) : Res (list Item) :=
  match p with
  | None => Ok []
  | Some _ =>
      match fuel with
      | O => OutOfFuel
      | S fuel' =>
          n ← load c p;
          rest ← walk fuel' c (next n);
          Ok (value n :: rest)
      end
  end.

Definition items (c : dataContainer) : Res (list Item) :=
  walk (size (nodes c)) c (head c).

(** [container, _ := file.data[group]] is [nil] for an unknown group, and
    [len(container.byID)] then dereferences it. *)
Definition GetGroupItems (file : File) (group : string) : Res (list Item) :=
  match data file !! group with
  | None => Panic
  | Some container => items container
  end.

(** [GetGroups]: the keys of [file.data], in the order the map yields them. *)
Definition GetGroups (file : File) : list string := (map_to_list (data file)).*1.

(** ** Serialization *)

Section store.

(** [json.Marshal(item)]: [Some e] when it reports the error [e]. *)
Variable marshalErr : Item → option string.

(** [item.writeTo(out)] for an in-memory buffer [out] (whose [Write] takes
    all of the data): the returned error and the buffer afterwards. *)
Definition writeTo (it : Item) (out : list line) : option string * list line :=
  match marshalErr it with
  | Some e => (Some e, out)
  | None => (None, out ++ [encode it])
  end.

(** ** Recovery and compaction: [New] *)

(** The read loop of [New]; [cur] is the variable [item], which every line
    is decoded into. *)
Fixpoint replay (file : File) (cur : Item) (lines : list line) : Res File :=
  match lines with
  | [] => Ok file
  | ln :: rest =>
      match ln cur with
      | None => Err "json: cannot unmarshal line"
      | Some cur' =>
          '(file', _) ← addItem file cur';
          replay file' cur' rest
      end
  end.

(** [for curr := container.head; curr != nil; curr = curr.next
      { curr.value.writeTo(writeBuffer) }] *)
Fixpoint writeAll (its : list Item) (out : list line) : Res (list line) :=
  match its with
  | [] => Ok out
  | it :: rest =>
      match writeTo it out with
      | (Some e, _) => Err e
      | (None, out') => writeAll rest out'
      end
  end.

(** [for _, container := range file.data { ... }]; [groups] is the order in
    which the map yields its keys. *)
Fixpoint compact (file : File) (groups : list string) (out : list line)
    : Res (list line) :=
  match groups with
  | [] => Ok out
  | g :: rest =>
      its ← GetGroupItems file g;
      out' ← writeAll its out;
      compact file rest out'
  end.

(** What the environment does to [New]: the errors of its file operations,
    when they report one, and whether the runtime refuses to allocate the
    channel of pending writes (a capacity it cannot hold). *)
Record fileFaults : Type := mkFaults {
  openErr : option string;
  chanPanics : bool;
  truncateErr : option string;
  seekErr : option string;
  copyErr : option string;
  syncErr : option string
}.

Definition noFaults : fileFaults := mkFaults None false None None None None.

Definition orErr {A} (e : option string) (k : Res A) : Res A :=
  match e with Some msg => Err msg | None => k end.

(** [New(options)] applied to a log file with content [disk]: [os.OpenFile],
    whose error is returned; then the store is built, and
    [make(chan writeRequest, options.MaxConcurrentWrites)] panics for a
    negative capacity; then the lines are read and the file is compacted. *)
Definition New (options : NewOptions) (disk : list line) (groups : list string)
    (io : fileFaults) : Res File :=
  orErr (openErr io) (
  if decide (MaxConcurrentWrites options < 0) then Panic
  else if chanPanics io then Panic
  else
    file ← replay (mkFile disk [] ∅ (MaxEntries options)) zeroItem disk;
    if decide (0 < size (data file))%nat then
      writeBuffer ← compact file groups [];
      orErr (truncateErr io) (
      orErr (seekErr io) (
      orErr (copyErr io) (
      orErr (syncErr io) (
      Ok (setFd writeBuffer file)))))
    else Ok file).

(** [Close] stops the writer; the log file is left as it is. *)
Definition Close (file : File) : list line := fd file.

(** ** The write coordinator: [bgWriter] *)

Inductive event : Type :=
  | EvLock
  | EvUnlock
  | EvCopy (buffer : list line)
  | EvSync
  | EvSend (ch : nat) (err : option string)
  | EvPanic.

(** [sendError(receivers, err)] *)
Definition sendError (receivers : list writeRequest) (err : option string)
    : list event :=
  (λ recv, EvSend (errChan recv) err) <$> receivers.

(** What [io.Copy(file.fd, buffer)], [buffer.Len()] after it and
    [file.fd.Sync()] return. *)
Record writeOutcome : Type := mkOutcome {
  copyN : Z;
  copyFault : option string;
  bufferLen : Z;
  syncFault : option string
}.

Record batch : Type := mkBatch {
  bFile : File;
  bBuffer : list line;
  bRecords : list writeRequest;
  bErr : option string
}.

(** [for collect && err != nil { select { case r := <-file.writes: ...
    default: collect = false } }] *)
Fixpoint drain (fuel : nat) (collect : bool) (b : batch) : Res batch :=
  if collect && bool_decide (is_Some (bErr b)) then
    match fuel with
    | O => OutOfFuel
    | S fuel' =>
        match writes (bFile b) with
        | r :: q =>
            let records := bRecords b ++ [r] in
            '(file, it) ← addItem (setWrites q (bFile b)) (item r);
            let '(err, buffer) := writeTo it (bBuffer b) in
            drain fuel' collect (mkBatch file buffer records err)
        | [] => drain fuel' false b
        end
    end
  else Ok b.

(** One [case req := <-file.writes] of the writer's loop: the events it
    performs and the store afterwards ([None] when the process has
    panicked). With an empty queue the writer stays blocked. *)
Definition bgWriter (file : File) (io : writeOutcome)
    : list event * option File :=
  match writes file with
  | [] => ([], Some file)
  | req :: q =>
      match addItem (setWrites q file) (item req) with
      | Ok (file, it) =>
          let records := [req] in
          match writeTo it [] with
          | (Some e, _) => (EvLock :: sendError records (Some e), Some file)
          | (None, buffer) =>
              match drain (S (length (writes file))) true
                      (mkBatch file buffer records None) with
              | Ok b =>
                  match bErr b with
                  | Some e =>
                      (EvLock :: sendError (bRecords b) (Some e) ++ [EvSync],
                       Some (bFile b))
                  | None =>
                      if bool_decide (is_Some (copyFault io)) then
                        ([EvLock; EvCopy (bBuffer b); EvUnlock; EvPanic], None)
                      else if bool_decide (copyN io < bufferLen io) then
                        ([EvLock; EvCopy (bBuffer b); EvUnlock; EvPanic], None)
                      else
                        (EvLock :: EvCopy (bBuffer b) :: EvUnlock
                           :: sendError (bRecords b) None ++ [EvSync],
                         Some (setFd (fd (bFile b) ++ bBuffer b) (bFile b)))
                  end
              | _ => ([EvLock; EvPanic], None)
              end
          end
      | _ => ([EvLock; EvPanic], None)
      end
  end.

End store.

End history.

Module checker.

(** ** The probe executor and scheduler *)

Definition millisecond : Z := 1000000.
Definition second : Z := 1000000000.
Definition minute : Z := 60 * second.

(** [d.Milliseconds()]: integer division truncates toward zero. *)
Definition Milliseconds (d : Z) : Z := d `quot` millisecond.

Record Checker : Type := mkChecker {
  Group : string;
  Name : string;
  Type_ : string;
  Cmd : string;
  MetricUnit : string;
  Interval : Z;
  CmdTimeout : Z;
  MaxRetries : Z;
  RetryInterval : Z
}.

(** [New(c)]: the defaults of the fields left at their zero value. The
    record holds the configured fields alone; the done channel, the wait
    group and the logger that [New] also sets, and the registration of the
    probe with the store, are no part of it. *)
Definition New (c : Checker) : Checker :=
  mkChecker (Group c) (Name c) (Type_ c) (Cmd c) (MetricUnit c) (Interval c)
    (if decide (Milliseconds (CmdTimeout c) = 0) then 1 * minute
     else CmdTimeout c)
    (if decide (MaxRetries c = 0) then 1 else MaxRetries c)
    (if decide (RetryInterval c = 0) then 5 * second else RetryInterval c).

(** What [cmd.Run()] returned: [nil], an [*exec.ExitError] with its exit
    code, or another error with its text. *)
Inductive runError : Type :=
  | ExitError (code : Z)
  | OtherError (msg : string).

(** One run of the command: the error, the two captures, [time.Now()] at
    completion and the elapsed time. *)
Record execution : Type := mkExecution {
  runErr : option runError;
  stdout : string;
  combinedOutput : string;
  finishedAt : Z;
  elapsed : Z
}.

(** What [Check] does besides running the command. *)
Inductive step : Type :=
  | Attempt (i : nat)
  | Wait (d : Z)
  | Closed.

(** The number of runs of the command in a trace. *)
Fixpoint attempts (tr : list step) : nat :=
  match tr with
  | [] => 0%nat
  | Attempt _ :: tr' => S (attempts tr')
  | _ :: tr' => attempts tr'
  end.

Section executor.

(** [float64], [strconv.ParseFloat(s, 10)] (the value or the error's text)
    and [strings.TrimSpace]. *)
Variable float64 : Type.
Variable zero : float64.
Variable ParseFloat : string → float64 + string.
Variable TrimSpace : string → string.

(** [history.Item] as the executor fills it. *)
Record Item : Type := mkItem {
  iGroup : string;
  iName : string;
  iType : string;
  iOutput : string;
  iCreatedAt : Z;
  iDuration : Z;
  iMetric : float64;
  iMetricUnit : string;
  iStatus : string;
  iError : string
}.

Definition zeroItem : Item := mkItem "" "" "" "" 0 0 zero "" "" "".

Definition setStatus (st err : string) (it : Item) : Item :=
  mkItem (iGroup it) (iName it) (iType it) (iOutput it) (iCreatedAt it)
         (iDuration it) (iMetric it) (iMetricUnit it) st err.
Definition setMetric (m : float64) (it : Item) : Item :=
  mkItem (iGroup it) (iName it) (iType it) (iOutput it) (iCreatedAt it)
         (iDuration it) m (iMetricUnit it) (iStatus it) (iError it).

(** [check()]: one attempt, given what running the command produced. *)
Definition check (c : Checker) (ex : execution) : Item :=
  let item := mkItem (Group c) (Name c) (Type_ c) (combinedOutput ex)
                (finishedAt ex) (elapsed ex) zero (MetricUnit c) "" "" in
  match runErr ex with
  | Some (ExitError code) =>
      setStatus "unhealthy" ("Process exited with status " +:+ pretty code) item
  | Some (OtherError msg) =>
      setStatus "unhealthy" ("Failed to run: #" +:+ msg) item
  | None =>
      let item := setStatus "healthy" "" item in
      if decide (Type_ c = "metric") then
        match ParseFloat (TrimSpace (stdout ex)) with
        | inl n => setMetric n item
        | inr e =>
            setStatus "unhealthy"
              ("Failed to parse metric from output: " +:+ e) item
        end
      else item
  end.

(** The environment of one [Check]: the outcome of the [i]-th run and
    whether the close signal wins the [select] before attempt [i]. *)
Record world : Type := mkWorld {
  runs : nat → execution;
  closing : nat → bool
}.

(** [for i := 0; i < c.MaxRetries; i++ { ... }] with [n] iterations left. *)
Fixpoint retry (c : Checker) (w : world) (n : nat) (i : nat) (item : Item)
    : Item * list step :=
  match n with
  | O => (item, [])
  | S n' =>
      if bool_decide (0 < i)%nat && closing w i then
        (item, [Wait (RetryInterval c); Closed])
      else
        let waited := if bool_decide (0 < i)%nat
                      then [Wait (RetryInterval c)] else [] in
        let item := check c (runs w i) in
        if decide (iStatus item ≠ "unhealthy") then
          (item, waited ++ [Attempt i])
        else
          let '(item', tr) := retry c w n' (S i) item in
          (item', waited ++ Attempt i :: tr)
  end.

(** [Check()] *)
Definition Check (c : Checker) (w : world) : Item * list step :=
  retry c w (Z.to_nat (MaxRetries c)) 0%nat zeroItem.

End executor.

Arguments iGroup {float64} _.
Arguments iName {float64} _.
Arguments iType {float64} _.
Arguments iOutput {float64} _.
Arguments iCreatedAt {float64} _.
Arguments iDuration {float64} _.
Arguments iMetric {float64} _.
Arguments iMetricUnit {float64} _.
Arguments iStatus {float64} _.
Arguments iError {float64} _.

End checker.

(** The source file [unnamed/part_000]: the executor without retries. *)
Module part_000.

Record Checker : Type := mkChecker {
  Group : string;
  Name : string;
  Type_ : string;
  Cmd : string;
  MetricUnit : string;
  Interval : Z;
  CmdTimeout : Z
}.

Definition New (c : Checker) : Checker :=
  mkChecker (Group c) (Name c) (Type_ c) (Cmd c) (MetricUnit c) (Interval c)
    (if decide (checker.Milliseconds (CmdTimeout c) = 0)
     then 1 * checker.minute else CmdTimeout c).

Section executor.

(** [strconv.ParseInt(s, 10, 64)]: the value or the error's text. *)
Variable ParseInt : string → Z + string.

Definition setStatus (st : string) (it : history.Item) : history.Item :=
  history.mkItem (history.ID it) (history.Group it) (history.Name it)
    (history.Type_ it) (history.Output it) (history.CreatedAt it)
    (history.Duration it) (history.Metric it) (history.MetricUnit it)
    st (history.Error it).
Definition setError (e : string) (it : history.Item) : history.Item :=
  history.mkItem (history.ID it) (history.Group it) (history.Name it)
    (history.Type_ it) (history.Output it) (history.CreatedAt it)
    (history.Duration it) (history.Metric it) (history.MetricUnit it)
    (history.Status it) e.
Definition setMetric (m : Z) (it : history.Item) : history.Item :=
  history.mkItem (history.ID it) (history.Group it) (history.Name it)
    (history.Type_ it) (history.Output it) (history.CreatedAt it)
    (history.Duration it) m (history.MetricUnit it)
    (history.Status it) (history.Error it).

(** [Check()] *)
Definition Check (c : Checker) (ex : checker.execution) : history.Item :=
  let item := history.mkItem "" (Group c) (Name c) (Type_ c)
                (checker.combinedOutput ex) (checker.finishedAt ex)
                (checker.elapsed ex) 0 (MetricUnit c) "" "" in
  match checker.runErr ex with
  | Some (checker.ExitError code) =>
      setError ("Process exited with status " +:+ pretty code)
        (setStatus "unhealthy" item)
  | Some (checker.OtherError msg) =>
      setError ("Failed to run: #" +:+ msg) (setStatus "unhealthy" item)
  | None =>
      let item := setStatus "healthy" item in
      if decide (Type_ c = "metric") then
        match ParseInt (checker.stdout ex) with
        | inl n => setMetric n item
        | inr e => setError ("Failed to parse metric from output: " +:+ e) item
        end
      else item
  end.

End executor.

End part_000.

(** ** Per-check defaults of [FromConfig] *)

Module patrol.

(** Modelled from the spec: the type [duration] of the configuration file and
    its methods [isZero] and [duration] are declared outside the sources at
    hand; a [duration] is taken to be its [time.Duration] (a nanosecond
    count), [isZero] to test for the zero value. *)
Definition duration : Type := Z.
Definition isZero (d : duration) : bool := bool_decide (d = 0).
Definition toDuration (d : duration) : Z := d.

(** One element of [Services[group].Checks]. *)
Record checkConfig : Type := mkCheck {
  Name : string;
  Interval : duration;
  Timeout : duration;
  Cmd : string;
  Type_ : string;
  MetricUnit : string
}.

(** The body of [for idx, checkConfig := range groupConfig.Checks]: the
    checker built for one check, or the configuration error. *)
Definition buildChecker (group : string) (idx : nat) (cc : checkConfig)
    : Res checker.Checker :=
  let type := if decide (Type_ cc = "") then "boolean" else Type_ cc in
  if decide (Name cc = "") then
    Err (pretty idx +:+ "-th check missing name in " +:+ group)
  else if decide (Cmd cc = "") then
    Err (pretty idx +:+ "-th check missing cmd in " +:+ group)
  else if decide (type = "metric" ∧ MetricUnit cc = "") then
    Err (pretty idx +:+ "-th check is of type metric but is missing unit in "
           +:+ group)
  else
    let interval := if isZero (Interval cc) then 60 * checker.second
                    else Interval cc in
    let timeout := if isZero (Timeout cc) then 3 * checker.minute
                   else Timeout cc in
    Ok (checker.New (checker.mkChecker group (Name cc) type (Cmd cc)
          (MetricUnit cc) (toDuration interval) (toDuration timeout) 0 0)).

End patrol.

(** ** The scheduler: [Start] *)

Module scheduler.
Import checker.

(** What the goroutine of [Start] does, one after the other. *)
Inductive action (Item : Type) : Type :=
  | Ran (item : Item) (tr : list step)
  | Skipped
  | Appended (item : Item)
  | Notified (status group name : string)
  | Waited (d : Z)
  | Died (err : string)
  | Stopped.

Arguments Ran {Item} _ _.
Arguments Skipped {Item}.
Arguments Appended {Item} _.
Arguments Notified {Item} _ _ _.
Arguments Waited {Item} _.
Arguments Died {Item} _.
Arguments Stopped {Item}.

Section loop.

Variable float64 : Type.
Variable zero : float64.
Variable ParseFloat : string → float64 + string.
Variable TrimSpace : string → string.

(** The environment of one iteration of the loop: the environment of its
    [Check], whether [doneChan] is closed when the first [select] is
    reached (its [default] is taken only if it is not), what
    [c.History.Append] returns, and whether the second [select] takes
    [doneChan] rather than the timer. *)
Record round : Type := mkRound {
  probe : world;
  closedAtWrite : bool;
  appendResult : Item float64 → Item float64 * option string;
  closedAtWait : bool
}.

(** The body of [go func() { for { ... } }()] from iteration [r] on, with
    [fuel] iterations at most; [receiver] tells whether the receiver is
    not [nil]. *)
Fixpoint iterate (c : Checker) (receiver : bool) (rounds : nat → round)
    (fuel : nat) (r : nat) : list (action (Item float64)) :=
  match fuel with
  | O => []
  | S fuel' =>
      let '(item, tr) := Check float64 zero ParseFloat TrimSpace c
                           (probe (rounds r)) in
      let wait :=
        Waited (Interval c)
          :: (if closedAtWait (rounds r) then [Stopped]
              else iterate c receiver rounds fuel' (S r)) in
      Ran item tr ::
        (if closedAtWrite (rounds r) then Skipped :: wait
         else
           let '(item', err) := appendResult (rounds r) item in
           match err with
           | Some e => [Died e]
           | None =>
               Appended item'
                 :: (if receiver
                     then [Notified (iStatus item') (iGroup item') (iName item')]
                     else [])
                 ++ wait
           end)
  end.

(** [Start(receiver)]: the goroutine, from its first iteration. *)
Definition Start (c : Checker) (receiver : bool) (rounds : nat → round)
    (fuel : nat) : list (action (Item float64)) :=
  iterate c receiver rounds fuel 0.

End loop.

End scheduler.

(** ** The configuration: [FromConfig] *)

Module config.
Import patrol.








End config.

(** * Properties *)

Module history_defs.
Import history.

(** ** The invariant of a group container *)

Definition predAt (ls : list loc) (i : nat) : option loc :=
  match i with O => None | S j => ls !! j end.

(** [p] is the [prev] pointer of the node at position [i]: [nil] at the
    head, a node at an earlier position elsewhere. *)
Definition backOK (ls : list loc) (i : nat) (p : option loc) : Prop :=
  match i with
  | O => p = None
  | S _ => ∃ l', p = Some l' ∧ l' ∈ take i ls
  end.

(** [ls] with [l] put at position [i]. *)
Definition insertAt (i : nat) (l : loc) (ls : list loc) : list loc :=
  take i ls ++ l :: drop i ls.

(** The sequence from [head] along [next] is [ls] and ends in [tail]; every
    node of it is filed in [byID] under its identity. *)
Record linked (c : dataContainer) (ls : list loc) : Prop := mkLinked {
  linked_nodup : NoDup ls;
  linked_head : head c = ls !! 0%nat;
  linked_tail : tail c = last ls;
  linked_node : ∀ i l, ls !! i = Some l →
    ∃ n, nodes c !! l = Some n ∧ next n = ls !! S i
         ∧ backOK ls i (prev n) ∧ byID c !! ID (value n) = Some l;
  linked_byID : ∀ k l, byID c !! k = Some l → is_Some (nodes c !! l)
}.

(** [byID] files the node [l] under the identity of its entry, and [l] is
    in the sequence [ls] or is the node [extra]. *)
Definition filed (c : dataContainer) (ls : list loc) (extra : option loc)
    : Prop :=
  ∀ k l, byID c !! k = Some l →
    (l ∈ ls ∨ extra = Some l)
    ∧ ∃ n, nodes c !! l = Some n ∧ ID (value n) = k.

(** [prev] is the inverse of [next]. *)
Definition exactPrev (c : dataContainer) (ls : list loc) : Prop :=
  ∀ i l n, ls !! i = Some l → nodes c !! l = Some n → prev n = predAt ls i.

(** [prev] is the inverse of [next], and [byID] holds the nodes of the
    sequence and no other. *)
Record tight (c : dataContainer) (ls : list loc) : Prop := mkTight {
  tight_prev : exactPrev c ls;
  tight_byID : filed c ls None
}.

(** The entries of the nodes [ls], in that order. *)
Fixpoint entries (c : dataContainer) (ls : list loc) : list Item :=
  match ls with
  | [] => []
  | l :: ls' =>
      match nodes c !! l with
      | Some n => value n :: entries c ls'
      | None => entries c ls'
      end
  end.

(** Newest first. *)
Definition descending (es : list Item) : Prop :=
  ∀ i j x y, (i < j)%nat → es !! i = Some x → es !! j = Some y →
    CreatedAt y ≤ CreatedAt x.

(** The number of leading entries that are strictly newer than [t]: the
    position at which the scan of [addItem] stops. *)
Fixpoint scanPos (t : Z) (es : list Item) : nat :=
  match es with
  | [] => 0%nat
  | e :: es' => if Before t (CreatedAt e) then S (scanPos t es') else 0%nat
  end.

(** The container after the scan has put [l] in front of the head [h]. *)
Definition headInserted (c : dataContainer) (l : loc) (v : Item) (h : loc)
    (hn : listNode) : dataContainer :=
  setHead (Some l)
    (setNodes (<[h := setPrev (Some l) hn]>
                 (<[l := mkNode v (Some h) None]> (nodes c))) c).

(** The container after [l] has been linked behind the node [p]. *)
Definition linkedAfter (c : dataContainer) (l : loc) (v : Item) (p : loc)
    (pn : listNode) (tl : option loc) : dataContainer :=
  mkContainer
    (<[p := setNext (Some l) pn]>
       (<[l := mkNode v (next pn) (Some p)]> (nodes c)))
    (byID c) (head c) tl.

(** The container once a node for the entry [v] has been allocated and
    filed, before it is linked into the sequence. *)
Definition allocated (c : dataContainer) (v : Item) : loc * dataContainer :=
  let l := fresh (dom (nodes c)) in
  (l, mkContainer (<[l := mkNode v None None]> (nodes c))
        (<[ID v := l]> (byID c)) (head c) (tail c)).

(** The invariant of the specification: links, identity map and order. *)
Definition containerInv (c : dataContainer) : Prop :=
  ∃ ls, linked c ls ∧ tight c ls ∧ descending (entries c ls).

Definition fileInv (file : File) : Prop :=
  ∀ g c, data file !! g = Some c → containerInv c.

(** [Append] called for each of [its] in turn, every call being committed
    before the next. *)
Fixpoint addAll (file : File) (its : list Item) : Res File :=
  match its with
  | [] => Ok file
  | it :: rest => '(file', _) ← addItem file it; addAll file' rest
  end.

(** The day of an instant, counted from the Unix epoch in UTC. *)
Definition utcDay (t : Z) : Z := t `div` dayNanos.

(** An empty store with the given bound. *)
Definition emptyFile (maxE : Z) : File := mkFile [] [] ∅ maxE.

Definition metricAt (name : string) (t : Z) : Item :=
  mkItem "" "web" name "metric" "" t 0 0 "ms" "healthy" "".
Definition booleanAt (name : string) (t : Z) : Item :=
  mkItem "" "web" name "boolean" "" t 0 0 "" "healthy" "".

(** 2023-11-14 00:00:00 UTC, in nanoseconds, and an hour. *)
Definition day0 : Z := 19675 * dayNanos.
Definition hour : Z := 3600000000000.

(** The store after [its] have been added, when that goes through. *)
Definition afterAll (file : File) (its : list Item) : File :=
  match addAll file its with Ok f => f | _ => file end.

(** A container holding the single entry [v] in node [l]. *)
Definition singleton (l : loc) (v : Item) : dataContainer :=
  mkContainer {[l := mkNode v None None]} {[ID v := l]} (Some l) (Some l).

(** The scenarios. *)
Definition pingMorning : Item := booleanAt "ping" (day0 + 1 * hour).
Definition pingNoon : Item := booleanAt "ping" (day0 + 12 * hour).
Definition pingEvening : Item := booleanAt "ping" (day0 + 20 * hour).
Definition diskMidday : Item := booleanAt "disk" (day0 + 10 * hour).
Definition nextWeek : Item := metricAt "latency" (day0 + 7 * dayNanos).

Definition oneProbeStore : File :=
  mkFile [] [] {["web" := singleton 0%nat (withID (booleanID pingMorning) pingMorning)]} 5.

Definition cpuMidnight : Item := booleanAt "cpu" day0.

(** The container of a group, an empty one when the group has none. *)
Definition containerOf (file : File) (g : string) : dataContainer :=
  default emptyContainer (data file !! g).

(** Two probes, the older one submitted first: [diskMidday] is put in front
    of [pingMorning]. *)
Definition twoProbes (maxE : Z) : File :=
  afterAll (emptyFile maxE) [pingMorning; diskMidday].

(** Three probes, the last one submitted going between the two others:
    [diskMidday], [pingMorning], [cpuMidnight] in that order, the back
    pointer of [cpuMidnight] still naming [diskMidday]. *)
Definition middleStore : File :=
  afterAll (emptyFile 5) [diskMidday; cpuMidnight; pingMorning].

(** ** The invariant of a given container, computed *)

Definition backOKb (ls : list loc) (i : nat) (p : option loc) : bool :=
  match i, p with
  | O, None => true
  | S _, Some l' => bool_decide (l' ∈ take i ls)
  | _, _ => false
  end.

Definition nodeOK (c : dataContainer) (ls : list loc) (i : nat) : bool :=
  match ls !! i with
  | None => true
  | Some l =>
      match nodes c !! l with
      | None => false
      | Some n =>
          bool_decide (next n = ls !! S i)
          && backOKb ls i (prev n)
          && bool_decide (byID c !! ID (value n) = Some l)
      end
  end.

Definition linkedb (c : dataContainer) (ls : list loc) : bool :=
  bool_decide (NoDup ls)
  && bool_decide (head c = ls !! 0%nat)
  && bool_decide (tail c = last ls)
  && forallb (nodeOK c ls) (seq 0 (length ls))
  && bool_decide (map_Forall (λ _ l, is_Some (nodes c !! l)) (byID c)).

Definition prevOK (c : dataContainer) (ls : list loc) (i : nat) : bool :=
  match ls !! i with
  | None => true
  | Some l =>
      match nodes c !! l with
      | None => true
      | Some n => bool_decide (prev n = predAt ls i)
      end
  end.

Definition filedOK (c : dataContainer) (ls : list loc) (k : string) (l : loc)
    : Prop :=
  l ∈ ls ∧ (λ n, ID (value n)) <$> nodes c !! l = Some k.

Definition tightb (c : dataContainer) (ls : list loc) : bool :=
  forallb (prevOK c ls) (seq 0 (length ls))
  && bool_decide (map_Forall (filedOK c ls) (byID c)).

Fixpoint descendingb (es : list Item) : bool :=
  match es with
  | [] => true
  | x :: es' =>
      forallb (λ y, bool_decide (CreatedAt y ≤ CreatedAt x)) es'
      && descendingb es'
  end.

End history_defs.

Module coordinator_defs.
Import history history_defs.

(** The order C2 asks for: every result delivered to a waiter comes after a
    write of the batch and an [fsync] that follows it. *)
Definition ackAfterFlush (tr : list event) : Prop :=
  ∀ i ch e, tr !! i = Some (EvSend ch e) →
    ∃ j k buf, (j < k < i)%nat ∧ tr !! j = Some (EvCopy buf)
               ∧ tr !! k = Some EvSync.

(** [json.Marshal] does not fail on an [Item]. *)
Definition marshalOK : Item → option string := λ _, None.

(** A write that goes through. *)
Definition written : writeOutcome := mkOutcome 0 None 0 None.

(** Two callers blocked in [Append]. *)
Definition twoPending : File :=
  mkFile [] [mkRequest pingMorning 1; mkRequest diskMidday 2] ∅ 5.

End coordinator_defs.

Module checker_defs.
Import checker.

(** The steps of attempts [i .. i+k-1]: a wait before every attempt but
    attempt 0. *)
Fixpoint attemptSteps (d : Z) (i k : nat) : list step :=
  match k with
  | O => []
  | S k' =>
      (if bool_decide (0 < i)%nat then [Wait d] else [])
        ++ Attempt i :: attemptSteps d (S i) k'
  end.

(** Stand-ins for [float64], [strconv.ParseFloat] and [strings.TrimSpace]
    on the outputs of the scenarios: a number is kept in tenths. *)
Definition demoParse (s : string) : Z + string :=
  if decide (s = "42.5") then inl 425
  else inr ("strconv.ParseFloat: parsing " +:+ s +:+ ": invalid syntax").
Definition demoTrim (s : string) : string :=
  if decide (s = "42.5
") then "42.5"
  else if decide (s = "not-a-number
") then "not-a-number" else s.

Definition metricProbe : Checker :=
  mkChecker "web" "latency" "metric" "echo not-a-number" "ms"
    (60 * second) (1 * minute) 1 (5 * second).
Definition notANumber : execution :=
  mkExecution None "not-a-number
" "not-a-number
" 1700000000000000000 2000000.

Definition failingProbe (retries : Z) : Checker :=
  mkChecker "web" "ping" "boolean" "exit 1" "" (60 * second) 0 retries 0.
Definition exitOne : execution :=
  mkExecution (Some (ExitError 1)) "" "" 1700000000000000000 2000000.
Definition alwaysFails : world := mkWorld (λ _, exitOne) (λ _, false).

Definition noTimeoutCheck : patrol.checkConfig :=
  patrol.mkCheck "ping" 0 0 "exit 0" "" "".

End checker_defs.

Module recovery_defs.
Import history history_defs coordinator_defs.

(** The entries [GetGroupItems] yields for a group, none when it faults. *)
Definition retained (file : File) (g : string) : list Item :=
  match GetGroupItems file g with Ok es => es | _ => [] end.

(** An entry without its derived identity. *)
Definition submitted (it : Item) : Item := withID "" it.

(** The nodes of [c] are nodes of [c'] and hold the same entries. *)
Definition keeps (c c' : dataContainer) : Prop :=
  ∀ l n, nodes c !! l = Some n →
    ∃ n', nodes c' !! l = Some n' ∧ value n' = value n.

(** What [addItem] makes of every entry it files under the group [g]: the
    entry is of that group, and a boolean entry carries the identity of
    its day. *)
Definition stamped (g : string) (x : Item) : Prop :=
  Group x = g ∧ (Type_ x = "boolean" → ID x = booleanID x).

(** What holds of a container whatever was appended: the sequence is
    linked, its entries are stamped, and the bound is met once the
    eviction loop has been reached. *)
Definition sound (maxE : Z) (g : string) (c : dataContainer) : Prop :=
  ∃ ls, linked c ls
    ∧ ((length ls ≤ 1)%nat ∨ Z.of_nat (size (byID c)) ≤ maxE)
    ∧ Forall (stamped g) (entries c ls).

Definition fileSound (file : File) : Prop :=
  ∀ g c, data file !! g = Some c → sound (maxEntries file) g c.

(** [addItem] for each of [its] in turn, on one container. *)
Fixpoint addEach (maxE : Z) (c : dataContainer) (its : list Item)
    : Res dataContainer :=
  match its with
  | [] => Ok c
  | it :: rest => '(c', _) ← addToContainer maxE c it; addEach maxE c' rest
  end.

Definition isBoolean (it : Item) : bool := bool_decide (Type_ it = "boolean").

(** The identity of the boolean entry [x] begins like the identities that
    are tried for the entry [y], which is not boolean. *)
Definition clash (x y : Item) : bool :=
  isBoolean x && negb (isBoolean y)
  && String.prefix (metricPrefix y) (booleanID x).

Definition clashFree (es : list Item) : bool :=
  forallb (λ x, forallb (λ y, negb (clash x y)) es) es.

Definition noClash (file : File) : bool :=
  forallb (λ g, clashFree (retained file g)) (GetGroups file).

(** [x'] is the entry [x] under an identity that [addItem] derives for it. *)
Definition rederived (x x' : Item) : Prop :=
  ∃ id, x' = withID id x
    ∧ if isBoolean x then id = booleanID x
      else ∃ z : Z, id = metricPrefix x +:+ pretty z.

(** The container that the entries [done], appended to an empty container
    in that order, have been filed in without a loss. *)
Definition rebuilt (c : dataContainer) (done : list Item) : Prop :=
  ∃ ls done', linked c ls ∧ filed c ls None
    ∧ entries c ls ≡ₚ done' ∧ Forall2 rederived done done'
    ∧ size (byID c) = length done.

(** The entry [x] can be told from the entries [done]. *)
Definition apart (done : list Item) (x : Item) : Prop :=
  ∀ y, y ∈ done →
    clash x y = false
    ∧ (isBoolean x → isBoolean y → booleanID y ≠ booleanID x).

(** The scenarios: two measurements of one probe taken at the same
    instant, alone in a log and with a boolean entry of another probe. *)
Definition latencyA : Item :=
  mkItem "" "web" "latency" "metric" "" (day0 + hour) 0 12 "ms" "healthy" "".
Definition latencyB : Item :=
  mkItem "" "web" "latency" "metric" "" (day0 + hour) 0 15 "ms" "healthy" "".

Definition twinLog : list line := encode <$> [latencyA; latencyB].
Definition mixedLog : list line :=
  encode <$> [pingMorning; latencyA; latencyB; pingNoon].

Definition roomy : NewOptions := mkOptions 10 1.

(** The store of a construction that went through. *)
Definition stored (r : Res File) : File :=
  match r with Ok file => file | _ => emptyFile 0 end.

Definition twinStore : File :=
  stored (New marshalOK roomy twinLog ["web"] noFaults).
Definition twinStoreAgain : File :=
  stored (New marshalOK roomy (Close twinStore) ["web"] noFaults).
Definition mixedStore : File :=
  stored (New marshalOK roomy mixedLog ["web"] noFaults).

End recovery_defs.

Module index_defs.
Import history history_defs recovery_defs.

(** A container between two calls of [addItem] when the bound is not
    negative: the sequence is linked, and the identity map is within the
    bound unless the sequence has a single node, which the first entry of a
    container is linked as without a look at the bound. *)
Definition steady (maxE : Z) (c : dataContainer) : Prop :=
  ∃ ls, linked c ls
    ∧ (Z.of_nat (size (byID c)) ≤ maxE
       ∨ (length ls = 1%nat ∧ Z.of_nat (size (byID c)) ≤ maxE + 1)).

Definition fileSteady (file : File) : Prop :=
  ∀ g c, data file !! g = Some c → steady (maxEntries file) c.

(** A container that has received an entry, between two calls of [addItem]
    when the bound is 1 or more: the sequence is not empty and the identity
    map is within the bound. *)
Definition lively (maxE : Z) (c : dataContainer) : Prop :=
  ∃ ls, linked c ls ∧ ls ≠ [] ∧ Z.of_nat (size (byID c)) ≤ maxE.

Definition fileLively (file : File) : Prop :=
  ∀ g c, data file !! g = Some c → lively (maxEntries file) c.

(** [es] with [v] put where the scan of [addItem] stops. *)
Definition placed (v : Item) (es : list Item) : list Item :=
  let pos := scanPos (CreatedAt v) es in
  take pos es ++ v :: drop pos es.

(** Every entry that a container lists is of the group [g], carries the
    identity of its day if it is boolean, and is an entry that satisfies
    [S] but for its identity; the sequence has one node at most or [byID]
    is within the bound. *)
Definition wellListed (S : Item → Prop) (maxE : Z) (g : string)
    (c : dataContainer) : Prop :=
  ∃ ls, linked c ls
    ∧ ((length ls ≤ 1)%nat ∨ Z.of_nat (size (byID c)) ≤ maxE)
    ∧ Forall (λ x, stamped g x ∧ ∃ it, S it ∧ submitted x = submitted it)
        (entries c ls).

(** The entries listed are in descending order of their instants. *)
Definition ordered (maxE : Z) (g : string) (c : dataContainer) : Prop :=
  ∃ ls, linked c ls ∧ descending (entries c ls).

Definition notBoolean (it : Item) : Prop := Type_ it ≠ "boolean".

(** Every entry is appended before the entries of later instants. *)
Fixpoint ascending (its : list Item) : Prop :=
  match its with
  | [] => True
  | x :: rest =>
      Forall (λ y, CreatedAt x ≤ CreatedAt y) rest ∧ ascending rest
  end.

(** The container lists the latest of the entries [done], which were
    appended in the order of their instants, and its back pointers and
    identity map are exact. *)
Definition latest (maxE : Z) (c : dataContainer) (done : list Item) : Prop :=
  ∃ ls, linked c ls ∧ tight c ls
    ∧ submitted <$> entries c ls
      = take (Z.to_nat maxE) (reverse (submitted <$> done)).

(** The scenarios: runs of appends to an empty store, and a store with one
    entry and a negative bound. *)
Definition dbPing : Item :=
  mkItem "" "db" "ping" "boolean" "" (day0 + hour) 0 0 "" "healthy" "".

Definition sampleRun : list Item :=
  [pingMorning; latencyA; dbPing; latencyB; pingNoon; diskMidday].

Definition sampleStore : File := afterAll (emptyFile 5) sampleRun.

Definition metricRun : list Item :=
  [metricAt "latency" (day0 + 3 * hour); metricAt "latency" (day0 + hour);
   metricAt "latency" (day0 + 2 * hour); metricAt "load" (day0 + 2 * hour)].

Definition metricStore : File := afterAll (emptyFile 3) metricRun.

Definition unboundedBelow : File :=
  mkFile [] []
    {["web" := singleton 0%nat (withID (booleanID pingMorning) pingMorning)]}
    (-1).

End index_defs.

Module durable_defs.
Import history history_defs coordinator_defs recovery_defs index_defs.

(** The results that a trace delivers to the waiters, in order. *)
Fixpoint answers (tr : list event) : list (nat * option string) :=
  match tr with
  | [] => []
  | EvSend ch e :: tr' => (ch, e) :: answers tr'
  | _ :: tr' => answers tr'
  end.

(** [n] wake-ups of the writer in a row, each write having the outcome
    [io]; [None] once the process has panicked. *)
Fixpoint wakeUps (marshalErr : Item → option string) (io : writeOutcome)
    (n : nat) (file : File) : option File :=
  match n with
  | O => Some file
  | S n' =>
      match bgWriter marshalErr file io with
      | (_, Some file') => wakeUps marshalErr io n' file'
      | (_, None) => None
      end
  end.

(** A line that cannot be decoded, and one that can. *)
Definition garbled : line := λ _, None.

(** The scenarios. *)
Definition threePending : File :=
  mkFile [] [mkRequest pingMorning 1; mkRequest latencyA 2;
             mkRequest pingNoon 3] ∅ 5.

Definition refusesLatency : Item → option string :=
  λ it, if bool_decide (Name it = "latency")
        then Some "json: unsupported value" else None.

End durable_defs.

Module probe_defs.
Import checker checker_defs.

(** The scenarios: a boolean probe and runs of its command. *)
Definition pingProbe : Checker :=
  mkChecker "web" "ping" "boolean" "curl -f http://localhost" ""
    (60 * second) 1 0 0.
Definition exitZero : execution :=
  mkExecution None "ok" "ok" 1700000000000000000 2000000.
Definition oldProbe : part_000.Checker :=
  part_000.mkChecker "web" "latency" "metric" "echo 1.5" "ms" (60 * second) 0.

End probe_defs.

Module scheduler_defs.
Import checker checker_defs probe_defs scheduler.

(** The number of results of [Check] in a trace, and the number of results
    that have been skipped, appended or answered with an error. *)
Fixpoint ran {Item} (tr : list (action Item)) : nat :=
  match tr with
  | [] => 0
  | Ran _ _ :: tr' => S (ran tr')
  | _ :: tr' => ran tr'
  end.

Fixpoint handled {Item} (tr : list (action Item)) : nat :=
  match tr with
  | [] => 0
  | (Skipped | Appended _ | Died _) :: tr' => S (handled tr')
  | _ :: tr' => handled tr'
  end.

(** The action ends the goroutine. *)
Definition final {Item} (a : action Item) : Prop :=
  match a with Stopped | Died _ => True | _ => False end.

(** The action notifies the receiver of the entry appended by [prev]. *)
Definition announced {Item} (status group name : Item → string)
    (prev : option (action Item)) (a : action Item) : Prop :=
  match a with
  | Notified s g n =>
      ∃ it, prev = Some (Appended it)
        ∧ s = status it ∧ g = group it ∧ n = name it
  | _ => True
  end.

(** Every notification of a trace follows the append it reports. *)
Fixpoint inOrder {Item} (status group name : Item → string)
    (prev : option (action Item)) (tr : list (action Item)) : Prop :=
  match tr with
  | [] => True
  | a :: tr' =>
      announced status group name prev a
      ∧ inOrder status group name (Some a) tr'
  end.

(** The scenario: the store files the entry of the first iteration and
    fails on the entry of the second. *)
Definition failsSecond : nat → round Z :=
  λ r, mkRound Z alwaysFails false
         (λ it, (it, if bool_decide (r = 1%nat)
                     then Some "Wrote partial data" else None))
         false.

End scheduler_defs.

Module config_defs.
Import patrol config checker_defs.




End config_defs.

(** * Proofs *)

Module history_facts.
Import history history_defs.

Implicit Types (c : dataContainer) (ls : list loc) (l : loc) (n : listNode).

Lemma bind_Ok {A B} (a : A) (f : A → Res B) : Ok a ≫= f = f a.
Proof. done. Qed.

Lemma load_Some c l n : nodes c !! l = Some n → load c (Some l) = Ok n.
Proof. intros H. unfold load. by rewrite H. Qed.

Lemma store_Some c l n f :
  nodes c !! l = Some n →
  store c (Some l) f = Ok (setNodes (<[l := f n]> (nodes c)) c).
Proof. intros H. unfold store. by rewrite H. Qed.

Lemma linked_in c ls l : linked c ls → l ∈ ls → is_Some (nodes c !! l).
Proof.
  intros Hl [i Hi]%list_elem_of_lookup.
  destruct (linked_node _ _ Hl i l Hi) as (n & Hn & _). eauto.
Qed.

Lemma linked_length c ls : linked c ls → (length ls ≤ size (nodes c))%nat.
Proof.
  intros Hl. rewrite <-size_dom.
  rewrite <-(size_list_to_set (C:=gset loc) ls) by apply Hl.
  apply subseteq_size. intros l Hin%elem_of_list_to_set.
  apply elem_of_dom. eauto using linked_in.
Qed.

Lemma linked_empty : linked emptyContainer [].
Proof.
  split; simpl; try done. constructor.
Qed.

Lemma tight_empty : tight emptyContainer [].
Proof. split; [done|]. intros k l Hk. simpl in Hk. by rewrite lookup_empty in Hk. Qed.

Lemma linked_nil_inv c : linked c [] → head c = None ∧ tail c = None.
Proof. intros [? Hh Ht _ _]. done. Qed.

Lemma entries_lookup c ls i l n :
  linked c ls → ls !! i = Some l → nodes c !! l = Some n →
  entries c ls !! i = Some (value n).
Proof.
  intros Hl. revert i.
  assert (Hall : ∀ l', l' ∈ ls → is_Some (nodes c !! l')) by eauto using linked_in.
  clear Hl. induction ls as [|l0 ls IH]; intros i Hi Hn; [done|].
  destruct (Hall l0) as [n0 Hn0]; [left|].
  simpl. rewrite Hn0. destruct i as [|i]; simpl in *.
  - by simplify_eq.
  - apply IH; auto. intros. apply Hall. by right.
Qed.

Lemma entries_length c ls : linked c ls → length (entries c ls) = length ls.
Proof.
  intros Hl.
  assert (Hall : ∀ l', l' ∈ ls → is_Some (nodes c !! l')) by eauto using linked_in.
  clear Hl. induction ls as [|l0 ls IH]; [done|].
  destruct (Hall l0) as [n0 Hn0]; [left|].
  simpl. rewrite Hn0. simpl. f_equal. apply IH. intros. apply Hall. by right.
Qed.

Lemma entries_lookup_inv c ls i x :
  linked c ls → entries c ls !! i = Some x →
  ∃ l n, ls !! i = Some l ∧ nodes c !! l = Some n ∧ value n = x.
Proof.
  intros Hl Hx.
  assert (Hi : (i < length ls)%nat).
  { rewrite <-(entries_length c ls Hl). eauto using lookup_lt_Some. }
  apply lookup_lt_is_Some in Hi as [l Hi].
  destruct (linked_node _ _ Hl i l Hi) as (n & Hn & _).
  exists l, n. split; [done|]. split; [done|].
  rewrite (entries_lookup c ls i l n Hl Hi Hn) in Hx. by simplify_eq.
Qed.

(** The walk of the readers visits the sequence. *)
Lemma walk_linked c ls i fuel :
  linked c ls → (length ls ≤ fuel + i)%nat →
  walk fuel c (ls !! i) = Ok (drop i (entries c ls)).
Proof.
  intros Hl. revert i. induction fuel as [|fuel IH]; intros i Hf.
  - rewrite lookup_ge_None_2 by lia. simpl.
    rewrite drop_ge; [done|]. rewrite entries_length by done. lia.
  - destruct (ls !! i) as [l|] eqn:Hi.
    + destruct (linked_node _ _ Hl i l Hi) as (n & Hn & Hnext & _).
      simpl. unfold load. rewrite Hn. simpl. rewrite Hnext, IH by lia. simpl.
      by rewrite (drop_S _ (value n) i) by exact (entries_lookup c ls i l n Hl Hi Hn).
    + simpl. rewrite drop_ge; [done|]. rewrite entries_length by done.
      by apply lookup_ge_None.
Qed.

Lemma items_linked c ls : linked c ls → items c = Ok (entries c ls).
Proof.
  intros Hl. unfold items. rewrite (linked_head _ _ Hl).
  rewrite (walk_linked c ls 0) by (auto; pose proof (linked_length c ls Hl); lia).
  done.
Qed.

(** *** Lists with one more element *)

Lemma insertAt_lookup_lt i l ls k :
  (k < i)%nat → (i ≤ length ls)%nat → insertAt i l ls !! k = ls !! k.
Proof.
  intros. unfold insertAt. rewrite lookup_app_l by (rewrite length_take; lia).
  by rewrite lookup_take_lt.
Qed.

Lemma insertAt_lookup_eq i l ls :
  (i ≤ length ls)%nat → insertAt i l ls !! i = Some l.
Proof.
  intros. unfold insertAt. rewrite lookup_app_r by (rewrite length_take; lia).
  rewrite length_take. by replace (i - i `min` length ls)%nat with 0%nat by lia.
Qed.

Lemma insertAt_lookup_gt i l ls k :
  (i ≤ k)%nat → (i ≤ length ls)%nat → insertAt i l ls !! S k = ls !! k.
Proof.
  intros. unfold insertAt. rewrite lookup_app_r by (rewrite length_take; lia).
  rewrite length_take.
  replace (S k - i `min` length ls)%nat with (S (k - i)) by lia.
  simpl. rewrite lookup_drop. f_equal. lia.
Qed.

Lemma insertAt_perm i l ls : insertAt i l ls ≡ₚ l :: ls.
Proof.
  unfold insertAt. rewrite <-Permutation_middle. by rewrite take_drop.
Qed.

Lemma insertAt_length i l ls : length (insertAt i l ls) = S (length ls).
Proof. by rewrite insertAt_perm. Qed.

Lemma insertAt_cases i l ls k x :
  (i ≤ length ls)%nat → insertAt i l ls !! k = Some x →
  (k < i)%nat ∧ ls !! k = Some x
  ∨ k = i ∧ x = l
  ∨ ∃ k', k = S k' ∧ (i ≤ k')%nat ∧ ls !! k' = Some x.
Proof.
  intros Hi Hk. destruct (decide (k < i)%nat).
  - left. by rewrite insertAt_lookup_lt in Hk.
  - destruct (decide (k = i)) as [->|].
    + right; left. rewrite insertAt_lookup_eq in Hk by done. by simplify_eq.
    + right; right. destruct k as [|k']; [lia|]. exists k'.
      rewrite insertAt_lookup_gt in Hk by lia. split; [done|]. split; [lia|done].
Qed.

Lemma insertAt_take_mono i l ls k x :
  (i ≤ length ls)%nat → x ∈ take k ls →
  x ∈ take (if decide (k ≤ i)%nat then k else S k) (insertAt i l ls).
Proof.
  intros Hi [j Hj]%list_elem_of_lookup.
  apply lookup_take_Some in Hj as [Hj Hjk].
  apply list_elem_of_lookup. destruct (decide (j < i)%nat).
  - exists j. apply lookup_take_Some. split; [by rewrite insertAt_lookup_lt|].
    case_decide; lia.
  - exists (S j). apply lookup_take_Some.
    split; [by rewrite insertAt_lookup_gt by lia|]. case_decide; lia.
Qed.

Lemma insertAt_last i l ls :
  (i ≤ length ls)%nat →
  last (insertAt i l ls) = if decide (i = length ls) then Some l else last ls.
Proof.
  intros Hi. rewrite !last_lookup, insertAt_length. simpl.
  case_decide as Hd.
  - subst i. by rewrite insertAt_lookup_eq.
  - destruct (length ls) as [|m] eqn:Hlen; [lia|]. simpl.
    by rewrite insertAt_lookup_gt by lia.
Qed.

(** *** Overwriting the entry of a node *)

Lemma linked_set_value c ls l0 n0 v :
  linked c ls → nodes c !! l0 = Some n0 → byID c !! ID v = Some l0 →
  linked (setNodes (<[l0 := setValue v n0]> (nodes c)) c) ls.
Proof.
  intros Hl Hn0 Hid. split; simpl; try apply Hl.
  - intros i l Hi.
    destruct (linked_node _ _ Hl i l Hi) as (n & Hn & Hnx & Hpv & Hb).
    destruct (decide (l = l0)) as [->|Hne].
    + exists (setValue v n0). rewrite lookup_insert_eq. by simplify_eq.
    + exists n. by rewrite lookup_insert_ne.
  - intros k l Hk. rewrite lookup_insert_is_Some'. right.
    by eapply linked_byID.
Qed.

Lemma filed_set_value c ls extra l0 n0 v :
  filed c ls extra → nodes c !! l0 = Some n0 → byID c !! ID v = Some l0 →
  filed (setNodes (<[l0 := setValue v n0]> (nodes c)) c) ls extra.
Proof.
  intros Hf Hn0 Hid k l Hk. simpl in *.
  destruct (Hf k l Hk) as (Hin & n & Hn & Hidn). split; [done|].
  destruct (decide (l = l0)) as [->|Hne].
  - exists (setValue v n0). rewrite lookup_insert_eq. split; [done|]. simpl.
    destruct (Hf _ _ Hid) as (_ & n' & Hn' & Hidn'). congruence.
  - exists n. by rewrite lookup_insert_ne.
Qed.

Lemma tight_set_value c ls l0 n0 v :
  tight c ls → nodes c !! l0 = Some n0 → byID c !! ID v = Some l0 →
  tight (setNodes (<[l0 := setValue v n0]> (nodes c)) c) ls.
Proof.
  intros Ht Hn0 Hid. split; [|apply filed_set_value; [apply Ht|done..]].
  intros i l n Hi Hn. simpl in Hn. destruct (decide (l = l0)) as [->|Hne].
  - rewrite lookup_insert_eq in Hn. simplify_eq. simpl.
    by eapply tight_prev.
  - rewrite lookup_insert_ne in Hn by done. by eapply tight_prev.
Qed.

(** *** A freshly allocated node *)

Lemma linked_alloc c ls v :
  linked c ls → byID c !! ID v = None →
  let l := fresh (dom (nodes c)) in
  let c' := mkContainer (<[l := mkNode v None None]> (nodes c))
              (<[ID v := l]> (byID c)) (head c) (tail c) in
  linked c' ls ∧ (l ∉ ls) ∧ nodes c !! l = None.
Proof.
  intros Hl Hid l c'.
  assert (Hfresh : nodes c !! l = None).
  { apply not_elem_of_dom. apply is_fresh. }
  assert (Hnotin : l ∉ ls).
  { intros Hin. destruct (linked_in c ls l Hl Hin) as [? ?]. congruence. }
  split; [|done]. split; simpl; try apply Hl.
  - intros i l' Hi.
    destruct (linked_node _ _ Hl i l' Hi) as (n & Hn & Hnx & Hpv & Hb).
    exists n. rewrite lookup_insert_ne by congruence.
    rewrite lookup_insert_ne by congruence. done.
  - intros k l' Hk. rewrite lookup_insert_is_Some'.
    apply lookup_insert_Some in Hk as [[_ ->]|[_ Hk]]; [by left|].
    right. by eapply linked_byID.
Qed.

(** *** The three placements *)

Lemma backOK_cons ls l i p :
  (0 < i)%nat → backOK ls i p → backOK (l :: ls) (S i) p.
Proof.
  destruct i as [|i]; [lia|]. intros _ (l' & -> & Hin). exists l'.
  split; [done|]. simpl. by right.
Qed.

Lemma linked_insert_head c ls l v h hn :
  linked c ls → l ∉ ls →
  nodes c !! l = Some (mkNode v None None) → byID c !! ID v = Some l →
  ls !! 0%nat = Some h → nodes c !! h = Some hn →
  linked (setHead (Some l)
            (setNodes (<[h := setPrev (Some l) hn]>
                         (<[l := mkNode v (Some h) None]> (nodes c))) c))
         (l :: ls).
Proof.
  intros Hl Hnotin Hnl Hid Hh Hhn.
  assert (Hne : h ≠ l).
  { intros ->. apply Hnotin. by eapply list_elem_of_lookup_2. }
  split; simpl.
  - constructor; [done|apply Hl].
  - done.
  - rewrite last_cons.
    destruct (last ls) eqn:Hlast; [by rewrite (linked_tail _ _ Hl)|].
    apply last_None in Hlast. by subst.
  - intros [|i] l' Hi; simpl in Hi.
    + simplify_eq. eexists. rewrite lookup_insert_ne, lookup_insert_eq by done.
      split; [done|]. simpl. by rewrite Hh.
    + destruct (linked_node _ _ Hl i l' Hi) as (n & Hn & Hnx & Hpv & Hb).
      destruct (decide (l' = h)) as [->|Hneh].
      * assert (i = 0%nat) as -> by exact (NoDup_lookup ls i 0 h (linked_nodup _ _ Hl) Hi Hh).
        exists (setPrev (Some l) hn). rewrite lookup_insert_eq.
        simplify_eq. simpl. split; [done|]. split; [done|].
        split; [|done]. exists l. split; [done|]. by left.
      * assert (l' ≠ l).
        { intros ->. apply Hnotin. by eapply list_elem_of_lookup_2. }
        exists n. rewrite lookup_insert_ne, lookup_insert_ne by congruence.
        split; [done|]. split; [done|]. split; [|done].
        apply backOK_cons; [|done]. destruct i; [|lia]. congruence.
  - intros k l' Hk. rewrite !lookup_insert_is_Some'. right; right.
    by eapply linked_byID.
Qed.

Lemma backOK_insertAt ls l i k p :
  (0 < i ≤ length ls)%nat → backOK ls k p →
  backOK (insertAt i l ls) (if decide (k < i)%nat then k else S k) p.
Proof.
  intros Hi Hb. destruct k as [|k].
  { rewrite decide_True by lia. done. }
  destruct Hb as (l' & -> & Hin).
  apply (insertAt_take_mono i l) in Hin; [|lia].
  destruct (decide (S k < i)%nat).
  - exists l'. split; [done|]. by rewrite decide_True in Hin by lia.
  - exists l'. split; [done|]. destruct (decide (S k ≤ i)%nat); [|done].
    apply elem_of_take in Hin as (j & Hj & ?). apply elem_of_take. exists j.
    split; [done|lia].
Qed.

(** Putting [l] after the node [p] at position [i], as the scan does in the
    middle of the sequence and [appendTail] at its end. *)
Lemma linked_insert_after c ls l v i p pn :
  linked c ls → l ∉ ls →
  nodes c !! l = Some (mkNode v None None) → byID c !! ID v = Some l →
  ls !! i = Some p → nodes c !! p = Some pn →
  linked (mkContainer
            (<[p := setNext (Some l) pn]>
               (<[l := mkNode v (next pn) (Some p)]> (nodes c)))
            (byID c) (head c)
            (if decide (S i = length ls) then Some l else tail c))
         (insertAt (S i) l ls).
Proof.
  intros Hl Hnotin Hnl Hid Hp Hpn.
  assert (Hne : p ≠ l).
  { intros ->. apply Hnotin. by eapply list_elem_of_lookup_2. }
  assert (Hlen : (S i ≤ length ls)%nat) by (apply lookup_lt_Some in Hp; lia).
  destruct (linked_node _ _ Hl i p Hp) as (pn' & Hpn' & Hpnx & Hppv & Hpb).
  assert (pn' = pn) as -> by congruence.
  split; simpl.
  - rewrite insertAt_perm. constructor; [done|apply Hl].
  - rewrite insertAt_lookup_lt by lia. apply Hl.
  - rewrite insertAt_last by done. case_decide; [done|apply Hl].
  - intros k l' Hk.
    apply insertAt_cases in Hk as [[Hlt Hk]|[[-> ->]|(k' & -> & Hle & Hk)]];
      [| | |done].
    + destruct (linked_node _ _ Hl k l' Hk) as (n & Hn & Hnx & Hpv & Hb).
      pose proof (backOK_insertAt ls l (S i) k _ ltac:(lia) Hpv) as Hpv'.
      rewrite decide_True in Hpv' by done.
      destruct (decide (l' = p)) as [->|Hnep].
      * assert (k = i) as -> by exact (NoDup_lookup ls k i p (linked_nodup _ _ Hl) Hk Hp).
        exists (setNext (Some l) pn). rewrite lookup_insert_eq.
        simplify_eq. simpl. rewrite insertAt_lookup_eq by done. done.
      * exists n. rewrite lookup_insert_ne by done.
        rewrite lookup_insert_ne
          by (intros ->; apply Hnotin; by eapply list_elem_of_lookup_2).
        split; [done|]. split; [|done]. rewrite Hnx.
        destruct (decide (S k < S i)%nat).
        -- by rewrite insertAt_lookup_lt by lia.
        -- assert (k = i) as -> by lia. congruence.
    + eexists. rewrite lookup_insert_ne, lookup_insert_eq by done.
      split; [done|]. simpl. rewrite insertAt_lookup_gt by lia.
      split; [done|]. split; [|done]. exists p. split; [done|].
      apply elem_of_take. exists i. split; [|lia].
      by rewrite insertAt_lookup_lt by lia.
    + destruct (linked_node _ _ Hl k' l' Hk) as (n & Hn & Hnx & Hpv & Hb).
      pose proof (backOK_insertAt ls l (S i) k' _ ltac:(lia) Hpv) as Hpv'.
      rewrite decide_False in Hpv' by lia.
      assert (l' ≠ p).
      { intros ->. assert (k' = i) by exact (NoDup_lookup ls k' i p (linked_nodup _ _ Hl) Hk Hp). lia. }
      exists n. rewrite lookup_insert_ne by done.
      rewrite lookup_insert_ne
        by (intros ->; apply Hnotin; by eapply list_elem_of_lookup_2).
      split; [done|]. split; [|done]. rewrite Hnx.
      by rewrite insertAt_lookup_gt by lia.
  - intros k l' Hk. rewrite !lookup_insert_is_Some'. right; right.
    by eapply linked_byID.
Qed.

Lemma tight_insert_head c ls l v h hn :
  linked c ls → exactPrev c ls → l ∉ ls →
  ls !! 0%nat = Some h → nodes c !! h = Some hn →
  nodes c !! l = Some (mkNode v None None) →
  filed c ls (Some l) →
  tight (setHead (Some l)
           (setNodes (<[h := setPrev (Some l) hn]>
                        (<[l := mkNode v (Some h) None]> (nodes c))) c))
        (l :: ls).
Proof.
  intros Hl Ht Hnotin Hh Hhn Hnl Hby.
  assert (Hhl : h ≠ l).
  { intros ->. apply Hnotin. by eapply list_elem_of_lookup_2. }
  split; simpl.
  2:{ intros k l' Hk. simpl in Hk. destruct (Hby k l' Hk) as (Hin & n & Hn & Hidn).
      split; [left; destruct Hin as [?|?]; [by right|simplify_eq; by left]|].
      simpl. destruct (decide (l' = h)) as [->|].
      - exists (setPrev (Some l) hn). rewrite lookup_insert_eq.
        split; [done|]. simpl. congruence.
      - rewrite lookup_insert_ne by done. destruct (decide (l' = l)) as [->|].
        + rewrite lookup_insert_eq. eexists; split; [done|]. simpl.
          rewrite Hnl in Hn. by simplify_eq.
        + rewrite lookup_insert_ne by done. eauto. }
  - intros [|i] l' n Hi Hn; simpl in Hi, Hn.
    + simplify_eq. rewrite lookup_insert_ne in Hn
        by (intros ->; apply Hnotin; by eapply list_elem_of_lookup_2).
      rewrite lookup_insert_eq in Hn. by simplify_eq.
    + assert (l' ≠ l).
      { intros ->. apply Hnotin. by eapply list_elem_of_lookup_2. }
      destruct (decide (l' = h)) as [->|Hneh].
      * assert (i = 0%nat) as -> by exact (NoDup_lookup ls i 0 h (linked_nodup _ _ Hl) Hi Hh).
        rewrite lookup_insert_eq in Hn. by simplify_eq.
      * rewrite !lookup_insert_ne in Hn by done.
        rewrite (Ht i l' n Hi Hn).
        destruct i; [congruence|done].
Qed.

Lemma tight_append c ls l v i p pn :
  linked c ls → exactPrev c ls → l ∉ ls →
  ls !! i = Some p → nodes c !! p = Some pn → S i = length ls →
  nodes c !! l = Some (mkNode v None None) →
  filed c ls (Some l) →
  tight (mkContainer
           (<[p := setNext (Some l) pn]>
              (<[l := mkNode v (next pn) (Some p)]> (nodes c)))
           (byID c) (head c) (Some l))
        (insertAt (S i) l ls).
Proof.
  intros Hl Ht Hnotin Hp Hpn Hlen Hnl Hby.
  assert (Hpl : p ≠ l).
  { intros ->. apply Hnotin. by eapply list_elem_of_lookup_2. }
  split; simpl.
  2:{ intros k l' Hk. simpl in Hk. destruct (Hby k l' Hk) as (Hin & n & Hn & Hidn).
      split; [left; rewrite insertAt_perm;
              destruct Hin as [?|?]; [by right|simplify_eq; by left]|].
      simpl. destruct (decide (l' = p)) as [->|].
      - exists (setNext (Some l) pn). rewrite lookup_insert_eq.
        split; [done|]. simpl. congruence.
      - rewrite lookup_insert_ne by done. destruct (decide (l' = l)) as [->|].
        + rewrite lookup_insert_eq. eexists; split; [done|]. simpl.
          rewrite Hnl in Hn. by simplify_eq.
        + rewrite lookup_insert_ne by done. eauto. }
  - intros k l' n Hk Hn. simpl in Hn.
    apply insertAt_cases in Hk as [[Hlt Hk]|[[-> ->]|(k' & -> & Hle & Hk)]];
      [| | |lia].
    + assert (l' ≠ l).
      { intros ->. apply Hnotin. by eapply list_elem_of_lookup_2. }
      assert (predAt (insertAt (S i) l ls) k = predAt ls k) as ->.
      { destruct k; [done|]. simpl. by rewrite insertAt_lookup_lt by lia. }
      destruct (decide (l' = p)) as [->|Hnep].
      * rewrite lookup_insert_eq in Hn. simplify_eq. simpl.
        exact (Ht k p pn Hk Hpn).
      * rewrite !lookup_insert_ne in Hn by done.
        exact (Ht k l' n Hk Hn).
    + rewrite lookup_insert_ne in Hn
        by (intros ->; apply Hnotin; by eapply list_elem_of_lookup_2).
      rewrite lookup_insert_eq in Hn. simplify_eq. simpl.
      by rewrite insertAt_lookup_lt by lia.
    + apply lookup_lt_Some in Hk. lia.
Qed.

(** *** The entries of a sequence *)

Lemma entries_ext c c' ls :
  (∀ l, l ∈ ls → value <$> nodes c' !! l = value <$> nodes c !! l) →
  entries c' ls = entries c ls.
Proof.
  induction ls as [|l ls IH]; intros Hext; [done|].
  simpl. pose proof (Hext l ltac:(left)) as Hl.
  rewrite IH by (intros; apply Hext; by right).
  destruct (nodes c' !! l), (nodes c !! l); simpl in Hl; try done.
  injection Hl as Hv. by rewrite Hv.
Qed.

Lemma entries_app c ls1 ls2 : entries c (ls1 ++ ls2) = entries c ls1 ++ entries c ls2.
Proof.
  induction ls1 as [|l ls1 IH]; [done|]. simpl. rewrite IH.
  by destruct (nodes c !! l).
Qed.

Lemma entries_take c ls i :
  linked c ls → entries c (take i ls) = take i (entries c ls).
Proof.
  intros Hl.
  assert (Hall : ∀ l', l' ∈ ls → is_Some (nodes c !! l')) by eauto using linked_in.
  clear Hl. revert i.
  induction ls as [|l0 ls IH]; intros i; [by destruct i|].
  destruct (Hall l0) as [n0 Hn0]; [left|].
  destruct i as [|i]; [done|]. simpl. rewrite Hn0. simpl. f_equal.
  apply IH. intros. apply Hall. by right.
Qed.

Lemma entries_drop c ls i :
  linked c ls → entries c (drop i ls) = drop i (entries c ls).
Proof.
  intros Hl.
  assert (Hall : ∀ l', l' ∈ ls → is_Some (nodes c !! l')) by eauto using linked_in.
  clear Hl. revert i.
  induction ls as [|l0 ls IH]; intros i; [by destruct i|].
  destruct (Hall l0) as [n0 Hn0]; [left|].
  destruct i as [|i]; [done|]. simpl. rewrite Hn0. simpl.
  apply IH. intros. apply Hall. by right.
Qed.

Lemma entries_insert_head c ls l v h hn :
  l ∉ ls → h ∈ ls → nodes c !! h = Some hn →
  entries (setHead (Some l)
             (setNodes (<[h := setPrev (Some l) hn]>
                          (<[l := mkNode v (Some h) None]> (nodes c))) c))
          (l :: ls)
  = v :: entries c ls.
Proof.
  intros Hnotin Hh Hhn.
  assert (Hne : h ≠ l) by (intros ->; done).
  simpl.
  rewrite lookup_insert_ne, lookup_insert_eq by done. simpl. f_equal.
  apply entries_ext. intros l' Hin. simpl.
  assert (l' ≠ l) by (intros ->; done).
  destruct (decide (l' = h)) as [->|].
  - rewrite lookup_insert_eq. by rewrite Hhn.
  - by rewrite !lookup_insert_ne.
Qed.

Lemma entries_insert_after c ls l v i p pn tl :
  linked c ls → l ∉ ls → ls !! i = Some p → nodes c !! p = Some pn →
  entries (linkedAfter c l v p pn tl) (insertAt (S i) l ls)
  = take (S i) (entries c ls) ++ v :: drop (S i) (entries c ls).
Proof.
  intros Hl Hnotin Hp Hpn.
  assert (Hne : p ≠ l).
  { intros ->. apply Hnotin. by eapply list_elem_of_lookup_2. }
  assert (Hext : ∀ ls', ls' ⊆ ls →
            entries (linkedAfter c l v p pn tl) ls' = entries c ls').
  { intros ls' Hsub. apply entries_ext. intros l' Hin%Hsub. simpl.
    assert (l' ≠ l) by (intros ->; done).
    destruct (decide (l' = p)) as [->|].
    - rewrite lookup_insert_eq. by rewrite Hpn.
    - by rewrite !lookup_insert_ne. }
  unfold insertAt. rewrite entries_app.
  rewrite Hext by (intros x Hx%elem_of_take; destruct Hx as (j & Hj & _);
                   by eapply list_elem_of_lookup_2).
  rewrite entries_take by done. f_equal.
  change (entries ?c' (l :: ?r)) with
    (match nodes c' !! l with Some n => value n :: entries c' r
     | None => entries c' r end).
  simpl nodes. rewrite lookup_insert_ne, lookup_insert_eq by done. simpl value.
  f_equal. rewrite Hext; [by rewrite entries_drop|].
  intros x [j Hj]%list_elem_of_lookup. rewrite lookup_drop in Hj.
  by eapply list_elem_of_lookup_2.
Qed.

(** *** The scan *)

Lemma scanPos_le t es : (scanPos t es ≤ length es)%nat.
Proof. induction es as [|e es IH]; simpl; [lia|]. destruct (Before _ _); simpl; lia. Qed.

Lemma insertScan_skip c l nl cl cn pv fuel :
  nodes c !! l = Some nl → nodes c !! cl = Some cn →
  Before (CreatedAt (value nl)) (CreatedAt (value cn)) = true →
  insertScan (S fuel) c l pv (Some cl) = insertScan fuel c l (Some cl) (next cn).
Proof.
  intros Hnl Hcn Hb. cbn [insertScan]. unfold load. rewrite Hnl, Hcn. simpl.
  by rewrite Hb.
Qed.

Lemma insertScan_head c l v cl cn h hn fuel :
  nodes c !! l = Some (mkNode v None None) → nodes c !! cl = Some cn →
  Before (CreatedAt v) (CreatedAt (value cn)) = false →
  head c = Some h → nodes c !! h = Some hn → h ≠ l →
  insertScan (S fuel) c l None (Some cl) = Ok (headInserted c l v h hn, true).
Proof.
  intros Hnl Hcn Hb Hh Hhn Hne. cbn [insertScan]. unfold load.
  rewrite Hnl, Hcn. simpl. rewrite Hb. simpl.
  unfold store. rewrite Hnl. simpl. rewrite Hh.
  rewrite lookup_insert_ne, Hhn by done. done.
Qed.

Lemma insertScan_mid c l v cl cn p pn fuel :
  nodes c !! l = Some (mkNode v None None) → nodes c !! cl = Some cn →
  Before (CreatedAt v) (CreatedAt (value cn)) = false →
  nodes c !! p = Some pn → p ≠ l →
  insertScan (S fuel) c l (Some p) (Some cl)
  = Ok (linkedAfter c l v p pn (tail c), true).
Proof.
  intros Hnl Hcn Hb Hpn Hne. cbn [insertScan]. unfold load.
  rewrite Hnl, Hcn. simpl. rewrite Hb. simpl.
  unfold store. rewrite Hnl. simpl.
  assert (Hne' : l ≠ p) by done.
  rewrite (lookup_insert_ne _ l p) by done. rewrite Hpn. simpl.
  rewrite lookup_insert_eq. simpl.
  rewrite !(lookup_insert_ne _ l p) by done. rewrite Hpn. simpl.
  by rewrite insert_insert_eq.
Qed.

(** From position [j] the scan of [addItem] goes on to position
    [j + scanPos] and there either runs off the end, or puts the node in
    front of the head, or links it behind its predecessor. *)
Lemma insertScan_linked c ls l v fuel j :
  linked c ls → l ∉ ls → nodes c !! l = Some (mkNode v None None) →
  (j ≤ length ls)%nat → (length ls < fuel + j)%nat →
  let i := (j + scanPos (CreatedAt v) (drop j (entries c ls)))%nat in
  (i = length ls
   ∧ insertScan fuel c l (predAt ls j) (ls !! j) = Ok (c, false))
  ∨ (i = 0%nat ∧ ∃ h hn, ls !! 0%nat = Some h ∧ nodes c !! h = Some hn
     ∧ insertScan fuel c l (predAt ls j) (ls !! j)
       = Ok (headInserted c l v h hn, true))
  ∨ (∃ i' p pn, i = S i' ∧ (i < length ls)%nat
     ∧ ls !! i' = Some p ∧ nodes c !! p = Some pn
     ∧ insertScan fuel c l (predAt ls j) (ls !! j)
       = Ok (linkedAfter c l v p pn (tail c), true)).
Proof.
  intros Hl Hnotin Hnl. revert j.
  induction fuel as [|fuel IH]; intros j Hj Hfuel; [lia|].
  destruct (ls !! j) as [cl|] eqn:Hcl.
  2:{ apply lookup_ge_None in Hcl. left.
      rewrite drop_ge by (rewrite entries_length by done; lia). simpl.
      split; [lia|done]. }
  destruct (linked_node _ _ Hl j cl Hcl) as (cn & Hcn & Hnx & Hpv & Hb).
  pose proof (entries_lookup c ls j cl cn Hl Hcl Hcn) as He.
  rewrite (drop_S _ _ _ He). cbn [scanPos].
  assert (Hne : cl ≠ l).
  { intros ->. apply Hnotin. by eapply list_elem_of_lookup_2. }
  destruct (Before (CreatedAt v) (CreatedAt (value cn))) eqn:Hbef.
  - rewrite (insertScan_skip c l _ cl cn _ fuel Hnl Hcn Hbef).
    rewrite Hnx. specialize (IH (S j)). cbn [predAt] in IH. rewrite Hcl in IH.
    apply lookup_lt_Some in Hcl.
    replace (j + S (scanPos (CreatedAt v) (drop (S j) (entries c ls))))%nat
      with (S j + scanPos (CreatedAt v) (drop (S j) (entries c ls)))%nat by lia.
    apply IH; lia.
  - rewrite Nat.add_0_r. destruct j as [|j']; cbn [predAt].
    + right; left. split; [done|]. exists cl, cn. split; [done|]. split; [done|].
      apply (insertScan_head c l v cl cn cl cn fuel); auto.
      by rewrite (linked_head _ _ Hl).
    + right; right.
      assert (Hj' : (j' < length ls)%nat) by lia.
      apply lookup_lt_is_Some in Hj' as [p Hp]. rewrite Hp.
      destruct (linked_node _ _ Hl j' p Hp) as (pn & Hpn & Hpnx & _).
      assert (Hnep : p ≠ l).
      { intros ->. apply Hnotin. by eapply list_elem_of_lookup_2. }
      exists j', p, pn. split; [done|].
      split; [by apply lookup_lt_Some in Hcl|]. split; [done|]. split; [done|].
      by apply (insertScan_mid c l v cl cn p pn fuel).
Qed.

(** *** Dropping the tail *)

Lemma dropTail_nil c : linked c [] → dropTail c = Panic.
Proof. intros Hl. unfold dropTail. by rewrite (linked_tail _ _ Hl). Qed.

Lemma backOK_take ls i k p :
  (i < k)%nat → backOK ls i p → backOK (take k ls) i p.
Proof.
  destruct i as [|i]; [done|]. intros Hik (l' & -> & Hin). exists l'.
  split; [done|]. rewrite take_take. by replace (S i `min` k)%nat with (S i) by lia.
Qed.

(** One round of the eviction loop on a sequence that is not empty: the
    sequence is cut behind the node the old tail's [prev] points to. *)
Lemma dropTail_linked c ls :
  linked c ls → ls ≠ [] →
  ∃ c' k d dn,
    dropTail c = Ok c' ∧ last ls = Some d ∧ nodes c !! d = Some dn
    ∧ (k < length ls)%nat
    ∧ match k with O => prev dn = None | S j => prev dn = ls !! j end
    ∧ linked c' (take k ls)
    ∧ byID c' = delete (ID (value dn)) (byID c)
    ∧ byID c !! ID (value dn) = Some d
    ∧ ∀ l, (λ n, (value n, prev n)) <$> nodes c' !! l
           = (λ n, (value n, prev n)) <$> nodes c !! l.
Proof.
  intros Hl Hne.
  destruct (last ls) as [d|] eqn:Hlast; [|by apply last_None in Hlast].
  pose proof Hlast as Hd. rewrite last_lookup in Hd.
  set (m := pred (length ls)) in *.
  assert (Hlen : length ls = S m).
  { apply lookup_lt_Some in Hd. lia. }
  destruct (linked_node _ _ Hl m d Hd) as (dn & Hdn & Hdnx & Hdpv & Hdb).
  unfold dropTail. rewrite (linked_tail _ _ Hl), Hlast.
  unfold load. rewrite Hdn. simpl.
  destruct m as [|m'].
  - (* the tail is the head *)
    simpl in Hdpv. rewrite Hdpv. simpl.
    eexists _, 0%nat, d, dn. split; [done|]. split; [done|]. split; [done|].
    split; [lia|]. split; [done|]. split; [|done].
    split; simpl; try done; [constructor|].
    intros k l [_ Hk]%lookup_delete_Some. by eapply linked_byID.
  - destruct Hdpv as (l' & Hpv & Hin). rewrite Hpv. simpl.
    apply elem_of_take in Hin as (j & Hj & Hjm).
    destruct (linked_node _ _ Hl j l' Hj) as (n' & Hn' & Hnx' & Hpv' & Hb').
    unfold store. simpl. rewrite Hn'. simpl.
    assert (Hld : l' ≠ d).
    { intros ->. pose proof (NoDup_lookup ls j (S m') d (linked_nodup _ _ Hl) Hj Hd). lia. }
    eexists _, (S j), d, dn. split; [done|]. split; [done|]. split; [done|].
    split; [lia|]. split; [by rewrite Hj|]. split.
    2:{ split; [done|]. split; [done|]. intros l. simpl.
        destruct (decide (l = l')) as [->|].
        - rewrite lookup_insert_eq, Hn'. done.
        - by rewrite lookup_insert_ne. }
    split; simpl.
    + rewrite <-(take_drop (S j) ls) in Hl. 
      pose proof (linked_nodup _ _ Hl) as Hnd.
      by apply NoDup_app in Hnd as (? & _ & _).
    + rewrite lookup_take_lt by lia. apply Hl.
    + rewrite last_lookup, length_take.
      replace (pred (S j `min` length ls)) with j by lia.
      by rewrite lookup_take_lt by lia.
    + intros i l Hi. apply lookup_take_Some in Hi as [Hi Hij].
      destruct (linked_node _ _ Hl i l Hi) as (n & Hn & Hnx & Hpv0 & Hb).
      assert (Hlne : l ≠ d).
      { intros ->. pose proof (NoDup_lookup ls i (S m') d (linked_nodup _ _ Hl) Hi Hd). lia. }
      assert (Hidne : ID (value dn) ≠ ID (value n)).
      { intros Heq. rewrite Heq in Hdb. congruence. }
      destruct (decide (l = l')) as [->|Hll].
      * assert (i = j) as -> by exact (NoDup_lookup ls i j l' (linked_nodup _ _ Hl) Hi Hj).
        exists (setNext None n'). rewrite lookup_insert_eq. simplify_eq. simpl.
        split; [done|]. split; [by rewrite lookup_take_ge by lia|].
        split; [by apply backOK_take; [lia|]|].
        by rewrite lookup_delete_ne.
      * exists n. rewrite lookup_insert_ne by done. split; [done|].
        assert (i ≠ j) by (intros ->; congruence).
        split; [by rewrite lookup_take_lt by lia|].
        split; [by apply backOK_take; [lia|]|].
        by rewrite lookup_delete_ne.
    + intros k l [_ Hk]%lookup_delete_Some. rewrite lookup_insert_is_Some'.
      right. by eapply linked_byID.
Qed.

Lemma dropTail_entries c c' ls k :
  linked c ls →
  (∀ l, (λ n, (value n, prev n)) <$> nodes c' !! l
        = (λ n, (value n, prev n)) <$> nodes c !! l) →
  entries c' (take k ls) = take k (entries c ls).
Proof.
  intros Hl Hsame. rewrite <-entries_take by done.
  apply entries_ext. intros l _. specialize (Hsame l).
  destruct (nodes c' !! l) as [n1|], (nodes c !! l) as [n2|];
    simpl in *; try done.
  injection Hsame as Hv _. by rewrite Hv.
Qed.

(** With exact back pointers only the tail goes. *)
Lemma dropTail_tight c ls :
  linked c ls → tight c ls → ls ≠ [] →
  ∃ c', dropTail c = Ok c'
    ∧ linked c' (take (pred (length ls)) ls)
    ∧ tight c' (take (pred (length ls)) ls)
    ∧ entries c' (take (pred (length ls)) ls)
      = take (pred (length ls)) (entries c ls)
    ∧ size (byID c') = pred (size (byID c)).
Proof.
  intros Hl Ht Hne.
  destruct (dropTail_linked c ls Hl Hne)
    as (c' & k & d & dn & Hdrop & Hlast & Hdn & Hk & Hpv & Hl' & Hby & Hdb & Hsame).
  pose proof Hlast as Hd. rewrite last_lookup in Hd.
  pose proof (tight_prev _ _ Ht _ _ _ Hd Hdn) as Hpv'.
  assert (k = pred (length ls)) as Hkeq.
  { destruct k as [|j]; rewrite Hpv in Hpv'.
    - destruct (pred (length ls)) as [|m] eqn:Hm; [done|]. simpl in Hpv'.
      symmetry in Hpv'. apply lookup_ge_None in Hpv'. lia.
    - destruct (pred (length ls)) as [|m] eqn:Hm; simpl in Hpv'.
      + apply lookup_ge_None in Hpv'. lia.
      + assert (Hj : (j < length ls)%nat) by lia.
        apply lookup_lt_is_Some in Hj as [x Hx]. rewrite Hx in Hpv'.
        symmetry in Hpv'.
        pose proof (NoDup_lookup ls j m x (linked_nodup _ _ Hl) Hx Hpv'). lia. }
  subst k. exists c'. split; [done|]. split; [done|]. split.
  2:{ split; [by eapply dropTail_entries|].
      rewrite Hby. apply map_size_delete_Some. eauto. }
  split.
  - intros i l n' Hi Hn'. apply lookup_take_Some in Hi as [Hi Hik].
    specialize (Hsame l). rewrite Hn' in Hsame.
    destruct (nodes c !! l) as [n|] eqn:Hn; simpl in Hsame; [|done].
    injection Hsame as _ Hp. rewrite Hp, (tight_prev _ _ Ht i l n Hi Hn).
    destruct i as [|i]; [done|]. simpl. by rewrite lookup_take_lt by lia.
  - intros k l Hkl. rewrite Hby in Hkl. apply lookup_delete_Some in Hkl as [Hkne Hkl].
    destruct (tight_byID _ _ Ht k l Hkl) as ([Hin|?] & n & Hn & Hidn); [|done].
    assert (Hld : l ≠ d).
    { intros ->. rewrite Hdn in Hn. by simplify_eq. }
    split.
    + left. apply list_elem_of_lookup in Hin as [i Hi].
      apply list_elem_of_lookup. exists i. apply lookup_take_Some. split; [done|].
      pose proof (lookup_lt_Some _ _ _ Hi).
      assert (i ≠ pred (length ls)) by (intros ->; congruence). lia.
    + specialize (Hsame l). rewrite Hn in Hsame.
      destruct (nodes c' !! l) as [n'|]; simpl in Hsame; [|done].
      injection Hsame as Hv _. exists n'. split; [done|]. congruence.
Qed.

(** *** The eviction loop *)

Lemma filed_nonempty c ls :
  filed c ls None → (0 < size (byID c))%nat → ls ≠ [].
Proof.
  intros Hf Hsz ->.
  destruct (map_choose_or_empty (byID c)) as [(k & l & Hk)|Hemp].
  - destruct (Hf k l Hk) as ([Hin|?] & _); [|done]. by apply elem_of_nil in Hin.
  - rewrite Hemp, map_size_empty in Hsz. lia.
Qed.

(** On a container that satisfies the invariant the loop drops the oldest
    entries, one at a time, until the bound holds. *)
Lemma evict_tight fuel maxE c ls :
  linked c ls → tight c ls → 0 ≤ maxE → (length ls < fuel)%nat →
  ∃ c' k, evict fuel maxE c = Ok c' ∧ (k ≤ length ls)%nat
    ∧ linked c' (take k ls) ∧ tight c' (take k ls)
    ∧ entries c' (take k ls) = take k (entries c ls)
    ∧ Z.of_nat (size (byID c')) ≤ maxE.
Proof.
  intros Hl Ht HmaxE. revert c ls Hl Ht.
  induction fuel as [|fuel IH]; intros c ls Hl Ht Hfuel; [lia|].
  cbn [evict]. destruct (decide (Z.of_nat (size (byID c)) > maxE)) as [Hgt|Hle].
  - assert (Hne : ls ≠ []).
    { eapply filed_nonempty; [apply Ht|lia]. }
    destruct (dropTail_tight c ls Hl Ht Hne) as (c1 & Hdrop & Hl1 & Ht1 & He1 & Hs1).
    rewrite Hdrop. simpl.
    assert (Hlen : length ls ≠ 0%nat) by (by destruct ls).
    destruct (IH c1 _ Hl1 Ht1) as (c' & k & Hev & Hk & Hl' & Ht' & He' & Hs').
    { rewrite length_take. lia. }
    rewrite length_take in Hk.
    rewrite take_take in Hl', Ht', He'. rewrite He1, take_take in He'.
    replace (k `min` pred (length ls))%nat with k in * by lia.
    exists c', k. split_and!; try done; lia.
  - exists c, (length ls). rewrite !take_ge by (rewrite ?entries_length; done || lia).
    split_and!; try done; lia.
Qed.

(** *** The search for a free identity *)

Lemma nextFreeID_fresh fuel (m : gmap string loc) p (z : Z) id :
  nextFreeID fuel m p z = Ok id → m !! id = None.
Proof.
  revert z. induction fuel as [|fuel IH]; intros z; [done|]. simpl.
  destruct (m !! (p +:+ pretty z)) eqn:Hm; [apply IH|].
  intros [= <-]. done.
Qed.

Lemma nextFreeID_total_aux fuel (m : gmap string loc) p (z : Z) (seen : gset string) :
  seen ⊆ dom m →
  (∀ j, z ≤ j → p +:+ pretty j ∉ seen) →
  (size m < fuel + size seen)%nat →
  ∃ id, nextFreeID fuel m p z = Ok id.
Proof.
  revert z seen. induction fuel as [|fuel IH]; intros z seen Hsub Hnew Hsz.
  { apply subseteq_size in Hsub. rewrite size_dom in Hsub. lia. }
  simpl. destruct (m !! (p +:+ pretty z)) as [l|] eqn:Hm; [|eauto].
  apply (IH (z + 1) ({[p +:+ pretty z]} ∪ seen)).
  - apply union_subseteq. split; [|done].
    apply singleton_subseteq_l, elem_of_dom. eauto.
  - intros j Hj [Heq%elem_of_singleton|Hin]%elem_of_union.
    + apply (inj (String.app p)) in Heq. apply (inj pretty) in Heq. lia.
    + apply (Hnew j); [lia|done].
  - rewrite size_union, size_singleton; [lia|].
    apply disjoint_singleton_l. apply Hnew. lia.
Qed.

(** The search ends: the identities tried are pairwise distinct, and [byID]
    holds fewer of them than [fuel]. *)
Lemma nextFreeID_total (m : gmap string loc) p :
  ∃ id, nextFreeID (S (size m)) m p 0 = Ok id.
Proof.
  apply (nextFreeID_total_aux _ m p 0 ∅).
  - apply empty_subseteq.
  - intros j _. apply not_elem_of_empty.
  - rewrite size_empty. lia.
Qed.

(** *** [addItem] on one container *)

Lemma deriveID_fresh c it id :
  Type_ it ≠ "boolean" → deriveID c it = Ok id → byID c !! id = None.
Proof.
  intros Hty. unfold deriveID. rewrite decide_False by done.
  apply nextFreeID_fresh.
Qed.

Lemma deriveID_total c it : ∃ id, deriveID c it = Ok id.
Proof.
  unfold deriveID. case_decide; [eauto|]. apply nextFreeID_total.
Qed.

(** An entry whose identity is filed already overwrites the entry of that
    node; nothing else changes. *)
Lemma addToContainer_replace maxE c it l0 n0 :
  Type_ it = "boolean" → byID c !! booleanID it = Some l0 →
  nodes c !! l0 = Some n0 →
  addToContainer maxE c it
  = Ok (setNodes (<[l0 := setValue (withID (booleanID it) it) n0]> (nodes c)) c,
        withID (booleanID it) it).
Proof.
  intros Hty Hid Hn0. unfold addToContainer, deriveID.
  rewrite decide_True by done. rewrite bind_Ok. cbv zeta. rewrite Hid.
  rewrite (store_Some _ _ _ _ Hn0), bind_Ok.
  rewrite bool_decide_eq_false_2 by (simpl; rewrite Hty; done).
  by rewrite bool_decide_eq_true_2 by eauto.
Qed.

(** An entry with a new identity gets a node, which is then linked in. *)
Lemma addToContainer_new maxE c it id :
  deriveID c it = Ok id → byID c !! id = None →
  addToContainer maxE c it
  = let '(l, c3) := allocated c (withID id it) in
    c4 ← match head c with
         | None => Ok (setTail (Some l) (setHead (Some l) c3))
         | Some _ =>
             '(c', inserted) ← insertScan (S (size (nodes c3))) c3 l None (head c);
             c' ← (if inserted : bool then Ok c' else appendTail c' l);
             evict (S (size (nodes c'))) maxE c'
         end;
    Ok (c4, withID id it).
Proof.
  intros Hd Hid. unfold addToContainer. rewrite Hd, bind_Ok. cbv zeta.
  rewrite Hid. unfold alloc, allocated. cbv zeta.
  rewrite (store_Some _ _ (mkNode zeroItem None None))
    by (simpl; apply lookup_insert_eq).
  rewrite bind_Ok.
  rewrite (bool_decide_eq_false_2 (is_Some None)) by (by intros [? ?]).
  rewrite orb_true_r. simpl nodes. rewrite insert_insert_eq. done.
Qed.

Lemma allocated_spec c ls v :
  linked c ls → byID c !! ID v = None →
  let l := (allocated c v).1 in
  let c3 := (allocated c v).2 in
  linked c3 ls ∧ (l ∉ ls) ∧ nodes c3 !! l = Some (mkNode v None None)
  ∧ byID c3 !! ID v = Some l
  ∧ entries c3 ls = entries c ls
  ∧ (exactPrev c ls → exactPrev c3 ls)
  ∧ (filed c ls None → filed c3 ls (Some l))
  ∧ size (byID c3) = S (size (byID c)).
Proof.
  intros Hl Hid. cbv zeta. unfold allocated. cbn [fst snd].
  destruct (linked_alloc c ls v Hl Hid) as (Hl3 & Hnotin & Hfresh).
  set (l := fresh (dom (nodes c))) in *.
  set (c3 := mkContainer _ _ _ _) in *.
  split; [exact Hl3|]. split; [done|].
  split; [apply lookup_insert_eq|]. split; [apply lookup_insert_eq|].
  assert (Hsame : ∀ l', l' ∈ ls → nodes c3 !! l' = nodes c !! l').
  { intros l' Hin. simpl. apply lookup_insert_ne. by intros ->. }
  split; [apply entries_ext; intros l' Hin; by rewrite Hsame|].
  split.
  { intros Hp i l' n Hi Hn. rewrite Hsame in Hn by (by eapply list_elem_of_lookup_2).
    by eapply Hp. }
  split; [|by apply map_size_insert_None].
  intros Hf k l' Hk. simpl in Hk.
  apply lookup_insert_Some in Hk as [[<- <-]|[Hne Hk]].
  - split; [by right|]. exists (mkNode v None None).
    split; [apply lookup_insert_eq|done].
  - destruct (Hf k l' Hk) as ([Hin|?] & n & Hn & Hidn); [|done].
    split; [by left|]. exists n. by rewrite Hsame.
Qed.

Lemma appendTail_linked c ls l v t tn :
  linked c ls → l ∉ ls → nodes c !! l = Some (mkNode v None None) →
  last ls = Some t → nodes c !! t = Some tn →
  appendTail c l = Ok (linkedAfter c l v t tn (Some l)).
Proof.
  intros Hl Hnotin Hnl Hlast Hn.
  assert (Htl : t ≠ l).
  { intros ->. apply Hnotin. by apply last_Some_elem_of. }
  pose proof Hlast as Ht. rewrite last_lookup in Ht.
  destruct (linked_node _ _ Hl _ _ Ht) as (tn' & Htn' & Hnx & _).
  assert (tn' = tn) as -> by congruence.
  assert (Hnone : next tn = None).
  { rewrite Hnx. apply lookup_ge_None. apply lookup_lt_Some in Ht. lia. }
  unfold appendTail. rewrite (linked_tail _ _ Hl), Hlast.
  rewrite (store_Some _ _ _ _ Hn), bind_Ok.
  rewrite (store_Some _ _ (mkNode v None None))
    by (simpl; by rewrite lookup_insert_ne).
  rewrite bind_Ok. unfold linkedAfter. simpl. rewrite Hnone.
  rewrite (linked_tail _ _ Hl), Hlast.
  rewrite (insert_insert_ne _ l t) by (by intros ->). done.
Qed.

(** A single entry. *)
Lemma first_node c v l :
  head c = None → tail c = None →
  nodes c !! l = Some (mkNode v None None) → filed c [] (Some l) →
  byID c !! ID v = Some l →
  let c' := setTail (Some l) (setHead (Some l) c) in
  linked c' [l] ∧ tight c' [l] ∧ entries c' [l] = [v].
Proof.
  intros Hh Ht Hnl Hf Hid c'. split; [|split].
  - split; simpl; try done.
    + apply NoDup_singleton.
    + intros [|i] l' Hi; [|done]. simpl in Hi. simplify_eq.
      eexists. split; [done|]. done.
    + intros k l' Hk. destruct (Hf k l' Hk) as (_ & n & Hn & _). eauto.
  - split.
    + intros [|i] l' n Hi Hn; [|done]. simpl in Hi, Hn. by simplify_eq.
    + intros k l' Hk. simpl in Hk.
      destruct (Hf k l' Hk) as ([Hin|?] & Hn); [by apply elem_of_nil in Hin|].
      simplify_eq. split; [left; by left|done].
  - simpl. by rewrite Hnl.
Qed.

(** *** Order *)

Lemma scanPos_zero t es e :
  scanPos t es = 0%nat → es !! 0%nat = Some e → CreatedAt e ≤ t.
Proof.
  destruct es as [|e0 es]; [done|]. simpl. intros Hs [= ->].
  unfold Before in Hs. destruct (t <? CreatedAt e) eqn:Hlt; [done|]. lia.
Qed.

Lemma scanPos_all t es i e :
  scanPos t es = length es → es !! i = Some e → t < CreatedAt e.
Proof.
  revert i. induction es as [|e0 es IH]; intros i; [done|]. simpl.
  unfold Before. destruct (t <? CreatedAt e0) eqn:Hlt; [|done].
  intros [= Hs]. destruct i as [|i]; simpl.
  - intros [= ->]. lia.
  - by apply IH.
Qed.

Lemma descending_cons v es :
  descending es → (∀ e, es !! 0%nat = Some e → CreatedAt e ≤ CreatedAt v) →
  descending (v :: es).
Proof.
  intros Hd Hv [|i] [|j] x y Hij Hx Hy; simpl in *; try lia.
  - simplify_eq. destruct j as [|j].
    + by apply Hv.
    + destruct (es !! 0%nat) as [e0|] eqn:He0.
      * pose proof (Hd 0%nat (S j) e0 y ltac:(lia) He0 Hy).
        pose proof (Hv e0 eq_refl). lia.
      * apply lookup_ge_None in He0. apply lookup_lt_Some in Hy. lia.
  - apply (Hd i j); [lia|done|done].
Qed.

Lemma descending_snoc v es :
  descending es → (∀ i e, es !! i = Some e → CreatedAt v ≤ CreatedAt e) →
  descending (es ++ [v]).
Proof.
  intros Hd Hv i j x y Hij Hx Hy.
  assert (Hi : (i < length es)%nat).
  { apply lookup_lt_Some in Hy. rewrite length_app in Hy. simpl in Hy. lia. }
  rewrite lookup_app_l in Hx by done.
  destruct (decide (j < length es)%nat).
  - rewrite lookup_app_l in Hy by done. by apply (Hd i j).
  - rewrite lookup_app_r in Hy by lia.
    destruct (j - length es)%nat; simpl in Hy; [|done]. simplify_eq.
    by eapply Hv.
Qed.

Lemma descending_take k es : descending es → descending (take k es).
Proof.
  intros Hd i j x y Hij [Hx _]%lookup_take_Some [Hy _]%lookup_take_Some.
  by apply (Hd i j).
Qed.

(** *** A new entry in front of all others or behind all others *)

Lemma insertAt_end l ls : insertAt (length ls) l ls = ls ++ [l].
Proof. unfold insertAt. by rewrite take_ge, drop_ge by lia. Qed.

Lemma addToContainer_new_tight maxE c ls it id :
  0 ≤ maxE → linked c ls → tight c ls →
  deriveID c it = Ok id → byID c !! id = None →
  let v := withID id it in
  let pos := scanPos (CreatedAt it) (entries c ls) in
  pos = 0%nat ∨ pos = length ls →
  ∃ c' l k,
    addToContainer maxE c it = Ok (c', v) ∧ (l ∉ ls) ∧
    let ls1 := if decide (pos = 0%nat) then l :: ls else ls ++ [l] in
    let es1 := if decide (pos = 0%nat) then v :: entries c ls
               else entries c ls ++ [v] in
    (k ≤ length ls1)%nat ∧ (ls = [] → k = 1%nat)
    ∧ linked c' (take k ls1) ∧ tight c' (take k ls1)
    ∧ entries c' (take k ls1) = take k es1.
Proof.
  intros HmaxE Hl Ht Hd Hid v pos Hpos.
  rewrite (addToContainer_new maxE c it id Hd Hid). fold v.
  assert (Hidv : byID c !! ID v = None) by done.
  destruct (allocated_spec c ls v Hl Hidv)
    as (Hl3 & Hnotin & Hnl & Hbl & He3 & Hp3 & Hf3 & _).
  specialize (Hp3 (tight_prev _ _ Ht)). specialize (Hf3 (tight_byID _ _ Ht)).
  destruct (allocated c v) as [l c3] eqn:Ha. cbn [fst snd] in *.
  assert (Hh3 : head c3 = head c) by (by injection Ha as _ <-).
  assert (Ht3 : tail c3 = tail c) by (by injection Ha as _ <-).
  destruct (decide (ls = [])) as [->|Hne].
  { rewrite (linked_head _ _ Hl). simpl.
    destruct (first_node c3 v l) as (Hl' & Ht' & He'); auto.
    - rewrite Hh3. apply Hl.
    - rewrite Ht3. apply Hl.
    - exists (setTail (Some l) (setHead (Some l) c3)), l, 1%nat.
      split; [done|]. split; [done|].
      assert (pos = 0%nat) as -> by (by destruct Hpos).
      simpl. split; [lia|]. split; [done|]. done. }
  rewrite (linked_head _ _ Hl).
  destruct (ls !! 0%nat) as [h0|] eqn:Hh0;
    [|apply lookup_ge_None in Hh0; destruct ls; simpl in *; [done|lia]].
  pose proof (linked_length _ _ Hl3) as Hlen3.
  destruct (insertScan_linked c3 ls l v (S (size (nodes c3))) 0 Hl3 Hnotin Hnl)
    as [[Hi Hscan]|[[Hi (h1 & hn & Hh1 & Hhn & Hscan)]
        |(i' & p & pn & Hi & Hlt & _)]]; [lia|lia| | |].
  - (* behind all others *)
    cbn [predAt] in Hscan. rewrite Nat.add_0_l, drop_0, He3 in Hi.
    rewrite Hh0 in Hscan.
    rewrite Hscan, bind_Ok. cbv beta iota.
    destruct (last ls) as [t|] eqn:Hlast; [|by apply last_None in Hlast].
    pose proof Hlast as Htl. rewrite last_lookup in Htl.
    destruct (linked_node _ _ Hl3 _ _ Htl) as (tn & Htn & _).
    rewrite (appendTail_linked c3 ls l v t tn Hl3 Hnotin Hnl Hlast Htn), bind_Ok.
    assert (Hlen : S (pred (length ls)) = length ls) by (destruct ls; simpl; [done|lia]).
    pose proof (linked_insert_after c3 ls l v _ t tn Hl3 Hnotin Hnl Hbl Htl Htn) as Hl5.
    rewrite decide_True in Hl5 by done. rewrite Hlen, insertAt_end in Hl5.
    pose proof (tight_append c3 ls l v _ t tn Hl3 Hp3 Hnotin Htl Htn Hlen Hnl Hf3) as Ht5.
    rewrite Hlen, insertAt_end in Ht5.
    pose proof (entries_insert_after c3 ls l v _ t tn (Some l) Hl3 Hnotin Htl Htn) as He5.
    rewrite Hlen, insertAt_end, He3 in He5.
    rewrite take_ge, drop_ge in He5 by (rewrite entries_length by done; lia).
    fold (linkedAfter c3 l v t tn (Some l)) in Hl5, Ht5.
    destruct (evict_tight (S (size (nodes (linkedAfter c3 l v t tn (Some l))))) maxE
                _ _ Hl5 Ht5 HmaxE) as (c' & k & Hev & Hk & Hl' & Ht' & He' & _).
    { pose proof (linked_length _ _ Hl5). lia. }
    rewrite Hev, bind_Ok. exists c', l, k. split; [done|]. split; [done|].
    assert (pos ≠ 0%nat).
    { unfold pos. fold v in Hi. simpl in Hi. rewrite Hi. by destruct ls. }
    rewrite !decide_False by done. cbv zeta.
    split; [done|]. split; [done|]. split; [done|]. split; [done|].
    by rewrite He', He5.
  - (* in front of all others *)
    cbn [predAt] in Hscan. rewrite Nat.add_0_l in Hi.
    rewrite Hh0 in Hscan. rewrite Hscan, bind_Ok.
    cbv beta iota. rewrite bind_Ok.
    assert (h1 = h0) as -> by congruence.
    assert (Hhn0 : nodes c3 !! h0 = Some hn) by done.
    pose proof (linked_insert_head c3 ls l v h0 hn Hl3 Hnotin Hnl Hbl Hh0 Hhn0) as Hl5.
    pose proof (tight_insert_head c3 ls l v h0 hn Hl3 Hp3 Hnotin Hh0 Hhn0 Hnl Hf3) as Ht5.
    pose proof (entries_insert_head c3 ls l v h0 hn Hnotin
                  (list_elem_of_lookup_2 _ _ _ Hh0) Hhn0) as He5.
    rewrite He3 in He5. fold (headInserted c3 l v h0 hn) in Hl5, Ht5, He5.
    destruct (evict_tight (S (size (nodes (headInserted c3 l v h0 hn)))) maxE
                _ _ Hl5 Ht5 HmaxE) as (c' & k & Hev & Hk & Hl' & Ht' & He' & _).
    { pose proof (linked_length _ _ Hl5). lia. }
    rewrite Hev, bind_Ok. exists c', l, k. split; [done|]. split; [done|].
    assert (pos = 0%nat) as Hpos0.
    { unfold pos. rewrite drop_0, He3 in Hi. exact Hi. }
    rewrite !decide_True by done. cbv zeta.
    split; [done|]. split; [done|]. split; [done|]. split; [done|].
    by rewrite He', He5.
  - (* in the middle: excluded *)
    rewrite Nat.add_0_l, drop_0, He3 in Hi, Hlt. simpl in Hi, Hlt.
    unfold pos in Hpos. lia.
Qed.

(** *** An entry that replaces another *)

Lemma addToContainer_replace_tight maxE c ls it l0 :
  linked c ls → tight c ls →
  Type_ it = "boolean" → byID c !! booleanID it = Some l0 →
  let v := withID (booleanID it) it in
  ∃ c' i,
    addToContainer maxE c it = Ok (c', v) ∧ ls !! i = Some l0
    ∧ linked c' ls ∧ tight c' ls
    ∧ entries c' ls = <[i := v]> (entries c ls)
    ∧ byID c' = byID c.
Proof.
  intros Hl Ht Hty Hid v.
  destruct (tight_byID _ _ Ht _ _ Hid) as ([Hin|?] & n0 & Hn0 & Hidn); [|done].
  apply list_elem_of_lookup in Hin as [i Hi].
  rewrite (addToContainer_replace maxE c it l0 n0 Hty Hid Hn0). fold v.
  assert (Hidv : byID c !! ID v = Some l0) by done.
  pose proof (linked_set_value c ls l0 n0 v Hl Hn0 Hidv) as Hl'.
  pose proof (tight_set_value c ls l0 n0 v Ht Hn0 Hidv) as Ht'.
  eexists _, i. split; [done|]. split; [done|]. split; [done|].
  split; [done|]. split; [|done].
  apply list_eq. intros k.
  destruct (ls !! k) as [lk|] eqn:Hk.
  - destruct (linked_node _ _ Hl k lk Hk) as (nk & Hnk & _).
    destruct (decide (k = i)) as [->|Hki].
    + assert (lk = l0) as -> by congruence.
      rewrite list_lookup_insert_eq
        by (rewrite entries_length by done; by eapply lookup_lt_Some).
      apply (entries_lookup _ ls i l0 (setValue v n0) Hl' Hi).
      simpl. apply lookup_insert_eq.
    + rewrite list_lookup_insert_ne by done.
      assert (lk ≠ l0).
      { intros ->. apply Hki.
        exact (NoDup_lookup ls k i l0 (linked_nodup _ _ Hl) Hk Hi). }
      rewrite (entries_lookup c ls k lk nk Hl Hk Hnk).
      apply (entries_lookup _ ls k lk nk Hl' Hk).
      simpl. by rewrite lookup_insert_ne.
  - apply lookup_ge_None in Hk.
    rewrite !lookup_ge_None_2; [done| |].
    + by rewrite length_insert, entries_length.
    + by rewrite entries_length.
Qed.

(** The same at a known position of the sequence, from the forward links
    alone: the back pointers play no part in an overwrite. *)
Lemma addToContainer_replace_at maxE c ls it i l0 n0 :
  linked c ls → Type_ it = "boolean" →
  ls !! i = Some l0 → nodes c !! l0 = Some n0 →
  ID (value n0) = booleanID it →
  let v := withID (booleanID it) it in
  ∃ c',
    addToContainer maxE c it = Ok (c', v)
    ∧ linked c' ls ∧ (tight c ls → tight c' ls)
    ∧ entries c' ls = <[i := v]> (entries c ls)
    ∧ byID c' = byID c.
Proof.
  intros Hl Hty Hi Hn0 Hidn v.
  destruct (linked_node _ _ Hl i l0 Hi) as (n0' & Hn0' & _ & _ & Hid).
  assert (n0' = n0) as -> by congruence. rewrite Hidn in Hid.
  rewrite (addToContainer_replace maxE c it l0 n0 Hty Hid Hn0). fold v.
  assert (Hidv : byID c !! ID v = Some l0) by done.
  pose proof (linked_set_value c ls l0 n0 v Hl Hn0 Hidv) as Hl'.
  eexists. split; [done|]. split; [done|].
  split. { intros Ht. exact (tight_set_value c ls l0 n0 v Ht Hn0 Hidv). }
  split; [|done].
  apply list_eq. intros k.
  destruct (ls !! k) as [lk|] eqn:Hk.
  - destruct (linked_node _ _ Hl k lk Hk) as (nk & Hnk & _).
    destruct (decide (k = i)) as [->|Hki].
    + assert (lk = l0) as -> by congruence.
      rewrite list_lookup_insert_eq
        by (rewrite entries_length by done; by eapply lookup_lt_Some).
      apply (entries_lookup _ ls i l0 (setValue v n0) Hl' Hi).
      simpl. apply lookup_insert_eq.
    + rewrite list_lookup_insert_ne by done.
      assert (lk ≠ l0).
      { intros ->. apply Hki.
        exact (NoDup_lookup ls k i l0 (linked_nodup _ _ Hl) Hk Hi). }
      rewrite (entries_lookup c ls k lk nk Hl Hk Hnk).
      apply (entries_lookup _ ls k lk nk Hl' Hk).
      simpl. by rewrite lookup_insert_ne.
  - apply lookup_ge_None in Hk.
    rewrite !lookup_ge_None_2; [done| |].
    + by rewrite length_insert, entries_length.
    + by rewrite entries_length.
Qed.

(** *** [addItem] on the store *)

Lemma addItem_container file it c' it' :
  addToContainer (maxEntries file)
    (default emptyContainer (data file !! Group it)) it = Ok (c', it') →
  addItem file it
  = Ok (setData (<[Group it := c']> (data file)) file, it').
Proof. intros H. unfold addItem. by rewrite H. Qed.

(** The invariant is kept by an upsert that replaces an entry in place or
    puts a new entry in front of or behind all others. *)
Lemma addItem_tight file it ls :
  0 ≤ maxEntries file →
  let c := default emptyContainer (data file !! Group it) in
  linked c ls → tight c ls →
  let replaces := Type_ it = "boolean" ∧ is_Some (byID c !! booleanID it) in
  let pos := scanPos (CreatedAt it) (entries c ls) in
  replaces ∨ pos = 0%nat ∨ pos = length ls →
  ∃ file' it' c' ls',
    addItem file it = Ok (file', it')
    ∧ data file' = <[Group it := c']> (data file)
    ∧ linked c' ls' ∧ tight c' ls'
    ∧ (replaces → ls' = ls ∧ byID c' = byID c ∧ length (entries c' ls') = length (entries c ls))
    ∧ (¬ replaces → ∃ k,
         entries c' ls' = take k (if decide (pos = 0%nat) then it' :: entries c ls
                                  else entries c ls ++ [it'])
         ∧ CreatedAt it' = CreatedAt it).
Proof.
  intros HmaxE c Hl Ht replaces pos Hplace.
  destruct (decide (Type_ it = "boolean")) as [Hty|Hty].
  - destruct (byID c !! booleanID it) as [l0|] eqn:Hid.
    + destruct (addToContainer_replace_tight (maxEntries file) c ls it l0 Hl Ht Hty Hid)
        as (c' & i & Hadd & Hi & Hl' & Ht' & He' & Hby).
      eexists _, _, c', ls. split; [by apply addItem_container|].
      split; [done|]. split; [done|]. split; [done|]. split.
      * intros _. split; [done|]. split; [done|].
        by rewrite He', length_insert.
      * intros []. split; [done|]. unfold c in *. rewrite ?Hid. eauto.
    + assert (Hnr : ¬ replaces).
      { intros [_ [? Hs]]. unfold c in *. congruence. }
      destruct Hplace as [?|Hpos]; [done|].
      assert (Hd : deriveID c it = Ok (booleanID it)).
      { unfold deriveID. by rewrite decide_True. }
      destruct (addToContainer_new_tight (maxEntries file) c ls it _ HmaxE Hl Ht Hd Hid Hpos)
        as (c' & l & k & Hadd & Hnotin & Hk & _ & Hl' & Ht' & He').
      eexists _, _, c', _. split; [by apply addItem_container|].
      split; [done|]. split; [exact Hl'|]. split; [exact Ht'|].
      split; [done|]. intros _. exists k. split; [|done].
      rewrite He'. fold pos. by destruct (decide (pos = 0%nat)).
  - assert (Hnr : ¬ replaces).
    { by intros [? _]. }
    destruct Hplace as [?|Hpos]; [done|].
    destruct (deriveID_total c it) as [id Hd].
    pose proof (deriveID_fresh c it id Hty Hd) as Hid.
    destruct (addToContainer_new_tight (maxEntries file) c ls it _ HmaxE Hl Ht Hd Hid Hpos)
      as (c' & l & k & Hadd & Hnotin & Hk & _ & Hl' & Ht' & He').
    eexists _, _, c', _. split; [by apply addItem_container|].
    split; [done|]. split; [exact Hl'|]. split; [exact Ht'|].
    split; [done|]. intros _. exists k. split; [|done].
    rewrite He'. fold pos. by destruct (decide (pos = 0%nat)).
Qed.

Lemma descending_new t es v k :
  descending es → CreatedAt v = t →
  let pos := scanPos t es in
  pos = 0%nat ∨ pos = length es →
  descending (take k (if decide (pos = 0%nat) then v :: es else es ++ [v])).
Proof.
  intros Hd Hv pos Hpos. apply descending_take. case_decide as Hp.
  - apply descending_cons; [done|]. intros e He. rewrite Hv.
    by apply (scanPos_zero t es).
  - destruct Hpos as [?|Hpos]; [done|]. apply descending_snoc; [done|].
    intros i e He. rewrite Hv.
    pose proof (scanPos_all t es i e Hpos He). lia.
Qed.

(** ** The claims on the index *)

(** Same day, same bucket: for instants at or after the epoch the quotient
    of [addItem] is the day. *)
Lemma booleanID_same_day e1 e2 :
  Group e1 = Group e2 → Name e1 = Name e2 →
  0 ≤ CreatedAt e1 → 0 ≤ CreatedAt e2 →
  utcDay (CreatedAt e1) = utcDay (CreatedAt e2) →
  booleanID e1 = booleanID e2.
Proof.
  intros Hg Hn H1 H2 Hday. unfold booleanID, utcDay in *.
  rewrite Hg, Hn. rewrite !Z.quot_div_nonneg by (done || by vm_compute).
  by rewrite Hday.
Qed.

(** Before the epoch the quotient rounds the other way: midnight and the
    nanosecond after it fall in different buckets. *)
Lemma booleanID_before_epoch :
  utcDay (- dayNanos) = utcDay (- dayNanos + 1)
  ∧ booleanID (booleanAt "ping" (- dayNanos))
    ≠ booleanID (booleanAt "ping" (- dayNanos + 1)).
Proof. split; [by vm_compute|]. by vm_compute. Qed.

(** C3 (amended). Two boolean entries of one probe whose instants, at or
    after the epoch, fall in the same UTC day have the same identity. When
    the first is still retained as the second is upserted, the second
    overwrites it in its node: the sequence of nodes and the identity map
    are unchanged, the entry at that position is the second one, and no
    other retained entry has that identity. Only the forward links of the
    sequence are needed, which every reachable store has; where the back
    pointers are exact as well, they stay so. *)
Theorem boolean_same_day_replaces file e1 e2 c ls i l0 n0 :
  Type_ e1 = "boolean" → Type_ e2 = "boolean" →
  Group e1 = Group e2 → Name e1 = Name e2 →
  0 ≤ CreatedAt e1 → 0 ≤ CreatedAt e2 →
  utcDay (CreatedAt e1) = utcDay (CreatedAt e2) →
  data file !! Group e2 = Some c → linked c ls →
  ls !! i = Some l0 → nodes c !! l0 = Some n0 →
  value n0 = withID (booleanID e1) e1 →
  booleanID e2 = booleanID e1 ∧
  ∃ file' c',
    addItem file e2 = Ok (file', withID (booleanID e1) e2)
    ∧ data file' = <[Group e2 := c']> (data file)
    ∧ linked c' ls ∧ (tight c ls → tight c' ls)
    ∧ byID c' = byID c
    ∧ entries c' ls = <[i := withID (booleanID e1) e2]> (entries c ls)
    ∧ length (entries c' ls) = length (entries c ls)
    ∧ ∀ j x, entries c' ls !! j = Some x → ID x = booleanID e1 → j = i.
Proof.
  intros Hty1 Hty2 Hg Hn Ht1 Ht2 Hday Hc Hl Hi Hn0 Hv.
  pose proof (booleanID_same_day e1 e2 Hg Hn Ht1 Ht2 Hday) as Hid.
  split; [done|].
  assert (Hidn : ID (value n0) = booleanID e2) by (by rewrite Hv, <-Hid).
  destruct (addToContainer_replace_at (maxEntries file) c ls e2 i l0 n0
              Hl Hty2 Hi Hn0 Hidn) as (c' & Hadd & Hl' & Ht' & He' & Hby).
  rewrite <-Hid in *.
  exists (setData (<[Group e2 := c']> (data file)) file), c'.
  split. { apply addItem_container. by rewrite Hc. }
  split; [done|]. split; [done|]. split; [done|]. split; [done|].
  split; [done|]. split; [by rewrite He', length_insert|].
  intros j x Hj Hx.
  destruct (entries_lookup_inv c' ls j x Hl' Hj) as (lj & nj & Hlj & Hnj & Hvj).
  destruct (linked_node _ _ Hl' j lj Hlj) as (nj' & Hnj' & _ & _ & Hbj).
  assert (nj' = nj) as -> by congruence.
  rewrite Hvj, Hx, Hby in Hbj.
  destruct (linked_node _ _ Hl i l0 Hi) as (n0' & Hn0' & _ & _ & Hb).
  assert (n0' = n0) as -> by congruence.
  rewrite Hv in Hb. simpl in Hb.
  assert (lj = l0) as -> by congruence.
  exact (NoDup_lookup ls j i l0 (linked_nodup _ _ Hl) Hlj Hi).
Qed.

(** C5 (amended). On a group container that satisfies the invariant (links
    in both directions, identity map and sequence with the same nodes) an
    upsert keeps it when it overwrites a retained entry in place, leaving
    the sequence as it is, or when the new entry goes in front of all
    others (it is not older than the head) or behind all others; in the two
    latter cases the order by [CreatedAt], newest first, is kept as well,
    the new entry standing in front of those of the same instant, and only
    entries at the tail are dropped. *)
Theorem addItem_keeps_invariant file it ls :
  0 ≤ maxEntries file →
  let c := default emptyContainer (data file !! Group it) in
  linked c ls → tight c ls →
  let replaces := Type_ it = "boolean" ∧ is_Some (byID c !! booleanID it) in
  let pos := scanPos (CreatedAt it) (entries c ls) in
  replaces ∨ pos = 0%nat ∨ pos = length ls →
  ∃ file' it' c' ls',
    addItem file it = Ok (file', it')
    ∧ data file' = <[Group it := c']> (data file)
    ∧ linked c' ls' ∧ tight c' ls'
    ∧ (replaces → ls' = ls)
    ∧ (¬ replaces →
       (∃ k, entries c' ls'
             = take k (if decide (pos = 0%nat) then it' :: entries c ls
                       else entries c ls ++ [it']))
       ∧ (descending (entries c ls) → descending (entries c' ls'))).
Proof.
  intros HmaxE c Hl Ht replaces pos Hplace.
  destruct (addItem_tight file it ls HmaxE Hl Ht Hplace)
    as (file' & it' & c' & ls' & Hadd & Hdata & Hl' & Ht' & Hrep & Hnew).
  exists file', it', c', ls'. split; [done|]. split; [done|].
  split; [done|]. split; [done|]. split; [intros Hr; by apply Hrep|].
  intros Hnr. destruct (Hnew Hnr) as (k & He & Ht0).
  split; [by exists k|]. intros Hd. rewrite He.
  destruct Hplace as [?|Hpos]; [done|].
  rewrite <-(entries_length c ls Hl) in Hpos.
  exact (descending_new (CreatedAt it) (entries c ls) it' k Hd Ht0 Hpos).
Qed.

(** C10 (amended). [GetGroupItems] panics for a group that has no
    container, and for a group that has one it returns the entries from head
    to tail, none when all have been evicted. *)
Theorem GetGroupItems_spec file g :
  (data file !! g = None → GetGroupItems file g = Panic)
  ∧ (∀ c ls, data file !! g = Some c → linked c ls →
       GetGroupItems file g = Ok (entries c ls)).
Proof.
  unfold GetGroupItems. split.
  - by intros ->.
  - intros c ls -> Hl. by apply items_linked.
Qed.

Lemma singleton_linked l v : linked (singleton l v) [l] ∧ tight (singleton l v) [l].
Proof.
  destruct (first_node (mkContainer {[l := mkNode v None None]} {[ID v := l]} None None)
              v l) as (Hl & Ht & _); try done.
  - apply lookup_singleton_eq.
  - intros k l' Hk. simpl in Hk. apply lookup_singleton_Some in Hk as [<- <-].
    split; [by right|]. exists (mkNode v None None).
    split; [apply lookup_singleton_eq|done].
  - apply lookup_singleton_eq.
Qed.

(** The computed checks are sound. *)
Lemma backOKb_sound ls i p : backOKb ls i p = true → backOK ls i p.
Proof.
  destruct i as [|i], p as [l'|]; simpl; try done.
  intros H%bool_decide_eq_true. by exists l'.
Qed.

Lemma linkedb_sound c ls : linkedb c ls = true → linked c ls.
Proof.
  unfold linkedb. rewrite !andb_true_iff, !bool_decide_eq_true.
  intros [[[[Hnd Hh] Ht] Hn] Hb].
  split; [done|done|done| |intros k l Hk; exact (Hb k l Hk)].
  - intros i l Hi. rewrite forallb_forall in Hn.
    assert (Hin : In i (seq 0 (length ls))).
    { apply in_seq. apply lookup_lt_Some in Hi. lia. }
    specialize (Hn i Hin). unfold nodeOK in Hn. rewrite Hi in Hn.
    destruct (nodes c !! l) as [n|]; [|done].
    rewrite !andb_true_iff, !bool_decide_eq_true in Hn.
    destruct Hn as [[Hnx Hbk] Hid]. exists n.
    split; [done|]. split; [done|]. split; [by apply backOKb_sound|done].
Qed.

Lemma tightb_sound c ls : tightb c ls = true → tight c ls.
Proof.
  unfold tightb. rewrite andb_true_iff, bool_decide_eq_true.
  intros [Hp Hf]. split.
  - intros i l n Hi Hn. rewrite forallb_forall in Hp.
    assert (Hin : In i (seq 0 (length ls))).
    { apply in_seq. apply lookup_lt_Some in Hi. lia. }
    specialize (Hp i Hin). unfold prevOK in Hp. rewrite Hi, Hn in Hp.
    by apply bool_decide_eq_true in Hp.
  - intros k l Hk. destruct (Hf k l Hk) as [Hin Hn].
    split; [by left|].
    destruct (nodes c !! l) as [n|]; [|done]. exists n.
    split; [done|]. by injection Hn.
Qed.

Lemma descendingb_sound es : descendingb es = true → descending es.
Proof.
  induction es as [|x es IH]; simpl.
  - by intros _ i j x y _ Hx.
  - rewrite andb_true_iff, forallb_forall. intros [Hx Hes].
    apply descending_cons; [by apply IH|].
    intros e He. specialize (Hx e). rewrite bool_decide_eq_true in Hx.
    apply Hx. apply list_elem_of_In. by eapply list_elem_of_lookup_2.
Qed.

(** On a store reached by three appends whose last went between the two
    others, so that one back pointer is stale. *)
Lemma boolean_same_day_replaces_witness :
  ∃ file' c',
    addItem middleStore pingNoon
    = Ok (file', withID (booleanID pingMorning) pingNoon)
    ∧ data file' !! "web" = Some c'
    ∧ entries c' [0; 2; 1]%nat
      = [withID (booleanID diskMidday) diskMidday;
         withID (booleanID pingMorning) pingNoon;
         withID (booleanID cpuMidnight) cpuMidnight].
Proof.
  destruct (boolean_same_day_replaces middleStore pingMorning pingNoon
              (containerOf middleStore "web") [0; 2; 1]%nat 1%nat 2%nat
              (mkNode (withID (booleanID pingMorning) pingMorning)
                 (Some 1%nat) (Some 0%nat)))
    as (_ & file' & c' & Hadd & Hdata & _ & _ & _ & He & _).
  - reflexivity.
  - reflexivity.
  - reflexivity.
  - reflexivity.
  - by vm_compute.
  - by vm_compute.
  - by vm_compute.
  - by vm_compute.
  - apply linkedb_sound. by vm_compute.
  - reflexivity.
  - by vm_compute.
  - reflexivity.
  - exists file', c'. split; [done|].
    split; [rewrite Hdata; apply lookup_insert_eq|].
    rewrite He. by vm_compute.
Defined.

(** C3 as stated fails when the first entry is evicted on arrival: with a
    bound of 1 and a newer entry in the group, both same-day entries are
    dropped as they come, and none with their identity is retained. *)
Lemma same_day_entries_both_evicted :
  utcDay (CreatedAt pingMorning) = utcDay (CreatedAt pingNoon)
  ∧ ∃ x, GetGroupItems (afterAll (emptyFile 1) [nextWeek; pingMorning; pingNoon]) "web"
         = Ok [x]
       ∧ ID x ≠ booleanID pingNoon.
Proof. split; [by vm_compute|]. eexists. split; [by vm_compute|]. by vm_compute. Qed.

(** An overwrite in place; a new entry in front of all others, the oldest
    being evicted; a new entry behind all others, kept; and one behind all
    others that is evicted at once. *)
Lemma addItem_keeps_invariant_witness :
  (∃ file' it' c' ls',
      addItem (twoProbes 2) pingNoon = Ok (file', it')
      ∧ data file' !! "web" = Some c' ∧ linked c' ls' ∧ tight c' ls'
      ∧ ls' = [1; 0]%nat)
  ∧ (∃ file' it' c' ls' k,
      addItem (twoProbes 2) nextWeek = Ok (file', it')
      ∧ data file' !! "web" = Some c' ∧ linked c' ls' ∧ tight c' ls'
      ∧ entries c' ls'
        = take k (it' :: entries (containerOf (twoProbes 2) "web") [1; 0]%nat)
      ∧ descending (entries c' ls'))
  ∧ (∃ file' it' c' ls' k,
      addItem (twoProbes 5) cpuMidnight = Ok (file', it')
      ∧ data file' !! "web" = Some c' ∧ linked c' ls' ∧ tight c' ls'
      ∧ entries c' ls'
        = take k (entries (containerOf (twoProbes 5) "web") [1; 0]%nat ++ [it'])
      ∧ descending (entries c' ls'))
  ∧ (∃ file' it' c' ls' k,
      addItem (twoProbes 2) cpuMidnight = Ok (file', it')
      ∧ data file' !! "web" = Some c' ∧ linked c' ls' ∧ tight c' ls'
      ∧ entries c' ls'
        = take k (entries (containerOf (twoProbes 2) "web") [1; 0]%nat ++ [it'])
      ∧ descending (entries c' ls')).
Proof.
  split; [|split; [|split]].
  - destruct (addItem_keeps_invariant (twoProbes 2) pingNoon [1; 0]%nat)
      as (file' & it' & c' & ls' & Hadd & Hdata & Hl & Ht & Hrep & _).
    + by vm_compute.
    + apply linkedb_sound. by vm_compute.
    + apply tightb_sound. by vm_compute.
    + left. split; [reflexivity|]. vm_compute. eauto.
    + exists file', it', c', ls'. split; [done|].
      split; [rewrite Hdata; apply lookup_insert_eq|].
      split; [done|]. split; [done|]. apply Hrep.
      split; [reflexivity|]. vm_compute. eauto.
  - destruct (addItem_keeps_invariant (twoProbes 2) nextWeek [1; 0]%nat)
      as (file' & it' & c' & ls' & Hadd & Hdata & Hl & Ht & _ & Hnew).
    + by vm_compute.
    + apply linkedb_sound. by vm_compute.
    + apply tightb_sound. by vm_compute.
    + right; left. by vm_compute.
    + destruct Hnew as [[k Hk] Hd]. { by intros [? _]. }
      exists file', it', c', ls', k. split; [done|].
      split; [rewrite Hdata; apply lookup_insert_eq|].
      split; [done|]. split; [done|]. split; [exact Hk|].
      apply Hd. apply descendingb_sound. by vm_compute.
  - destruct (addItem_keeps_invariant (twoProbes 5) cpuMidnight [1; 0]%nat)
      as (file' & it' & c' & ls' & Hadd & Hdata & Hl & Ht & _ & Hnew).
    + by vm_compute.
    + apply linkedb_sound. by vm_compute.
    + apply tightb_sound. by vm_compute.
    + right; right. by vm_compute.
    + destruct Hnew as [[k Hk] Hd]. { intros [_ [? H]]. by vm_compute in H. }
      exists file', it', c', ls', k. split; [done|].
      split; [rewrite Hdata; apply lookup_insert_eq|].
      split; [done|]. split; [done|]. split; [exact Hk|].
      apply Hd. apply descendingb_sound. by vm_compute.
  - destruct (addItem_keeps_invariant (twoProbes 2) cpuMidnight [1; 0]%nat)
      as (file' & it' & c' & ls' & Hadd & Hdata & Hl & Ht & _ & Hnew).
    + by vm_compute.
    + apply linkedb_sound. by vm_compute.
    + apply tightb_sound. by vm_compute.
    + right; right. by vm_compute.
    + destruct Hnew as [[k Hk] Hd]. { intros [_ [? H]]. by vm_compute in H. }
      exists file', it', c', ls', k. split; [done|].
      split; [rewrite Hdata; apply lookup_insert_eq|].
      split; [done|]. split; [done|]. split; [exact Hk|].
      apply Hd. apply descendingb_sound. by vm_compute.
Defined.

(** C5 as stated fails: a boolean entry overwritten in place keeps its
    position, so the sequence is no longer ordered by [CreatedAt]. After
    [diskMidday] and [pingMorning] the sequence is ordered; [pingEvening]
    then replaces [pingMorning] behind [diskMidday]. *)
Lemma replacement_breaks_order :
  ¬ (∀ file it file' it',
       fileInv file → addItem file it = Ok (file', it') → fileInv file').
Proof.
  intros H.
  assert (H0 : fileInv (emptyFile 5)).
  { intros g c Hg. simpl in Hg. by rewrite lookup_empty in Hg. }
  assert (H1 : fileInv (afterAll (emptyFile 5) [diskMidday])).
  { eapply (H _ diskMidday); [exact H0|]. by vm_compute. }
  assert (H2 : fileInv (afterAll (emptyFile 5) [diskMidday; pingMorning])).
  { eapply (H _ pingMorning); [exact H1|]. by vm_compute. }
  assert (H3 : fileInv (afterAll (emptyFile 5) [diskMidday; pingMorning; pingEvening])).
  { eapply (H _ pingEvening); [exact H2|]. by vm_compute. }
  destruct (data (afterAll (emptyFile 5) [diskMidday; pingMorning; pingEvening])
              !! "web") as [c|] eqn:Hc; [|by vm_compute in Hc].
  destruct (H3 "web" c Hc) as (ls & Hl & _ & Hd).
  pose proof (items_linked c ls Hl) as Hit.
  assert (Hget : GetGroupItems
                   (afterAll (emptyFile 5) [diskMidday; pingMorning; pingEvening])
                   "web" = Ok (entries c ls)).
  { unfold GetGroupItems. by rewrite Hc. }
  assert (∃ x y, GetGroupItems
                   (afterAll (emptyFile 5) [diskMidday; pingMorning; pingEvening])
                   "web" = Ok [x; y] ∧ CreatedAt x < CreatedAt y)
    as (x & y & Hxy & Hlt).
  { eexists _, _. split; by vm_compute. }
  rewrite Hget in Hxy. injection Hxy as Hes.
  pose proof (Hd 0%nat 1%nat x y) as Hd01. rewrite Hes in Hd01.
  specialize (Hd01 ltac:(lia) eq_refl eq_refl). lia.
Qed.

Lemma GetGroupItems_spec_witness :
  GetGroupItems oneProbeStore "web"
  = Ok [withID (booleanID pingMorning) pingMorning]
  ∧ GetGroupItems oneProbeStore "db" = Panic.
Proof.
  split.
  - exact (proj2 (GetGroupItems_spec oneProbeStore "web") _ [0%nat] eq_refl
             (proj1 (singleton_linked _ _))).
  - exact (proj1 (GetGroupItems_spec oneProbeStore "db") eq_refl).
Defined.

(** C10 as stated fails: with a bound of 0 the second entry of a group
    evicts both, the container stays, and [GetGroupItems] returns normally
    with no entry. *)
Lemma GetGroupItems_empty_container :
  GetGroupItems
    (afterAll (emptyFile 0) [metricAt "latency" day0; metricAt "latency" (day0 + hour)])
    "web" = Ok [].
Proof. by vm_compute. Qed.

(** C4 fails on the code: with a bound of 2, entries submitted at instants
    3, 1 and 2 leave one entry in the sequence, the one of instant 3. The
    entry of instant 2 is linked between the two others without the back
    pointer of its successor being set, and is cut off with it. *)
Theorem eviction_after_middle_insert :
  ∃ x, GetGroupItems
         (afterAll (emptyFile 2)
            [metricAt "latency" 3; metricAt "latency" 1; metricAt "latency" 2])
         "web" = Ok [x]
       ∧ CreatedAt x = 3.
Proof. eexists. split; by vm_compute. Qed.

End history_facts.

Module coordinator_facts.
Import history history_defs coordinator_defs.

Lemma addItem_frame file it file' it' :
  addItem file it = Ok (file', it') →
  fd file' = fd file ∧ writes file' = writes file
  ∧ maxEntries file' = maxEntries file.
Proof.
  unfold addItem.
  destruct (addToContainer _ _ _) as [[c' it'']| | |]; simpl; [|done..].
  by intros [= <- <-].
Qed.

Lemma drain_no_error marshalErr fuel collect b :
  bErr b = None → drain marshalErr fuel collect b = Ok b.
Proof.
  intros Hb. destruct fuel; simpl; rewrite Hb;
    by rewrite bool_decide_eq_false_2, andb_false_r by (by intros [? ?]).
Qed.

(** What one wake-up of the writer does, by cases. *)
Lemma bgWriter_cases marshalErr file io req q :
  writes file = req :: q →
  (∃ tr, bgWriter marshalErr file io = ([EvLock; EvPanic], None) ∧ tr = tt)
  ∨ ∃ file1 it,
      addItem (setWrites q file) (item req) = Ok (file1, it)
      ∧ ((∃ e, marshalErr it = Some e
          ∧ bgWriter marshalErr file io
            = ([EvLock; EvSend (errChan req) (Some e)], Some file1))
         ∨ (marshalErr it = None
            ∧ (bgWriter marshalErr file io
               = ([EvLock; EvCopy [encode it]; EvUnlock; EvPanic], None)
               ∧ (is_Some (copyFault io) ∨ copyN io < bufferLen io)
               ∨ bgWriter marshalErr file io
                 = ([EvLock; EvCopy [encode it]; EvUnlock;
                     EvSend (errChan req) None; EvSync],
                    Some (setFd (fd file1 ++ [encode it]) file1))
                 ∧ copyFault io = None))).
Proof.
  intros Hq. unfold bgWriter. rewrite Hq.
  destruct (addItem (setWrites q file) (item req)) as [[file1 it]| | |] eqn:Hadd;
    [|left; by exists tt..].
  right. exists file1, it. split; [done|].
  unfold writeTo. destruct (marshalErr it) as [e|] eqn:Hm.
  { left. exists e. done. }
  right. split; [done|]. rewrite drain_no_error by done. simpl.
  destruct (copyFault io) as [e|] eqn:Hcf.
  { left. rewrite bool_decide_eq_true_2 by eauto. split; [done|]. left; eauto. }
  rewrite (bool_decide_eq_false_2 (is_Some None)) by (by intros [? ?]).
  case_bool_decide.
  - left. split; [done|]. by right.
  - right. done.
Qed.

(** C1 fails on the code: the loop that should drain the queue runs while
    [collect && err != nil], and [err] is [nil] when it is reached. With two
    requests pending, one wake-up writes and acknowledges the first only;
    the second stays in the queue. *)
Theorem bgWriter_leaves_second_request :
  ∃ it file',
    bgWriter marshalOK twoPending written
    = ([EvLock; EvCopy [encode it]; EvUnlock; EvSend 1 None; EvSync], Some file')
    ∧ writes file' = [mkRequest diskMidday 2]
    ∧ GetGroupItems file' "web" = Ok [it].
Proof. eexists _, _. split; [by vm_compute|]. split; by vm_compute. Qed.

(** C2 (amended). A success is delivered to a waiter only after the whole
    batch buffer has been handed to the log file in one write that reported
    no fault; the [fsync] of that batch is issued after the waiters have
    been served, not before. *)
Theorem ack_follows_write marshalErr file io tr file' i ch :
  bgWriter marshalErr file io = (tr, file') →
  tr !! i = Some (EvSend ch None) →
  ∃ buf f',
    tr !! 1%nat = Some (EvCopy buf) ∧ (1 < i)%nat
    ∧ copyFault io = None
    ∧ file' = Some f' ∧ fd f' = fd file ++ buf
    ∧ (∀ k, tr !! k = Some EvSync → (i < k)%nat)
    ∧ last tr = Some EvSync.
Proof.
  intros Hbg Hi.
  destruct (writes file) as [|req q] eqn:Hq.
  { unfold bgWriter in Hbg. rewrite Hq in Hbg. by simplify_eq. }
  destruct (bgWriter_cases marshalErr file io req q Hq)
    as [(_ & Hp & _)|(file1 & it & Hadd & [(e & _ & Hr)|(_ & [[Hr _]|[Hr Hcf]])])];
    rewrite Hbg in *; simplify_eq.
  - by repeat (destruct i as [|i]; simplify_eq).
  - by repeat (destruct i as [|i]; simplify_eq).
  - by repeat (destruct i as [|i]; simplify_eq).
  - exists [encode it], (setFd (fd file1 ++ [encode it]) file1).
    assert (i = 3%nat) as -> by (by repeat (destruct i as [|i]; simplify_eq)).
    split; [done|]. split; [lia|]. split; [done|]. split; [done|]. split.
    { simpl. f_equal. by destruct (addItem_frame _ _ _ _ Hadd) as (-> & _). }
    split; [|done].
    intros k Hk. repeat (destruct k as [|k]; simplify_eq); lia.
Qed.

Lemma ack_follows_write_witness :
  ∃ buf, (bgWriter marshalOK twoPending written).1 !! 1%nat = Some (EvCopy buf).
Proof.
  destruct (ack_follows_write marshalOK twoPending written _ _ 3%nat 1%nat eq_refl
              eq_refl) as (buf & f' & Hcopy & _).
  by exists buf.
Defined.

(** C2 as stated fails: the waiter is served before the [fsync]. *)
Lemma ack_precedes_fsync :
  ¬ ackAfterFlush (bgWriter marshalOK twoPending written).1.
Proof.
  intros H. destruct (H 3%nat 1%nat None eq_refl) as (j & k & buf & Hjk & _ & Hk).
  assert (k = 0 ∨ k = 1 ∨ k = 2)%nat as [->|[->| ->]] by lia; by vm_compute in Hk.
Qed.

End coordinator_facts.

Module recovery_facts.
Import history history_defs history_facts coordinator_defs recovery_defs.

Implicit Types (c : dataContainer) (ls : list loc) (l : loc) (n : listNode).

(** *** Identities of the retained entries *)

Lemma entries_ids_NoDup c ls : linked c ls → NoDup (ID <$> entries c ls).
Proof.
  intros Hl. apply NoDup_alt. intros i j k Hi Hj.
  apply list_lookup_fmap_Some in Hi as (x & -> & Hx).
  apply list_lookup_fmap_Some in Hj as (y & Hxy & Hy).
  destruct (entries_lookup_inv c ls i x Hl Hx) as (li & ni & Hli & Hni & <-).
  destruct (entries_lookup_inv c ls j y Hl Hy) as (lj & nj & Hlj & Hnj & <-).
  destruct (linked_node _ _ Hl i li Hli) as (ni' & Hni' & _ & _ & Hbi).
  destruct (linked_node _ _ Hl j lj Hlj) as (nj' & Hnj' & _ & _ & Hbj).
  assert (ni' = ni) as -> by congruence. assert (nj' = nj) as -> by congruence.
  rewrite Hxy in Hbi. assert (li = lj) as -> by congruence.
  exact (NoDup_lookup ls i j lj (linked_nodup _ _ Hl) Hli Hlj).
Qed.

Lemma linked_size c ls : linked c ls → (length ls ≤ size (byID c))%nat.
Proof.
  intros Hl. rewrite <-(entries_length c ls Hl).
  rewrite <-(length_fmap ID), <-size_dom.
  rewrite <-(size_list_to_set (C:=gset string)) by by apply entries_ids_NoDup.
  apply subseteq_size. intros k Hin%elem_of_list_to_set.
  apply list_elem_of_fmap in Hin as (x & -> & Hx).
  apply list_elem_of_lookup in Hx as [i Hx].
  destruct (entries_lookup_inv c ls i x Hl Hx) as (li & ni & Hli & Hni & <-).
  destruct (linked_node _ _ Hl i li Hli) as (ni' & Hni' & _ & _ & Hbi).
  assert (ni' = ni) as -> by congruence.
  apply elem_of_dom. eauto.
Qed.

(** *** The eviction loop, whatever the back pointers *)

Lemma evict_linked fuel maxE c ls c' :
  linked c ls → evict fuel maxE c = Ok c' →
  ∃ k, linked c' (take k ls)
    ∧ entries c' (take k ls) = take k (entries c ls)
    ∧ Z.of_nat (size (byID c')) ≤ maxE.
Proof.
  revert c ls. induction fuel as [|fuel IH]; intros c ls Hl; cbn [evict].
  { case_decide; [done|]. intros [= <-]. exists (length ls).
    rewrite !take_ge by (rewrite ?entries_length; done || lia).
    split; [done|]. split; [done|]. lia. }
  case_decide as Hgt.
  2:{ intros [= <-]. exists (length ls).
      rewrite !take_ge by (rewrite ?entries_length; done || lia).
      split; [done|]. split; [done|]. lia. }
  destruct (decide (ls = [])) as [->|Hne].
  { by rewrite (dropTail_nil c Hl). }
  destruct (dropTail_linked c ls Hl Hne)
    as (c1 & k1 & d & dn & Hdrop & _ & _ & Hk1 & _ & Hl1 & _ & _ & Hsame).
  rewrite Hdrop, bind_Ok. intros Hev.
  destruct (IH c1 _ Hl1 Hev) as (k & Hl' & He' & Hs').
  rewrite take_take in Hl', He'.
  rewrite (dropTail_entries c c1 ls k1 Hl Hsame), take_take in He'.
  by exists (k `min` k1)%nat.
Qed.

(** *** An upsert, whatever the position the scan stops at *)

Lemma addToContainer_new_linked maxE c ls it id :
  linked c ls → deriveID c it = Ok id → byID c !! id = None →
  let v := withID id it in
  ∃ c5 l pos,
    (pos ≤ length ls)%nat ∧ (l ∉ ls)
    ∧ linked c5 (insertAt pos l ls)
    ∧ entries c5 (insertAt pos l ls)
      = take pos (entries c ls) ++ v :: drop pos (entries c ls)
    ∧ byID c5 = <[id := l]> (byID c)
    ∧ keeps c c5
    ∧ (∃ nl, nodes c5 !! l = Some nl ∧ value nl = v)
    ∧ addToContainer maxE c it
      = if decide (ls = []) then Ok (c5, v)
        else c' ← evict (S (size (nodes c5))) maxE c5; Ok (c', v).
Proof.
  intros Hl Hd Hid v.
  rewrite (addToContainer_new maxE c it id Hd Hid). fold v.
  assert (Hidv : byID c !! ID v = None) by done.
  destruct (allocated_spec c ls v Hl Hidv)
    as (Hl3 & Hnotin & Hnl & Hbl & He3 & _ & _ & _).
  assert (Hfresh : nodes c !! (allocated c v).1 = None).
  { apply not_elem_of_dom. apply is_fresh. }
  assert (Hby3 : byID (allocated c v).2 = <[id := (allocated c v).1]> (byID c)) by done.
  assert (Hk3 : ∀ l0, l0 ≠ (allocated c v).1 →
            nodes (allocated c v).2 !! l0 = nodes c !! l0).
  { intros l0 Hne. simpl. by rewrite lookup_insert_ne. }
  destruct (allocated c v) as [l c3] eqn:Ha. cbn [fst snd] in *.
  assert (Hh3 : head c3 = head c) by (by injection Ha as _ <-).
  assert (Ht3 : tail c3 = tail c) by (by injection Ha as _ <-).
  assert (Hfr : ∀ l0 n, nodes c !! l0 = Some n → l0 ≠ l).
  { intros l0 n Hn ->. congruence. }
  destruct (decide (ls = [])) as [->|Hne].
  { rewrite (linked_head _ _ Hl). simpl.
    exists (setTail (Some l) (setHead (Some l) c3)), l, 0%nat.
    split; [done|]. split; [done|]. split.
    { split; simpl; try done.
      - apply NoDup_singleton.
      - intros [|i] l' Hi; [|done]. simpl in Hi. simplify_eq.
        eexists. split; [done|]. done.
      - apply Hl3. }
    split; [simpl; by rewrite Hnl|]. split; [done|]. split.
    { intros l0 n Hn. exists n. simpl. rewrite Hk3 by eauto. done. }
    split; [|done]. eauto. }
  rewrite (linked_head _ _ Hl).
  destruct (ls !! 0%nat) as [h0|] eqn:Hh0;
    [|apply lookup_ge_None in Hh0; destruct ls; simpl in *; [done|lia]].
  pose proof (linked_length _ _ Hl3) as Hlen3.
  destruct (insertScan_linked c3 ls l v (S (size (nodes c3))) 0 Hl3 Hnotin Hnl)
    as [[Hi Hscan]|[[Hi (h1 & hn & Hh1 & Hhn & Hscan)]
        |(i' & p & pn & Hi & Hlt & Hp & Hpn & Hscan)]]; [lia|lia| | |].
  - (* behind all others *)
    cbn [predAt] in Hscan. rewrite Hh0 in Hscan.
    rewrite Hscan, bind_Ok. cbv beta iota.
    destruct (last ls) as [t|] eqn:Hlast; [|by apply last_None in Hlast].
    pose proof Hlast as Htl. rewrite last_lookup in Htl.
    destruct (linked_node _ _ Hl3 _ _ Htl) as (tn & Htn & _).
    rewrite (appendTail_linked c3 ls l v t tn Hl3 Hnotin Hnl Hlast Htn), bind_Ok.
    assert (Hlen : S (pred (length ls)) = length ls) by (destruct ls; simpl; [done|lia]).
    pose proof (linked_insert_after c3 ls l v _ t tn Hl3 Hnotin Hnl Hbl Htl Htn) as Hl5.
    rewrite decide_True in Hl5 by done. rewrite Hlen in Hl5.
    pose proof (entries_insert_after c3 ls l v _ t tn (Some l) Hl3 Hnotin Htl Htn) as He5.
    rewrite Hlen, He3 in He5.
    fold (linkedAfter c3 l v t tn (Some l)) in Hl5.
    exists (linkedAfter c3 l v t tn (Some l)), l, (length ls).
    split; [done|]. split; [done|]. split; [done|]. split; [done|].
    split; [done|]. split.
    { intros l0 n Hn. pose proof (Hfr _ _ Hn) as Hne0. simpl.
      destruct (decide (l0 = t)) as [->|Hnt].
      - rewrite lookup_insert_eq. eexists. split; [done|]. simpl.
        rewrite Hk3 in Htn by done. congruence.
      - rewrite !lookup_insert_ne by done. rewrite Hk3 by done. eauto. }
    split; [|done]. simpl.
    assert (t ≠ l) by (intros ->; apply Hnotin; by eapply list_elem_of_lookup_2).
    rewrite lookup_insert_ne, lookup_insert_eq by done. eauto.
  - (* in front of all others *)
    cbn [predAt] in Hscan. rewrite Hh0 in Hscan. rewrite Hscan, bind_Ok.
    cbv beta iota. rewrite bind_Ok.
    assert (h1 = h0) as -> by congruence.
    assert (Hhn0 : nodes c3 !! h0 = Some hn) by done.
    pose proof (linked_insert_head c3 ls l v h0 hn Hl3 Hnotin Hnl Hbl Hh0 Hhn0) as Hl5.
    pose proof (entries_insert_head c3 ls l v h0 hn Hnotin
                  (list_elem_of_lookup_2 _ _ _ Hh0) Hhn0) as He5.
    rewrite He3 in He5. fold (headInserted c3 l v h0 hn) in Hl5, He5.
    exists (headInserted c3 l v h0 hn), l, 0%nat.
    split; [lia|]. split; [done|]. split; [done|]. split; [done|].
    split; [done|]. split.
    { intros l0 n Hn. pose proof (Hfr _ _ Hn) as Hne0. simpl.
      destruct (decide (l0 = h0)) as [->|Hnt].
      - rewrite lookup_insert_eq. eexists. split; [done|]. simpl.
        rewrite Hk3 in Hhn0 by done. congruence.
      - rewrite !lookup_insert_ne by done. rewrite Hk3 by done. eauto. }
    split; [|done]. simpl.
    assert (h0 ≠ l) by (intros ->; apply Hnotin; by eapply list_elem_of_lookup_2).
    rewrite lookup_insert_ne, lookup_insert_eq by done. eauto.
  - (* behind the node [p] *)
    cbn [predAt] in Hscan. rewrite Hh0 in Hscan. rewrite Hscan, bind_Ok.
    cbv beta iota. rewrite bind_Ok.
    pose proof (linked_insert_after c3 ls l v _ p pn Hl3 Hnotin Hnl Hbl Hp Hpn) as Hl5.
    rewrite Nat.add_0_l in Hi, Hlt.
    rewrite decide_False in Hl5 by lia.
    pose proof (entries_insert_after c3 ls l v _ p pn (tail c3) Hl3 Hnotin Hp Hpn) as He5.
    rewrite He3 in He5.
    fold (linkedAfter c3 l v p pn (tail c3)) in Hl5.
    exists (linkedAfter c3 l v p pn (tail c3)), l, (S i').
    split; [lia|]. split; [done|]. split; [done|]. split; [done|].
    split; [done|]. split.
    { intros l0 n Hn. pose proof (Hfr _ _ Hn) as Hne0. simpl.
      destruct (decide (l0 = p)) as [->|Hnt].
      - rewrite lookup_insert_eq. eexists. split; [done|]. simpl.
        rewrite Hk3 in Hpn by done. congruence.
      - rewrite !lookup_insert_ne by done. rewrite Hk3 by done. eauto. }
    split; [|done]. simpl.
    assert (p ≠ l) by (intros ->; apply Hnotin; by eapply list_elem_of_lookup_2).
    rewrite lookup_insert_ne, lookup_insert_eq by done. eauto.
Qed.

Lemma addToContainer_replace_linked maxE c ls it l0 :
  linked c ls → Type_ it = "boolean" → byID c !! booleanID it = Some l0 →
  let v := withID (booleanID it) it in
  ∃ c', addToContainer maxE c it = Ok (c', v) ∧ linked c' ls
    ∧ byID c' = byID c
    ∧ ∀ x, x ∈ entries c' ls → x ∈ entries c ls ∨ x = v.
Proof.
  intros Hl Hty Hid v.
  destruct (linked_byID _ _ Hl _ _ Hid) as [n0 Hn0].
  rewrite (addToContainer_replace maxE c it l0 n0 Hty Hid Hn0). fold v.
  assert (Hidv : byID c !! ID v = Some l0) by done.
  pose proof (linked_set_value c ls l0 n0 v Hl Hn0 Hidv) as Hl'.
  eexists. split; [done|]. split; [done|]. split; [done|].
  intros x [k Hx]%list_elem_of_lookup.
  destruct (entries_lookup_inv _ ls k x Hl' Hx) as (lk & nk & Hlk & Hnk & <-).
  simpl in Hnk. destruct (decide (lk = l0)) as [->|Hne].
  - rewrite lookup_insert_eq in Hnk. right. by simplify_eq.
  - rewrite lookup_insert_ne in Hnk by done. left.
    eapply list_elem_of_lookup_2. by apply (entries_lookup c ls k lk nk).
Qed.

(** *** What every recovered store satisfies *)

Lemma sound_empty maxE g : sound maxE g emptyContainer.
Proof.
  exists []. split; [apply linked_empty|]. split; [left; simpl; lia|].
  apply Forall_nil_2.
Qed.

Lemma stamped_withID c it id :
  deriveID c it = Ok id → stamped (Group it) (withID id it).
Proof.
  unfold deriveID. intros Hd. split; [done|]. intros Hty.
  change (Type_ it = "boolean") in Hty.
  rewrite decide_True in Hd by done. by injection Hd as <-.
Qed.

Lemma addToContainer_sound maxE c it c' it' :
  sound maxE (Group it) c → addToContainer maxE c it = Ok (c', it') →
  sound maxE (Group it) c'.
Proof.
  intros (ls & Hl & Hsz & Hst) Hadd.
  destruct (deriveID_total c it) as [id Hd].
  pose proof (stamped_withID c it id Hd) as Hv.
  destruct (byID c !! id) as [l0|] eqn:Hid.
  - assert (Hty : Type_ it = "boolean").
    { destruct (decide (Type_ it = "boolean")) as [|Hty]; [done|].
      pose proof (deriveID_fresh c it id Hty Hd). congruence. }
    assert (id = booleanID it) as ->.
    { unfold deriveID in Hd. rewrite decide_True in Hd by done. congruence. }
    destruct (addToContainer_replace_linked maxE c ls it l0 Hl Hty Hid)
      as (c1 & Hadd1 & Hl1 & Hby1 & He1).
    rewrite Hadd1 in Hadd. injection Hadd as <- <-.
    exists ls. split; [done|]. split; [by rewrite Hby1|].
    apply Forall_forall. intros x [Hx| ->]%He1; [|done].
    by eapply Forall_forall in Hst.
  - destruct (addToContainer_new_linked maxE c ls it id Hl Hd Hid)
      as (c5 & l & pos & Hpos & Hnotin & Hl5 & He5 & Hby5 & _ & _ & Hadd5).
    rewrite Hadd5 in Hadd.
    assert (Hst5 : Forall (stamped (Group it)) (entries c5 (insertAt pos l ls))).
    { rewrite He5. apply Forall_app. split; [by apply Forall_take|].
      apply Forall_cons. split; [done|]. by apply Forall_drop. }
    destruct (decide (ls = [])) as [->|Hne].
    + injection Hadd as <- <-. exists (insertAt pos l []).
      split; [done|]. split; [|done]. left. rewrite insertAt_length. simpl. lia.
    + destruct (evict (S (size (nodes c5))) maxE c5) as [c6| | |] eqn:Hev;
        try done.
      rewrite bind_Ok in Hadd. injection Hadd as <- <-.
      destruct (evict_linked _ _ _ _ _ Hl5 Hev) as (k & Hl6 & He6 & Hs6).
      exists (take k (insertAt pos l ls)). split; [done|]. split; [by right|].
      rewrite He6. by apply Forall_take.
Qed.

Lemma addItem_sound file it file' it' :
  fileSound file → addItem file it = Ok (file', it') →
  fileSound file' ∧ maxEntries file' = maxEntries file ∧ fd file' = fd file.
Proof.
  intros Hs. unfold addItem.
  destruct (addToContainer _ _ it) as [[c' v]| | |] eqn:Hadd; try done.
  rewrite bind_Ok. intros [= <- <-]. split; [|done].
  intros g c. simpl. intros [[<- <-]|[Hne Hc]]%lookup_insert_Some.
  - eapply addToContainer_sound; [|exact Hadd].
    destruct (data file !! Group it) as [c0|] eqn:Hc0; simpl.
    + by apply Hs.
    + apply sound_empty.
  - by apply Hs.
Qed.

Lemma replay_sound file cur lines file' :
  fileSound file → replay file cur lines = Ok file' →
  fileSound file' ∧ maxEntries file' = maxEntries file ∧ fd file' = fd file.
Proof.
  revert file cur. induction lines as [|ln lines IH]; intros file cur Hs.
  { by intros [= <-]. }
  simpl. destruct (ln cur) as [cur'|]; [|done].
  destruct (addItem file cur') as [[file1 v]| | |] eqn:Hadd; try done.
  rewrite bind_Ok. intros Hr.
  destruct (addItem_sound _ _ _ _ Hs Hadd) as (Hs1 & Hm1 & Hf1).
  destruct (IH _ _ Hs1 Hr) as (Hs' & Hm' & Hf').
  split; [done|]. split; congruence.
Qed.

(** *** Identities derived anew *)

Lemma prefix_app (p s : string) : String.prefix p (p +:+ s) = true.
Proof.
  induction p as [|a p IH]; simpl; [by destruct s|].
  destruct (Ascii.ascii_dec a a); [exact IH|done].
Qed.

Lemma nextFreeID_form fuel (m : gmap string loc) p (z : Z) id :
  nextFreeID fuel m p z = Ok id → ∃ z' : Z, id = p +:+ pretty z'.
Proof.
  revert z. induction fuel as [|fuel IH]; intros z; [done|]. simpl.
  destruct (m !! (p +:+ pretty z)); [apply IH|].
  intros [= <-]. eauto.
Qed.

Lemma deriveID_rederived c it id :
  deriveID c it = Ok id → rederived it (withID id it).
Proof.
  unfold deriveID, rederived, isBoolean. intros Hd. exists id. split; [done|].
  case_decide as Hty.
  - rewrite bool_decide_eq_true_2 by done. congruence.
  - rewrite bool_decide_eq_false_2 by done. by eapply nextFreeID_form.
Qed.

Lemma rederived_submitted x x' : rederived x x' → submitted x' = submitted x.
Proof. by intros (id & -> & _). Qed.

Lemma rebuilt_empty : rebuilt emptyContainer [].
Proof.
  exists [], []. split; [apply linked_empty|]. split; [by intros k l Hk|].
  split; [done|]. split; [apply Forall2_nil_2|done].
Qed.

(** *** One entry of the compacted log is read back *)

Lemma addToContainer_rebuilt maxE c done x :
  rebuilt c done → apart done x →
  done = [] ∨ Z.of_nat (S (length done)) ≤ maxE →
  ∃ c' x', addToContainer maxE c x = Ok (c', x') ∧ rebuilt c' (done ++ [x]).
Proof.
  intros (ls & done' & Hl & Hf & Hperm & Hre & Hsz) Hap Hroom.
  destruct (deriveID_total c x) as [id Hd].
  pose proof (deriveID_rederived c x id Hd) as Hv.
  assert (Hlen : length ls = length done).
  { rewrite <-(entries_length c ls Hl), Hperm. symmetry.
    by eapply Forall2_length. }
  assert (Hid : byID c !! id = None).
  { destruct (decide (Type_ x = "boolean")) as [Hty|Hty];
      [|by eapply deriveID_fresh].
    assert (id = booleanID x) as ->.
    { unfold deriveID in Hd. rewrite decide_True in Hd by done. congruence. }
    destruct (byID c !! booleanID x) as [l0|] eqn:Hb; [exfalso|done].
    destruct (Hf _ _ Hb) as ([Hin|?] & n & Hn & Hidn); [|done].
    apply list_elem_of_lookup in Hin as [i Hi].
    pose proof (entries_lookup c ls i l0 n Hl Hi Hn) as He.
    apply list_elem_of_lookup_2 in He. rewrite Hperm in He.
    apply list_elem_of_lookup in He as [j Hj].
    destruct (Forall2_lookup_r _ _ _ _ _ Hre Hj) as (y & Hy & idy & Hyv & Hidy).
    apply list_elem_of_lookup_2 in Hy. destruct (Hap y Hy) as [Hcl Hdiff].
    rewrite Hyv in Hidn. simpl in Hidn. subst idy.
    assert (Hbx : isBoolean x = true) by (by apply bool_decide_eq_true_2).
    destruct (isBoolean y) eqn:Hby.
    - apply Hdiff; by rewrite ?Hbx.
    - destruct Hidy as [z Hz]. unfold clash in Hcl.
      rewrite Hbx, Hby, Hz, prefix_app in Hcl. done. }
  destruct (addToContainer_new_linked maxE c ls x id Hl Hd Hid)
    as (c5 & l & pos & Hpos & Hnotin & Hl5 & He5 & Hby5 & Hk5
        & (nl & Hnl & Hvl) & Hadd5).
  assert (Hsz5 : size (byID c5) = S (length done)).
  { rewrite Hby5, map_size_insert_None by done. by rewrite Hsz. }
  assert (Hre5 : rebuilt c5 (done ++ [x])).
  { exists (insertAt pos l ls), (done' ++ [withID id x]).
    split; [done|]. split.
    { intros k l0 Hk. rewrite Hby5 in Hk.
      apply lookup_insert_Some in Hk as [[<- <-]|[Hne Hk]].
      - split; [left; rewrite insertAt_perm; by left|].
        exists nl. split; [done|]. by rewrite Hvl.
      - destruct (Hf _ _ Hk) as ([Hin|?] & n & Hn & Hidn); [|done].
        split; [left; rewrite insertAt_perm; by right|].
        destruct (Hk5 _ _ Hn) as (n' & Hn' & Hvn). exists n'.
        split; [done|]. by rewrite Hvn. }
    split.
    { rewrite He5, <-Permutation_middle, <-Permutation_cons_append.
      apply Permutation_skip. by rewrite take_drop. }
    split; [|by rewrite length_app, Hsz5; simpl; lia].
    apply Forall2_app; [done|]. by repeat constructor. }
  rewrite Hadd5. destruct (decide (ls = [])) as [->|Hne]; [eauto|].
  assert (Hroom' : Z.of_nat (S (length done)) ≤ maxE).
  { destruct Hroom as [->|?]; [|done]. by destruct ls. }
  cbn [evict]. rewrite decide_False by (rewrite Hsz5; lia).
  rewrite bind_Ok. eauto.
Qed.

(** *** A whole container is read back *)

Lemma addEach_rebuilt maxE todo c done :
  rebuilt c done →
  (∀ i x, todo !! i = Some x → apart (done ++ take i todo) x) →
  (length (done ++ todo) ≤ 1)%nat ∨ Z.of_nat (length (done ++ todo)) ≤ maxE →
  ∃ c', addEach maxE c todo = Ok c' ∧ rebuilt c' (done ++ todo).
Proof.
  revert c done. induction todo as [|x todo IH]; intros c done Hre Hap Hroom.
  { rewrite app_nil_r. simpl. eauto. }
  assert (Hx : apart done x).
  { specialize (Hap 0%nat x eq_refl). by rewrite app_nil_r in Hap. }
  assert (Hroom1 : done = [] ∨ Z.of_nat (S (length done)) ≤ maxE).
  { rewrite length_app in Hroom. simpl in Hroom.
    destruct Hroom as [Hle|Hle]; [left; destruct done; simpl in *; [done|lia]|].
    right. lia. }
  destruct (addToContainer_rebuilt maxE c done x Hre Hx Hroom1)
    as (c1 & x1 & Hadd & Hre1).
  simpl. rewrite Hadd, bind_Ok.
  rewrite (cons_middle x done todo), app_assoc.
  apply IH; [done| |by rewrite <-app_assoc].
  intros i y Hy. rewrite <-app_assoc. apply (Hap (S i) y Hy).
Qed.

(** The entries of a container of the first store can be told apart. *)
Lemma apart_entries g c ls i x :
  linked c ls → Forall (stamped g) (entries c ls) →
  clashFree (entries c ls) = true → entries c ls !! i = Some x →
  apart (take i (entries c ls)) x.
Proof.
  intros Hl Hst Hcf Hx y Hy.
  apply elem_of_take in Hy as (j & Hj & Hji).
  unfold clashFree in Hcf. rewrite forallb_forall in Hcf.
  split.
  - specialize (Hcf x). rewrite forallb_forall in Hcf.
    apply negb_true_iff, Hcf.
    + apply list_elem_of_In. by eapply list_elem_of_lookup_2.
    + apply list_elem_of_In. by eapply list_elem_of_lookup_2.
  - intros Hbx%Is_true_true%bool_decide_eq_true Hby%Is_true_true%bool_decide_eq_true Heq.
    rewrite Forall_lookup in Hst.
    destruct (Hst i x Hx) as [_ Hix]. destruct (Hst j y Hj) as [_ Hiy].
    rewrite <-(Hix Hbx), <-(Hiy Hby) in Heq.
    pose proof (entries_ids_NoDup c ls Hl) as Hnd.
    assert (j = i); [|lia].
    apply (NoDup_lookup _ j i (ID y) Hnd).
    + by rewrite list_lookup_fmap, Hj.
    + by rewrite list_lookup_fmap, Hx, Heq.
Qed.

Lemma rebuilt_linked c es :
  rebuilt c es →
  ∃ ls es', linked c ls ∧ entries c ls ≡ₚ es' ∧ Forall2 rederived es es'.
Proof. intros (ls & es' & Hl & _ & Hp & Hre & _). eauto. Qed.

(** A container of the first store, written out and read into an empty
    container. *)
Lemma addEach_entries maxE g c ls :
  linked c ls → Forall (stamped g) (entries c ls) →
  (length ls ≤ 1)%nat ∨ Z.of_nat (size (byID c)) ≤ maxE →
  clashFree (entries c ls) = true →
  ∃ c', addEach maxE emptyContainer (entries c ls) = Ok c'
    ∧ rebuilt c' (entries c ls).
Proof.
  intros Hl Hst Hsz Hcf.
  apply (addEach_rebuilt maxE (entries c ls) emptyContainer []).
  - apply rebuilt_empty.
  - intros i x Hx. by eapply apart_entries.
  - simpl. rewrite entries_length by done.
    pose proof (linked_size c ls Hl). destruct Hsz; [by left|right; lia].
Qed.

(** *** The log as a whole *)

Lemma replay_encode file cur its :
  replay file cur (encode <$> its) = addAll file its.
Proof.
  revert file cur. induction its as [|it its IH]; intros file cur; [done|].
  simpl. destruct (addItem file it) as [[file1 v]| | |]; try done.
  rewrite !bind_Ok. apply IH.
Qed.

Lemma filter_all {A} (P : A → Prop) `{∀ x, Decision (P x)} (l : list A) :
  (∀ x, x ∈ l → P x) → filter P l = l.
Proof.
  induction l as [|a l IH]; intros Hall; [done|].
  rewrite filter_cons_True by (apply Hall; by left).
  f_equal. apply IH. intros x Hx. apply Hall. by right.
Qed.

Lemma filter_none {A} (P : A → Prop) `{∀ x, Decision (P x)} (l : list A) :
  (∀ x, x ∈ l → ¬ P x) → filter P l = [].
Proof.
  induction l as [|a l IH]; intros Hall; [done|].
  rewrite filter_cons_False by (apply Hall; by left).
  apply IH. intros x Hx. apply Hall. by right.
Qed.

Lemma filter_concat_groups (f : string → list Item) groups g :
  NoDup groups → (∀ g' x, x ∈ f g' → Group x = g') →
  filter (λ x, Group x = g) (concat (f <$> groups))
  = if decide (g ∈ groups) then f g else [].
Proof.
  intros Hnd Hf. induction groups as [|g' gs IH]; [done|].
  apply NoDup_cons in Hnd as [Hnotin Hnd]. specialize (IH Hnd).
  rewrite fmap_cons, concat_cons, filter_app, IH.
  destruct (decide (g' = g)) as [->|Hne].
  - rewrite filter_all by (intros x Hx; by eapply Hf).
    rewrite decide_False by done. rewrite app_nil_r.
    by rewrite decide_True by (by left).
  - rewrite filter_none
      by (intros x Hx Hg; apply Hne; rewrite <-Hg; symmetry; by eapply Hf).
    simpl. destruct (decide (g ∈ gs)) as [Hin|Hin].
    + by rewrite decide_True by (by right).
    + rewrite decide_False; [done|]. intros [?|?]%elem_of_cons; by simplify_eq.
Qed.

(** The entries of one group meet the entries of no other on their way
    through the store. *)
Lemma addAll_groups its file :
  (∀ g, ∃ c', addEach (maxEntries file)
                (default emptyContainer (data file !! g))
                (filter (λ x, Group x = g) its) = Ok c') →
  ∃ file', addAll file its = Ok file'
    ∧ maxEntries file' = maxEntries file ∧ fd file' = fd file
    ∧ ∀ g c', addEach (maxEntries file)
                (default emptyContainer (data file !! g))
                (filter (λ x, Group x = g) its) = Ok c' →
        data file' !! g
        = if decide (filter (λ x, Group x = g) its = []) then data file !! g
          else Some c'.
Proof.
  revert file. induction its as [|it its IH]; intros file Hall.
  { exists file. by split_and!. }
  destruct (Hall (Group it)) as [c0 Hc0].
  rewrite filter_cons_True in Hc0 by done. cbn [addEach] in Hc0.
  destruct (addToContainer _ _ it) as [[c1 v]| | |] eqn:Hadd; try done.
  rewrite bind_Ok in Hc0.
  cbn [addAll]. rewrite (addItem_container file it c1 v Hadd), bind_Ok.
  set (file1 := setData (<[Group it := c1]> (data file)) file).
  destruct (IH file1) as (file' & Hrun & Hm & Hfd & Hdata).
  { intros g. simpl. destruct (decide (g = Group it)) as [->|Hne].
    - rewrite lookup_insert_eq. simpl. eauto.
    - rewrite lookup_insert_ne by done. destruct (Hall g) as [c' Hc'].
      rewrite filter_cons_False in Hc' by done. eauto. }
  exists file'. split; [done|]. split; [done|]. split; [done|].
  intros g c' Hc'. destruct (decide (g = Group it)) as [->|Hne].
  - rewrite filter_cons_True in Hc' |- * by done. cbn [addEach] in Hc'.
    rewrite Hadd, bind_Ok in Hc'. rewrite decide_False by done.
    specialize (Hdata (Group it) c'). simpl in Hdata.
    rewrite lookup_insert_eq in Hdata. simpl in Hdata.
    rewrite (Hdata Hc'). case_decide as Hnil; [|done].
    rewrite Hnil in Hc'. simpl in Hc'. congruence.
  - rewrite filter_cons_False in Hc' |- * by done.
    specialize (Hdata g c'). simpl in Hdata.
    rewrite lookup_insert_ne in Hdata by done. exact (Hdata Hc').
Qed.

(** *** What the readers yield *)

Lemma retained_linked file g c ls :
  data file !! g = Some c → linked c ls → retained file g = entries c ls.
Proof.
  intros Hc Hl. unfold retained, GetGroupItems.
  by rewrite Hc, (items_linked c ls Hl).
Qed.

Lemma retained_None file g : data file !! g = None → retained file g = [].
Proof. intros Hc. unfold retained, GetGroupItems. by rewrite Hc. Qed.

Lemma retained_data file file' g :
  data file = data file' → retained file g = retained file' g.
Proof. intros Hd. unfold retained, GetGroupItems. by rewrite Hd. Qed.

Lemma GetGroups_elem file g : g ∈ GetGroups file ↔ is_Some (data file !! g).
Proof.
  unfold GetGroups. rewrite list_elem_of_fmap. split.
  - intros ([g' c] & -> & Hin%elem_of_map_to_list). simpl. eauto.
  - intros [c Hc]. exists (g, c). split; [done|]. by apply elem_of_map_to_list.
Qed.

Lemma GetGroups_NoDup file : NoDup (GetGroups file).
Proof. apply NoDup_fst_map_to_list. Qed.

(** *** Compaction *)

Section compaction.
Variable marshalErr : Item → option string.

Lemma writeAll_spec its out out' :
  writeAll marshalErr its out = Ok out' →
  out' = out ++ (encode <$> its) ∧ Forall (λ it, marshalErr it = None) its.
Proof.
  revert out. induction its as [|it its IH]; intros out; simpl.
  { intros [= <-]. by rewrite app_nil_r. }
  unfold writeTo. destruct (marshalErr it) eqn:Hm; [done|].
  intros (-> & Hall)%IH. rewrite <-app_assoc. split; [done|].
  by apply Forall_cons.
Qed.

Lemma writeAll_total its out :
  Forall (λ it, marshalErr it = None) its →
  writeAll marshalErr its out = Ok (out ++ (encode <$> its)).
Proof.
  revert out. induction its as [|it its IH]; intros out Hall; simpl.
  { by rewrite app_nil_r. }
  apply Forall_cons in Hall as [Hm Hall]. unfold writeTo. rewrite Hm.
  rewrite IH by done. by rewrite <-app_assoc.
Qed.

Lemma compact_spec file groups out out' :
  compact marshalErr file groups out = Ok out' →
  out' = out ++ (encode <$> concat (retained file <$> groups))
  ∧ Forall (λ it, marshalErr it = None) (concat (retained file <$> groups)).
Proof.
  revert out. induction groups as [|g gs IH]; intros out; simpl.
  { intros [= <-]. by rewrite app_nil_r. }
  unfold retained at 1 3.
  destruct (GetGroupItems file g) as [its| | |]; try done. rewrite bind_Ok.
  destruct (writeAll marshalErr its out) as [out1| | |] eqn:Hw; try done.
  rewrite bind_Ok. apply writeAll_spec in Hw as [-> Hits].
  intros (-> & Hall)%IH. rewrite fmap_app, app_assoc. split; [done|].
  by apply Forall_app.
Qed.

Lemma compact_total file groups out :
  (∀ g, g ∈ groups →
     ∃ its, GetGroupItems file g = Ok its
       ∧ Forall (λ it, marshalErr it = None) its) →
  ∃ out', compact marshalErr file groups out = Ok out'.
Proof.
  revert out. induction groups as [|g gs IH]; intros out Hall; simpl; [eauto|].
  destruct (Hall g) as (its & -> & Hits); [by left|].
  rewrite bind_Ok, (writeAll_total its out Hits), bind_Ok.
  apply IH. intros g' Hg'. apply Hall. by right.
Qed.

Lemma New_inv options disk groups io store1 :
  New marshalErr options disk groups io = Ok store1 →
  ∃ file1,
    replay (mkFile disk [] ∅ (MaxEntries options)) zeroItem disk = Ok file1
    ∧ data store1 = data file1 ∧ maxEntries store1 = maxEntries file1
    ∧ ((size (data file1) = 0%nat ∧ fd store1 = fd file1)
       ∨ ((0 < size (data file1))%nat
          ∧ compact marshalErr file1 groups [] = Ok (fd store1))).
Proof.
  unfold New. destruct (openErr io); [done|]. simpl.
  case_decide; [done|]. destruct (chanPanics io); [done|].
  destruct (replay _ zeroItem disk) as [file1| | |]; try done.
  rewrite bind_Ok. intros Hnew. exists file1. split; [done|].
  case_decide as Hsz.
  - destruct (compact marshalErr file1 groups []) as [wb| | |]; try done.
    rewrite bind_Ok in Hnew.
    destruct (truncateErr io), (seekErr io), (copyErr io), (syncErr io);
      try done.
    simpl in Hnew. injection Hnew as <-.
    split; [done|]. split; [done|]. by right.
  - injection Hnew as <-. split; [done|]. split; [done|].
    left. split; [lia|done].
Qed.

Lemma New_capacity options disk groups io store1 :
  New marshalErr options disk groups io = Ok store1 →
  0 ≤ MaxConcurrentWrites options.
Proof.
  unfold New. destruct (openErr io); [done|]. simpl.
  case_decide; [done|]. lia.
Qed.

Lemma New_noFaults options disk groups file :
  0 ≤ MaxConcurrentWrites options →
  replay (mkFile disk [] ∅ (MaxEntries options)) zeroItem disk = Ok file →
  (size (data file) = 0%nat
   ∨ ∃ wb, compact marshalErr file groups [] = Ok wb) →
  ∃ store, New marshalErr options disk groups noFaults = Ok store
    ∧ data store = data file.
Proof.
  intros Hk Hr Hc. unfold New. simpl. rewrite decide_False by lia.
  rewrite Hr, bind_Ok. case_decide as Hsz.
  - destruct Hc as [?|[wb Hwb]]; [lia|]. rewrite Hwb, bind_Ok. simpl. eauto.
  - eauto.
Qed.

End compaction.

(** *** The compacted log is read back *)

Lemma retained_group store1 g x :
  fileSound store1 → x ∈ retained store1 g → Group x = g.
Proof.
  intros Hs Hx. destruct (data store1 !! g) as [c|] eqn:Hc.
  - destruct (Hs g c Hc) as (ls & Hl & _ & Hst).
    rewrite (retained_linked store1 g c ls Hc Hl) in Hx.
    rewrite Forall_forall in Hst. by destruct (Hst x Hx).
  - rewrite (retained_None store1 g Hc) in Hx. by apply elem_of_nil in Hx.
Qed.

Lemma recover_again store1 groups wb :
  fileSound store1 → groups ≡ₚ GetGroups store1 → noClash store1 = true →
  ∃ file2,
    addAll (mkFile wb [] ∅ (maxEntries store1))
      (concat (retained store1 <$> groups)) = Ok file2
    ∧ ∀ g, match data file2 !! g with
           | Some c' => g ∈ groups ∧ rebuilt c' (retained store1 g)
           | None => retained store1 g = []
           end.
Proof.
  intros Hs Hgroups Hnc.
  set (its := concat (retained store1 <$> groups)).
  set (file0 := mkFile wb [] ∅ (maxEntries store1)).
  assert (Hnd : NoDup groups).
  { rewrite Hgroups. apply GetGroups_NoDup. }
  assert (Hfilter : ∀ g, filter (λ x, Group x = g) its
            = if decide (g ∈ groups) then retained store1 g else []).
  { intros g. apply filter_concat_groups; [done|].
    intros g' x Hx. by eapply retained_group. }
  assert (Hout : ∀ g, g ∉ groups → retained store1 g = []).
  { intros g Hg. apply retained_None.
    destruct (data store1 !! g) eqn:Hc; [|done].
    exfalso. apply Hg. rewrite Hgroups. apply GetGroups_elem. eauto. }
  assert (Hgrp : ∀ g, ∃ c',
            addEach (maxEntries file0)
              (default emptyContainer (data file0 !! g))
              (filter (λ x, Group x = g) its) = Ok c'
            ∧ rebuilt c' (retained store1 g)).
  { intros g. rewrite Hfilter. simpl. rewrite lookup_empty. simpl.
    destruct (decide (g ∈ groups)) as [Hin|Hin].
    - rewrite Hgroups in Hin. pose proof Hin as [c Hc]%GetGroups_elem.
      destruct (Hs g c Hc) as (ls & Hl & Hsz & Hst).
      rewrite (retained_linked store1 g c ls Hc Hl).
      apply (addEach_entries _ g); try done.
      unfold noClash in Hnc. rewrite forallb_forall in Hnc.
      specialize (Hnc g). rewrite (retained_linked store1 g c ls Hc Hl) in Hnc.
      apply Hnc. by apply list_elem_of_In.
    - rewrite (Hout g Hin). exists emptyContainer. split; [done|].
      apply rebuilt_empty. }
  destruct (addAll_groups its file0) as (file2 & Hrun & _ & _ & Hdata).
  { intros g. destruct (Hgrp g) as (c' & Hc' & _). eauto. }
  exists file2. split; [done|]. intros g.
  destruct (Hgrp g) as (c' & Hc' & Hre). rewrite (Hdata g c' Hc').
  rewrite Hfilter. destruct (decide (g ∈ groups)) as [Hin|Hin].
  - case_decide as Hnil; [|done].
    unfold file0. simpl. by rewrite lookup_empty.
  - rewrite decide_True by done. unfold file0. simpl. rewrite lookup_empty.
    by apply Hout.
Qed.

(** C6 (amended). Let [New] succeed on a log and yield
    the store [store1], [groups] being the order in which the map of the
    groups yielded its keys when the log was compacted.  If the identity of
    no retained boolean entry begins like the identities tried for a
    retained entry of its group that is not boolean, and whether an entry
    can be serialized does not depend on its identity, then [New] succeeds
    on the compacted log that [Close] leaves behind, whatever the order in
    which the second map yields its keys, as long as no file operation
    fails; and for every group the second store retains the entries of the
    first, up to their order and to the identities derived for them. *)
Theorem recovery_up_to_identity marshalErr options disk groups io store1 :
  New marshalErr options disk groups io = Ok store1 →
  groups ≡ₚ GetGroups store1 →
  noClash store1 = true →
  (∀ it id, marshalErr (withID id it) = marshalErr it) →
  ∃ keys2, ∀ groups2, groups2 ≡ₚ keys2 →
    ∃ store2,
      New marshalErr options (Close store1) groups2 noFaults = Ok store2
      ∧ GetGroups store2 ≡ₚ keys2
      ∧ ∀ g, submitted <$> retained store2 g
             ≡ₚ submitted <$> retained store1 g.
Proof.
  intros Hnew Hgroups Hnc Hmarshal.
  pose proof (New_capacity marshalErr options disk groups io store1 Hnew)
    as Hcap.
  destruct (New_inv marshalErr options disk groups io store1 Hnew)
    as (file1 & Hr1 & Hd1 & Hm1 & Hcase).
  assert (Hs0 : fileSound (mkFile disk [] ∅ (MaxEntries options))).
  { intros g c Hc. simpl in Hc. by rewrite lookup_empty in Hc. }
  destruct (replay_sound _ _ _ _ Hs0 Hr1) as (Hs1 & HmaxE & Hfd1).
  simpl in HmaxE, Hfd1.
  destruct Hcase as [[Hsz Hfd]|[Hsz Hcompact]].
  { (* nothing was read: the log is left as it is *)
    exists (GetGroups file1). intros groups2 Hg2.
    unfold Close. rewrite Hfd, Hfd1.
    destruct (New_noFaults marshalErr options disk groups2 file1 Hcap Hr1)
      as (store2 & Hnew2 & Hd2); [by left|].
    exists store2. split; [done|]. split; [unfold GetGroups; by rewrite Hd2|].
    intros g. rewrite (retained_data store2 store1 g) by congruence. done. }
  assert (Hs : fileSound store1).
  { intros g c Hc. rewrite Hm1. apply Hs1. by rewrite <-Hd1. }
  apply compact_spec in Hcompact as [Hwb Hall].
  assert (Hret : retained file1 <$> groups = retained store1 <$> groups).
  { apply list_fmap_ext. intros _ g _. by apply retained_data. }
  rewrite Hret in Hwb, Hall. simpl in Hwb.
  destruct (recover_again store1 groups (fd store1) Hs Hgroups Hnc)
    as (file2 & Hrun & Hdata).
  assert (Hr2 : replay (mkFile (Close store1) [] ∅ (MaxEntries options))
                  zeroItem (Close store1) = Ok file2).
  { unfold Close. rewrite Hwb at 2. rewrite replay_encode.
    rewrite <-HmaxE, <-Hm1. exact Hrun. }
  assert (Hview : ∀ g c', data file2 !! g = Some c' →
            ∃ ls es', g ∈ groups ∧ linked c' ls ∧ entries c' ls ≡ₚ es'
              ∧ Forall2 rederived (retained store1 g) es').
  { intros g c' Hc'. specialize (Hdata g). rewrite Hc' in Hdata.
    destruct Hdata as [Hin Hre].
    destruct (rebuilt_linked _ _ Hre) as (ls & es' & Hl & Hp & Hf). eauto 10. }
  exists (GetGroups file2). intros groups2 Hg2.
  destruct (New_noFaults marshalErr options (Close store1) groups2 file2
              Hcap Hr2) as (store2 & Hnew2 & Hd2).
  { right. apply compact_total. intros g Hg. rewrite Hg2 in Hg.
    apply GetGroups_elem in Hg as [c' Hc'].
    destruct (Hview g c' Hc') as (ls & es' & Hin & Hl & Hp & Hf).
    exists (entries c' ls). split.
    { unfold GetGroupItems. rewrite Hc'. by apply items_linked. }
    rewrite Hp. apply Forall_forall. intros x' [j Hj]%list_elem_of_lookup.
    destruct (Forall2_lookup_r _ _ _ _ _ Hf Hj) as (x & Hx & id & -> & _).
    rewrite Hmarshal. rewrite Forall_forall in Hall. apply Hall.
    apply list_elem_of_In, in_concat. exists (retained store1 g).
    split; apply list_elem_of_In; [|by eapply list_elem_of_lookup_2].
    apply list_elem_of_fmap. eauto. }
  exists store2. split; [done|]. split; [unfold GetGroups; by rewrite Hd2|].
  intros g. rewrite (retained_data store2 file2 g Hd2).
  specialize (Hdata g). destruct (data file2 !! g) as [c'|] eqn:Hc'.
  - destruct (Hview g c' Hc') as (ls & es' & Hin & Hl & Hp & Hf).
    rewrite (retained_linked file2 g c' ls Hc' Hl), Hp.
    replace (submitted <$> es') with (submitted <$> retained store1 g); [done|].
    clear -Hf. induction Hf as [|x x' es es' Hx Hf IH]; [done|].
    by rewrite !fmap_cons, IH, (rederived_submitted x x' Hx).
  - by rewrite Hdata, (retained_None file2 g Hc').
Qed.

Lemma recovery_up_to_identity_witness :
  ∃ keys2, ∀ groups2, groups2 ≡ₚ keys2 →
    ∃ store2,
      New marshalOK roomy (Close mixedStore) groups2 noFaults = Ok store2
      ∧ GetGroups store2 ≡ₚ keys2
      ∧ ∀ g, submitted <$> retained store2 g
             ≡ₚ submitted <$> retained mixedStore g.
Proof.
  apply (recovery_up_to_identity marshalOK roomy mixedLog ["web"] noFaults
           mixedStore).
  - vm_compute. reflexivity.
  - vm_compute. reflexivity.
  - vm_compute. reflexivity.
  - intros it id. reflexivity.
Defined.

(** C6 as stated fails: the two measurements of one instant come back
    under each other's identity. *)
Lemma recovery_swaps_identities :
  New marshalOK roomy twinLog ["web"] noFaults = Ok twinStore
  ∧ New marshalOK roomy (Close twinStore) ["web"] noFaults = Ok twinStoreAgain
  ∧ retained twinStore "web"
    = [withID (metricPrefix latencyB +:+ "1") latencyB;
       withID (metricPrefix latencyA +:+ "0") latencyA]
  ∧ retained twinStoreAgain "web"
    = [withID (metricPrefix latencyA +:+ "1") latencyA;
       withID (metricPrefix latencyB +:+ "0") latencyB]
  ∧ ¬ (retained twinStoreAgain "web" ≡ₚ retained twinStore "web").
Proof.
  assert (H1 : retained twinStore "web"
    = [withID (metricPrefix latencyB +:+ "1") latencyB;
       withID (metricPrefix latencyA +:+ "0") latencyA])
    by (vm_compute; reflexivity).
  assert (H2 : retained twinStoreAgain "web"
    = [withID (metricPrefix latencyA +:+ "1") latencyA;
       withID (metricPrefix latencyB +:+ "0") latencyB])
    by (vm_compute; reflexivity).
  split; [vm_compute; reflexivity|]. split; [vm_compute; reflexivity|].
  split; [done|]. split; [done|].
  rewrite H1, H2. intros Hp.
  assert (Hin : withID (metricPrefix latencyA +:+ "1") latencyA
                ∈ [withID (metricPrefix latencyB +:+ "1") latencyB;
                   withID (metricPrefix latencyA +:+ "0") latencyA]).
  { rewrite <-Hp. by left. }
  rewrite !elem_of_cons, elem_of_nil in Hin.
  destruct Hin as [Hin|[Hin|[]]]; vm_compute in Hin; discriminate Hin.
Qed.

End recovery_facts.

Module checker_facts.
Import checker checker_defs.

Section executor.
Context {float64 : Type} (zero : float64)
        (ParseFloat : string → float64 + string) (TrimSpace : string → string).

Abbreviation check := (check float64 zero ParseFloat TrimSpace).
Abbreviation retry := (retry float64 zero ParseFloat TrimSpace).
Abbreviation Check := (Check float64 zero ParseFloat TrimSpace).
Abbreviation Item := (Item float64).

Lemma attempts_app tr1 tr2 : attempts (tr1 ++ tr2) = (attempts tr1 + attempts tr2)%nat.
Proof.
  induction tr1 as [|[]]; simpl; auto.
Qed.

Lemma attempts_attemptSteps d i k : attempts (attemptSteps d i k) = k.
Proof.
  revert i; induction k as [|k IH]; intros i; simpl; [done|].
  rewrite attempts_app. simpl. rewrite IH. by case_bool_decide.
Qed.

(** The loop of [Check], started at attempt [i] with [n] iterations left. *)
Lemma retry_spec c w n i item0 :
  ∃ k, (k ≤ n)%nat ∧
    ((retry c w n i item0).2 = attemptSteps (RetryInterval c) i k
       ∧ ((k < n)%nat → (0 < k)%nat ∧ iStatus (retry c w n i item0).1 ≠ "unhealthy")
     ∨ (retry c w n i item0).2
         = attemptSteps (RetryInterval c) i k ++ [Wait (RetryInterval c); Closed]
       ∧ (k < n)%nat ∧ (0 < i + k)%nat ∧ closing w (i + k)%nat = true) ∧
    (k = 0%nat → (retry c w n i item0).1 = item0) ∧
    ((0 < k)%nat → (retry c w n i item0).1 = check c (runs w (i + k - 1)%nat)) ∧
    (∀ j, (j < k - 1)%nat → iStatus (check c (runs w (i + j)%nat)) = "unhealthy") ∧
    ((∀ j, closing w j = false) → (retry c w n i item0).2 = attemptSteps (RetryInterval c) i k).
Proof.
  revert i item0. induction n as [|n IH]; intros i item0.
  { exists 0%nat. simpl. split; [lia|]. split; [left; split; [done|lia]|].
    repeat split; try done; intros; lia. }
  simpl.
  destruct (bool_decide (0 < i)%nat && closing w i) eqn:Hcl.
  { apply andb_true_iff in Hcl as [Hi Hc]. apply bool_decide_eq_true in Hi.
    exists 0%nat. simpl. split; [lia|]. split.
    { right. rewrite Nat.add_0_r. repeat split; auto; lia. }
    repeat split; try done; try (intros; lia).
    intros Hno. rewrite Hno in Hc. done. }
  destruct (decide (iStatus (check c (runs w i)) ≠ "unhealthy")) as [Hst|Hst].
  { exists 1%nat. simpl. split; [lia|]. split.
    { left. split; [done|]. intros _. split; [lia|done]. }
    repeat split; try done; try (intros; lia).
    intros _. f_equal. f_equal. lia. }
  apply dec_stable in Hst.
  destruct (IH (S i) (check c (runs w i))) as (k & Hk & Htr & H0 & H1 & Hun & Hnc).
  destruct (retry c w n (S i) (check c (runs w i))) as [item' tr] eqn:Hr.
  cbn [fst snd] in *. exists (S k). split; [lia|]. split.
  { destruct Htr as [[Htr Hlt]|(Htr & ? & ? & ?)]; subst tr.
    - left. split; [done|]. intros ?. split; [lia|]. apply Hlt. lia.
    - right. split; [cbn [attemptSteps]; by rewrite <-app_assoc|]. split; [lia|]. split; [lia|].
      by replace (i + S k)%nat with (S i + k)%nat by lia. }
  split; [intros; lia|]. split.
  { intros _. destruct k as [|k].
    - rewrite H0 by done. f_equal. f_equal. lia.
    - rewrite H1 by lia. f_equal. f_equal. lia. }
  split.
  { intros [|j] Hj.
    - by rewrite Nat.add_0_r.
    - replace (i + S j)%nat with (S i + j)%nat by lia. apply Hun. lia. }
  intros Hno. by rewrite (Hnc Hno).
Qed.

(** C7. A metric probe whose command exits with status zero is healthy,
    with the parsed number as its metric, when the trimmed standard output
    parses as a floating-point number, and unhealthy with a non-empty error
    otherwise. *)
Theorem check_metric_zero_exit c ex :
  Type_ c = "metric" → runErr ex = None →
  match ParseFloat (TrimSpace (stdout ex)) with
  | inl n =>
      iStatus (check c ex) = "healthy" ∧ iMetric (check c ex) = n
      ∧ iError (check c ex) = ""
  | inr e =>
      iStatus (check c ex) = "unhealthy" ∧ iError (check c ex) ≠ ""
      ∧ iError (check c ex) = "Failed to parse metric from output: " +:+ e
  end.
Proof.
  intros Hty Hrun. unfold checker.check. rewrite Hrun.
  destruct (decide (Type_ c = "metric")) as [_|]; [|done].
  destruct (ParseFloat _) as [n|e]; simpl; done.
Qed.

(** C8 (amended). For a probe whose [MaxRetries] is not negative, [Check]
    runs the command [k] times with [1 ≤ k ≤ MaxRetries] (0 counting as 1),
    first without waiting and then after a wait of [RetryInterval] each; all
    attempts but the last were unhealthy, and the entry returned is the one
    of the last attempt. Without a close signal the loop ends only on an
    attempt that is not unhealthy or after [MaxRetries] attempts, so a
    command that always fails is run exactly [MaxRetries] times and the
    entry returned is unhealthy. *)
Theorem Check_retries c w :
  0 ≤ MaxRetries c →
  let c' := New c in
  let d := RetryInterval c' in
  let r := Check c' w in
  ∃ k, (1 ≤ k ≤ Z.to_nat (MaxRetries c'))%nat ∧
    attempts r.2 = k ∧
    (r.2 = attemptSteps d 0 k ∨ r.2 = attemptSteps d 0 k ++ [Wait d; Closed]) ∧
    r.1 = check c' (runs w (k - 1)%nat) ∧
    (∀ j, (j < k - 1)%nat → iStatus (check c' (runs w j)) = "unhealthy") ∧
    ((∀ j, closing w j = false) →
       r.2 = attemptSteps d 0 k ∧
       (iStatus r.1 ≠ "unhealthy" ∨ k = Z.to_nat (MaxRetries c')) ∧
       ((∀ j, iStatus (check c' (runs w j)) = "unhealthy") →
          k = Z.to_nat (MaxRetries c') ∧ iStatus r.1 = "unhealthy")).
Proof.
  intros Hm c' d r.
  assert (Hn : (1 ≤ Z.to_nat (MaxRetries c'))%nat).
  { subst c'. unfold New. simpl. destruct (decide (MaxRetries c = 0)); lia. }
  destruct (retry_spec c' w (Z.to_nat (MaxRetries c')) 0 (zeroItem float64 zero))
    as (k & Hk & Htr & _ & H1 & Hun & Hnc).
  fold (Check c' w) in *. fold r in Htr, H1, Hnc. fold d in Htr, Hnc.
  assert (Hk1 : (1 ≤ k)%nat).
  { destruct Htr as [[_ Hlt]|(_ & _ & ? & _)]; [|lia].
    destruct (decide (k < Z.to_nat (MaxRetries c'))%nat) as [Hlt'|]; [|lia].
    apply Hlt in Hlt'. lia. }
  exists k. split; [lia|]. split.
  { destruct Htr as [[-> _]|(-> & _)].
    - apply attempts_attemptSteps.
    - rewrite attempts_app, attempts_attemptSteps. simpl. lia. }
  split; [destruct Htr as [[? _]|[? _]]; auto|].
  split; [rewrite H1 by lia; done|].
  split; [intros j Hj; by apply Hun|].
  intros Hno. split; [by apply Hnc|].
  assert (Hor : iStatus r.1 ≠ "unhealthy" ∨ k = Z.to_nat (MaxRetries c')).
  { destruct Htr as [[_ Hlt]|(_ & _ & _ & Hc)]; [|by rewrite Hno in Hc].
    destruct (decide (k < Z.to_nat (MaxRetries c'))%nat) as [Hlt'|]; [|right; lia].
    left. by apply Hlt. }
  split; [done|]. intros Hall.
  assert (Hst : iStatus r.1 = "unhealthy") by (rewrite H1 by lia; apply Hall).
  split; [|done]. destruct Hor as [Hne|]; [by destruct Hne|done].
Qed.

End executor.

Lemma check_metric_zero_exit_witness :
  iStatus (check Z 0 demoParse demoTrim metricProbe notANumber) = "unhealthy".
Proof.
  pose proof (check_metric_zero_exit 0 demoParse demoTrim metricProbe
                notANumber eq_refl eq_refl) as H.
  vm_compute in H. vm_compute. exact (proj1 H).
Defined.

(** C8 as stated fails for a negative [MaxRetries], which [New] leaves as it
    is: the command is not run at all and the zero entry is returned. *)
Lemma Check_negative_retries :
  let r := Check Z 0 demoParse demoTrim (New (failingProbe (-1))) alwaysFails in
  attempts r.2 = 0%nat ∧ iStatus r.1 = "".
Proof. by vm_compute. Qed.

Lemma Check_retries_witness :
  let r := Check Z 0 demoParse demoTrim (New (failingProbe 3)) alwaysFails in
  attempts r.2 = 3%nat ∧ iStatus r.1 = "unhealthy".
Proof.
  intros r.
  destruct (Check_retries 0 demoParse demoTrim (failingProbe 3) alwaysFails)
    as (k & _ & Hk & _ & _ & _ & Hno); [done|].
  destruct Hno as (_ & _ & Hall); [done|].
  destruct Hall as [Hk3 Hst]; [done|].
  split; [|exact Hst]. fold r in Hk. rewrite Hk, Hk3. reflexivity.
Defined.

(** C9 (amended). [New] replaces a command time-out of less than a
    millisecond by one minute, zero retries by 1 and a zero retry interval
    by 5 seconds; a probe built from the configuration file has kind
    boolean when none is given, 1 retry, a retry interval of 5 seconds, and
    a command time-out of 3 minutes (not 1) when none is given. *)
Theorem probe_defaults c0 group idx cc c :
  patrol.buildChecker group idx cc = Ok c →
  ((Milliseconds (CmdTimeout c0) = 0 → CmdTimeout (New c0) = 1 * minute)
   ∧ (MaxRetries c0 = 0 → MaxRetries (New c0) = 1)
   ∧ (RetryInterval c0 = 0 → RetryInterval (New c0) = 5 * second))
  ∧ (patrol.Type_ cc = "" → Type_ c = "boolean")
  ∧ MaxRetries c = 1
  ∧ RetryInterval c = 5 * second
  ∧ (patrol.Timeout cc = 0 → CmdTimeout c = 3 * minute)
  ∧ (patrol.Interval cc = 0 → Interval c = 60 * second).
Proof.
  intros Hb. split.
  { unfold New; simpl. repeat split; intros Hz; by rewrite decide_True. }
  unfold patrol.buildChecker in Hb.
  destruct (decide (patrol.Name cc = "")); [done|].
  destruct (decide (patrol.Cmd cc = "")); [done|].
  destruct (decide (_ ∧ _)); [done|].
  injection Hb as <-. simpl.
  split; [intros Hz; by rewrite decide_True|].
  split; [done|]. split; [done|].
  split; intros Hz; rewrite Hz; reflexivity.
Qed.

Lemma probe_defaults_witness :
  ∃ c, patrol.buildChecker "web" 0 noTimeoutCheck = Ok c
       ∧ Type_ c = "boolean" ∧ CmdTimeout c = 3 * minute.
Proof.
  eexists. split; [reflexivity|].
  pose proof (probe_defaults (failingProbe 0) "web" 0 noTimeoutCheck _ eq_refl)
    as (_ & Hty & _ & _ & Hto & _).
  split; [exact (Hty eq_refl)|exact (Hto eq_refl)].
Defined.

(** C9 as stated fails: a probe built from a configuration without a
    time-out runs with a deadline of 3 minutes. *)
Lemma from_config_timeout_is_not_one_minute :
  ∃ c, patrol.buildChecker "web" 0 noTimeoutCheck = Ok c
       ∧ CmdTimeout c = 180000000000 ∧ CmdTimeout c ≠ 1 * minute.
Proof. eexists. split; [reflexivity|]. by vm_compute. Qed.

(** The executor of [part_000] leaves the status of a metric probe at
    healthy when the output does not parse. *)
Lemma part_000_Check_parse_failure ParseInt c ex e :
  part_000.Type_ c = "metric" → runErr ex = None →
  ParseInt (stdout ex) = inr e →
  history.Status (part_000.Check ParseInt c ex) = "healthy"
  ∧ history.Error (part_000.Check ParseInt c ex)
    = "Failed to parse metric from output: " +:+ e.
Proof.
  intros Hty Hrun Hp. unfold part_000.Check. rewrite Hrun, Hp.
  destruct (decide (part_000.Type_ c = "metric")); done.
Qed.

End checker_facts.

(** * Further properties of the code *)

Module index_facts.
Import history history_defs history_facts recovery_defs recovery_facts.
Import index_defs.

Implicit Types (c : dataContainer) (ls : list loc) (l : loc) (n : listNode).

(** *** One round of the eviction loop *)

Lemma evict_done fuel maxE c :
  Z.of_nat (size (byID c)) ≤ maxE → evict fuel maxE c = Ok c.
Proof. intros Hle. destruct fuel; simpl; by rewrite decide_False by lia. Qed.

Lemma evict_step fuel maxE c ls :
  linked c ls → ls ≠ [] → Z.of_nat (size (byID c)) > maxE →
  ∃ c1 k,
    evict (S fuel) maxE c = evict fuel maxE c1
    ∧ (k < length ls)%nat ∧ ((2 ≤ length ls)%nat → (1 ≤ k)%nat)
    ∧ linked c1 (take k ls)
    ∧ entries c1 (take k ls) = take k (entries c ls)
    ∧ S (size (byID c1)) = size (byID c).
Proof.
  intros Hl Hne Hgt.
  destruct (dropTail_linked c ls Hl Hne)
    as (c1 & k & d & dn & Hdrop & Hlast & Hdn & Hk & Hprev & Hl1 & Hby & Hfiled
        & Hsame).
  exists c1, k. cbn [evict]. rewrite decide_True by done.
  rewrite Hdrop, bind_Ok. split; [done|]. split; [done|]. split.
  { intros Hlen. destruct k as [|k]; [|lia]. exfalso.
    rewrite last_lookup in Hlast.
    destruct (linked_node _ _ Hl _ _ Hlast) as (dn' & Hdn' & _ & Hback & _).
    assert (dn' = dn) as -> by congruence.
    destruct (pred (length ls)) as [|m] eqn:Hm; [lia|].
    destruct Hback as (l' & Hl' & _). congruence. }
  split; [done|]. split; [by apply dropTail_entries|].
  rewrite Hby. rewrite map_size_delete_Some by eauto.
  assert (0 < size (byID c))%nat; [|lia].
  destruct (decide (size (byID c) = 0%nat)) as [Hz|]; [|lia].
  apply map_size_empty_iff in Hz. rewrite Hz in Hfiled.
  by rewrite lookup_empty in Hfiled.
Qed.

(** *** A new entry is linked where the scan stops *)

Lemma addToContainer_new_at maxE c ls it id :
  linked c ls → deriveID c it = Ok id → byID c !! id = None →
  let v := withID id it in
  ∃ c5 l pos,
    pos = scanPos (CreatedAt it) (entries c ls)
    ∧ (pos ≤ length ls)%nat ∧ (l ∉ ls)
    ∧ linked c5 (insertAt pos l ls)
    ∧ entries c5 (insertAt pos l ls)
      = take pos (entries c ls) ++ v :: drop pos (entries c ls)
    ∧ byID c5 = <[id := l]> (byID c)
    ∧ keeps c c5
    ∧ (∃ nl, nodes c5 !! l = Some nl ∧ value nl = v)
    ∧ addToContainer maxE c it
      = if decide (ls = []) then Ok (c5, v)
        else c' ← evict (S (size (nodes c5))) maxE c5; Ok (c', v).
Proof.
  intros Hl Hd Hid v.
  rewrite (addToContainer_new maxE c it id Hd Hid). fold v.
  assert (Hidv : byID c !! ID v = None) by done.
  destruct (allocated_spec c ls v Hl Hidv)
    as (Hl3 & Hnotin & Hnl & Hbl & He3 & _ & _ & _).
  assert (Hfresh : nodes c !! (allocated c v).1 = None).
  { apply not_elem_of_dom. apply is_fresh. }
  assert (Hby3 : byID (allocated c v).2 = <[id := (allocated c v).1]> (byID c)) by done.
  assert (Hk3 : ∀ l0, l0 ≠ (allocated c v).1 →
            nodes (allocated c v).2 !! l0 = nodes c !! l0).
  { intros l0 Hne. simpl. by rewrite lookup_insert_ne. }
  destruct (allocated c v) as [l c3] eqn:Ha. cbn [fst snd] in *.
  assert (Hh3 : head c3 = head c) by (by injection Ha as _ <-).
  assert (Ht3 : tail c3 = tail c) by (by injection Ha as _ <-).
  assert (Hfr : ∀ l0 n, nodes c !! l0 = Some n → l0 ≠ l).
  { intros l0 n Hn ->. congruence. }
  destruct (decide (ls = [])) as [->|Hne].
  { rewrite (linked_head _ _ Hl). simpl.
    exists (setTail (Some l) (setHead (Some l) c3)), l, 0%nat.
    split; [done|]. split; [done|]. split; [done|]. split.
    { split; simpl; try done.
      - apply NoDup_singleton.
      - intros [|i] l' Hi; [|done]. simpl in Hi. simplify_eq.
        eexists. split; [done|]. done.
      - apply Hl3. }
    split; [simpl; by rewrite Hnl|]. split; [done|]. split.
    { intros l0 n Hn. exists n. simpl. rewrite Hk3 by eauto. done. }
    split; [|done]. eauto. }
  rewrite (linked_head _ _ Hl).
  destruct (ls !! 0%nat) as [h0|] eqn:Hh0;
    [|apply lookup_ge_None in Hh0; destruct ls; simpl in *; [done|lia]].
  pose proof (linked_length _ _ Hl3) as Hlen3.
  destruct (insertScan_linked c3 ls l v (S (size (nodes c3))) 0 Hl3 Hnotin Hnl)
    as [[Hi Hscan]|[[Hi (h1 & hn & Hh1 & Hhn & Hscan)]
        |(i' & p & pn & Hi & Hlt & Hp & Hpn & Hscan)]]; [lia|lia| | |].
  - (* behind all others *)
    cbn [predAt] in Hscan. rewrite Hh0 in Hscan.
    rewrite Hscan, bind_Ok. cbv beta iota.
    destruct (last ls) as [t|] eqn:Hlast; [|by apply last_None in Hlast].
    pose proof Hlast as Htl. rewrite last_lookup in Htl.
    destruct (linked_node _ _ Hl3 _ _ Htl) as (tn & Htn & _).
    rewrite (appendTail_linked c3 ls l v t tn Hl3 Hnotin Hnl Hlast Htn), bind_Ok.
    assert (Hlen : S (pred (length ls)) = length ls) by (destruct ls; simpl; [done|lia]).
    pose proof (linked_insert_after c3 ls l v _ t tn Hl3 Hnotin Hnl Hbl Htl Htn) as Hl5.
    rewrite decide_True in Hl5 by done. rewrite Hlen in Hl5.
    pose proof (entries_insert_after c3 ls l v _ t tn (Some l) Hl3 Hnotin Htl Htn) as He5.
    rewrite Hlen, He3 in He5.
    fold (linkedAfter c3 l v t tn (Some l)) in Hl5.
    exists (linkedAfter c3 l v t tn (Some l)), l, (length ls).
    split; [by rewrite Nat.add_0_l, drop_0, He3 in Hi|].
    split; [done|]. split; [done|]. split; [done|]. split; [done|].
    split; [done|]. split.
    { intros l0 n Hn. pose proof (Hfr _ _ Hn) as Hne0. simpl.
      destruct (decide (l0 = t)) as [->|Hnt].
      - rewrite lookup_insert_eq. eexists. split; [done|]. simpl.
        rewrite Hk3 in Htn by done. congruence.
      - rewrite !lookup_insert_ne by done. rewrite Hk3 by done. eauto. }
    split; [|done]. simpl.
    assert (t ≠ l) by (intros ->; apply Hnotin; by eapply list_elem_of_lookup_2).
    rewrite lookup_insert_ne, lookup_insert_eq by done. eauto.
  - (* in front of all others *)
    cbn [predAt] in Hscan. rewrite Hh0 in Hscan. rewrite Hscan, bind_Ok.
    cbv beta iota. rewrite bind_Ok.
    assert (h1 = h0) as -> by congruence.
    assert (Hhn0 : nodes c3 !! h0 = Some hn) by done.
    pose proof (linked_insert_head c3 ls l v h0 hn Hl3 Hnotin Hnl Hbl Hh0 Hhn0) as Hl5.
    pose proof (entries_insert_head c3 ls l v h0 hn Hnotin
                  (list_elem_of_lookup_2 _ _ _ Hh0) Hhn0) as He5.
    rewrite He3 in He5. fold (headInserted c3 l v h0 hn) in Hl5, He5.
    exists (headInserted c3 l v h0 hn), l, 0%nat.
    split; [by rewrite Nat.add_0_l, drop_0, He3 in Hi|].
    split; [lia|]. split; [done|]. split; [done|]. split; [done|].
    split; [done|]. split.
    { intros l0 n Hn. pose proof (Hfr _ _ Hn) as Hne0. simpl.
      destruct (decide (l0 = h0)) as [->|Hnt].
      - rewrite lookup_insert_eq. eexists. split; [done|]. simpl.
        rewrite Hk3 in Hhn0 by done. congruence.
      - rewrite !lookup_insert_ne by done. rewrite Hk3 by done. eauto. }
    split; [|done]. simpl.
    assert (h0 ≠ l) by (intros ->; apply Hnotin; by eapply list_elem_of_lookup_2).
    rewrite lookup_insert_ne, lookup_insert_eq by done. eauto.
  - (* behind the node [p] *)
    cbn [predAt] in Hscan. rewrite Hh0 in Hscan. rewrite Hscan, bind_Ok.
    cbv beta iota. rewrite bind_Ok.
    pose proof (linked_insert_after c3 ls l v _ p pn Hl3 Hnotin Hnl Hbl Hp Hpn) as Hl5.
    rewrite Nat.add_0_l, drop_0, He3 in Hi, Hlt.
    rewrite decide_False in Hl5 by lia.
    pose proof (entries_insert_after c3 ls l v _ p pn (tail c3) Hl3 Hnotin Hp Hpn) as He5.
    rewrite He3 in He5.
    fold (linkedAfter c3 l v p pn (tail c3)) in Hl5.
    exists (linkedAfter c3 l v p pn (tail c3)), l, (S i').
    split; [done|].
    split; [lia|]. split; [done|]. split; [done|]. split; [done|].
    split; [done|]. split.
    { intros l0 n Hn. pose proof (Hfr _ _ Hn) as Hne0. simpl.
      destruct (decide (l0 = p)) as [->|Hnt].
      - rewrite lookup_insert_eq. eexists. split; [done|]. simpl.
        rewrite Hk3 in Hpn by done. congruence.
      - rewrite !lookup_insert_ne by done. rewrite Hk3 by done. eauto. }
    split; [|done]. simpl.
    assert (p ≠ l) by (intros ->; apply Hnotin; by eapply list_elem_of_lookup_2).
    rewrite lookup_insert_ne, lookup_insert_eq by done. eauto.
Qed.

(** *** What an upsert makes of the entries listed *)

Lemma addToContainer_listing maxE c ls it c' it' :
  linked c ls → addToContainer maxE c it = Ok (c', it') →
  ∃ id ls', it' = withID id it ∧ deriveID c it = Ok id ∧ linked c' ls'
    ∧ ((Type_ it = "boolean" ∧ is_Some (byID c !! id) ∧ ls' = ls
        ∧ byID c' = byID c
        ∧ ∀ x, x ∈ entries c' ls' → x ∈ entries c ls ∨ x = it')
       ∨ (byID c !! id = None
          ∧ (ls = [] ∨ Z.of_nat (size (byID c')) ≤ maxE)
          ∧ ∃ k, entries c' ls' = take k (placed it' (entries c ls)))).
Proof.
  intros Hl Hadd.
  destruct (deriveID_total c it) as [id Hd]. exists id.
  destruct (byID c !! id) as [l0|] eqn:Hid.
  - assert (Hty : Type_ it = "boolean").
    { destruct (decide (Type_ it = "boolean")) as [|Hty]; [done|].
      pose proof (deriveID_fresh c it id Hty Hd). congruence. }
    assert (id = booleanID it) as ->.
    { unfold deriveID in Hd. rewrite decide_True in Hd by done. congruence. }
    destruct (addToContainer_replace_linked maxE c ls it l0 Hl Hty Hid)
      as (c1 & Hadd1 & Hl1 & Hby1 & He1).
    rewrite Hadd1 in Hadd. injection Hadd as <- <-.
    exists ls. split; [done|]. split; [done|]. split; [done|]. left.
    split; [done|]. split; [eauto|]. done.
  - destruct (addToContainer_new_at maxE c ls it id Hl Hd Hid)
      as (c5 & l & pos & Hpos & Hle & Hnotin & Hl5 & He5 & Hby5 & _ & _ & Hadd5).
    rewrite Hadd5 in Hadd.
    assert (He : entries c5 (insertAt pos l ls)
                 = placed (withID id it) (entries c ls)).
    { rewrite He5. unfold placed. simpl. by rewrite <-Hpos. }
    destruct (decide (ls = [])) as [->|Hne].
    + injection Hadd as <- <-. exists (insertAt pos l []).
      split; [done|]. split; [done|]. split; [done|]. right.
      split; [done|]. split; [by left|].
      exists (length (placed (withID id it) (entries c []))).
      by rewrite take_ge by lia.
    + destruct (evict (S (size (nodes c5))) maxE c5) as [c6| | |] eqn:Hev;
        try done.
      rewrite bind_Ok in Hadd. injection Hadd as <- <-.
      destruct (evict_linked _ _ _ _ _ Hl5 Hev) as (k & Hl6 & He6 & Hs6).
      exists (take k (insertAt pos l ls)).
      split; [done|]. split; [done|]. split; [done|]. right.
      split; [done|]. split; [by right|]. exists k. by rewrite He6, He.
Qed.

(** *** Invariants of the containers of a store *)

Section invariant.
Variable Q : Item → Prop.
Variable I : Z → string → dataContainer → Prop.
Hypothesis I_keeps : ∀ maxE c it c' it',
  Q it → I maxE (Group it) c → addToContainer maxE c it = Ok (c', it') →
  I maxE (Group it) c'.
Hypothesis I_empty : ∀ maxE g, I maxE g emptyContainer.

Lemma addAll_keeps its file file' :
  Forall Q its →
  (∀ g c, data file !! g = Some c → I (maxEntries file) g c) →
  addAll file its = Ok file' →
  maxEntries file' = maxEntries file
  ∧ ∀ g c, data file' !! g = Some c → I (maxEntries file) g c.
Proof.
  revert file. induction its as [|it its IH]; intros file HQ HI.
  { by intros [= <-]. }
  apply Forall_cons in HQ as [Hit HQ]. cbn [addAll]. unfold addItem.
  destruct (addToContainer _ _ it) as [[c1 it1]| | |] eqn:Hadd; try done.
  rewrite !bind_Ok. intros Hrest.
  apply IH in Hrest; [done|done|]. simpl.
  intros g c [[<- <-]|[Hne Hc]]%lookup_insert_Some; [|by apply HI].
  eapply I_keeps; [done| |exact Hadd].
  destruct (data file !! Group it) as [c0|] eqn:Hc0; simpl; [by apply HI|].
  apply I_empty.
Qed.

End invariant.

Lemma wellListed_keeps (S : Item → Prop) maxE c it c' it' :
  S it → wellListed S maxE (Group it) c →
  addToContainer maxE c it = Ok (c', it') →
  wellListed S maxE (Group it) c'.
Proof.
  intros HS (ls & Hl & Hsz & Hall) Hadd.
  destruct (addToContainer_listing maxE c ls it c' it' Hl Hadd)
    as (id & ls' & -> & Hd & Hl' & Hcase).
  assert (Hnew : stamped (Group it) (withID id it)
                 ∧ ∃ it0, S it0 ∧ submitted (withID id it) = submitted it0).
  { split; [by eapply stamped_withID|]. by exists it. }
  exists ls'. split; [done|].
  destruct Hcase as [(_ & _ & -> & Hby & He)|(_ & Hroom & k & He)].
  - split; [by rewrite Hby|]. apply Forall_forall.
    intros x [Hx| ->]%He; [|done]. by eapply Forall_forall in Hall.
  - split.
    { destruct Hroom as [->|Hroom]; [|by right]. left.
      rewrite <-(entries_length c' ls' Hl'), He, length_take.
      unfold placed. simpl. lia. }
    rewrite He. apply Forall_take. unfold placed.
    apply Forall_app. split; [by apply Forall_take|].
    apply Forall_cons. split; [done|]. by apply Forall_drop.
Qed.

Lemma wellListed_empty (S : Item → Prop) maxE g :
  wellListed S maxE g emptyContainer.
Proof.
  exists []. split; [apply linked_empty|]. split; [left; simpl; lia|].
  apply Forall_nil_2.
Qed.

(** The store after a sequence of appends to an empty store. *)
Lemma addAll_wellListed maxE its file g c :
  addAll (emptyFile maxE) its = Ok file → data file !! g = Some c →
  wellListed (λ it, it ∈ its) maxE g c.
Proof.
  intros Hrun Hc.
  destruct (addAll_keeps (λ it, it ∈ its) (wellListed (λ it, it ∈ its))
              (wellListed_keeps _) (wellListed_empty _) its (emptyFile maxE) file)
    as [_ Hall]; [by apply Forall_forall| |done|by apply (Hall g c)].
  intros g' c' Hc'. simpl in Hc'. by rewrite lookup_empty in Hc'.
Qed.

(** *** No fault with a bound that is not negative *)

Lemma steady_empty maxE : 0 ≤ maxE → steady maxE emptyContainer.
Proof.
  intros HmaxE. exists []. split; [apply linked_empty|]. left.
  simpl. rewrite map_size_empty. lia.
Qed.

Lemma addToContainer_steady maxE c it :
  0 ≤ maxE → steady maxE c →
  ∃ c' it', addToContainer maxE c it = Ok (c', it') ∧ steady maxE c'.
Proof.
  intros HmaxE (ls & Hl & Hsz).
  destruct (deriveID_total c it) as [id Hd].
  destruct (byID c !! id) as [l0|] eqn:Hid.
  - assert (Hty : Type_ it = "boolean").
    { destruct (decide (Type_ it = "boolean")) as [|Hty]; [done|].
      pose proof (deriveID_fresh c it id Hty Hd). congruence. }
    assert (id = booleanID it) as ->.
    { unfold deriveID in Hd. rewrite decide_True in Hd by done. congruence. }
    destruct (addToContainer_replace_linked maxE c ls it l0 Hl Hty Hid)
      as (c1 & Hadd1 & Hl1 & Hby1 & _).
    exists c1, (withID (booleanID it) it). split; [done|].
    exists ls. split; [done|]. by rewrite Hby1.
  - destruct (addToContainer_new_at maxE c ls it id Hl Hd Hid)
      as (c5 & l & pos & _ & Hle & Hnotin & Hl5 & _ & Hby5 & _ & _ & Hadd5).
    assert (Hsz5 : size (byID c5) = S (size (byID c))).
    { by rewrite Hby5, map_size_insert_None. }
    assert (Hlen5 : length (insertAt pos l ls) = S (length ls))
      by apply insertAt_length.
    rewrite Hadd5. destruct (decide (ls = [])) as [->|Hne].
    { exists c5, (withID id it). split; [done|].
      exists (insertAt pos l []). split; [done|]. right. split; [done|].
      destruct Hsz as [Hsz|[Hlen _]]; [lia|done]. }
    assert (Hlen : (1 ≤ length ls)%nat) by (destruct ls; simpl; [done|lia]).
    destruct (decide (Z.of_nat (size (byID c5)) ≤ maxE)) as [Hfit|Hover].
    { rewrite evict_done by done. rewrite bind_Ok.
      exists c5, (withID id it). split; [done|]. exists (insertAt pos l ls).
      split; [done|]. by left. }
    pose proof (linked_length _ _ Hl5) as Hnodes.
    destruct (evict_step (size (nodes c5)) maxE c5 _ Hl5) as
      (c1 & k & Hev & Hk & Hk1 & Hl1 & _ & Hsz1).
    { intros Hnil. apply (f_equal length) in Hnil. by rewrite Hlen5 in Hnil. }
    { lia. }
    rewrite Hev.
    destruct (decide (Z.of_nat (size (byID c1)) ≤ maxE)) as [Hfit1|Hover1].
    { rewrite evict_done by done. rewrite bind_Ok.
      exists c1, (withID id it). split; [done|]. exists (take k (insertAt pos l ls)).
      split; [done|]. by left. }
    destruct Hsz as [Hsz|[Hone Hsz]]; [lia|].
    assert (k = 1%nat) as -> by lia.
    destruct (size (nodes c5)) as [|fuel] eqn:Hfuel; [lia|].
    destruct (evict_step fuel maxE c1 _ Hl1) as
      (c2 & k2 & Hev2 & _ & _ & Hl2 & _ & Hsz2).
    { intros Hnil. apply (f_equal length) in Hnil.
      rewrite length_take, Hlen5 in Hnil. simpl in Hnil. lia. }
    { lia. }
    rewrite Hev2, evict_done by lia. rewrite bind_Ok.
    exists c2, (withID id it). split; [done|].
    exists (take k2 (take 1 (insertAt pos l ls))). split; [done|]. left. lia.
Qed.

Lemma addItem_steady file it :
  0 ≤ maxEntries file → fileSteady file →
  ∃ file' it', addItem file it = Ok (file', it')
    ∧ fileSteady file' ∧ maxEntries file' = maxEntries file
    ∧ fd file' = fd file ∧ writes file' = writes file.
Proof.
  intros HmaxE Hs.
  destruct (addToContainer_steady (maxEntries file)
              (default emptyContainer (data file !! Group it)) it HmaxE)
    as (c' & it' & Hadd & Hc').
  { destruct (data file !! Group it) as [c0|] eqn:Hc0; simpl; [by eapply Hs|].
    by apply steady_empty. }
  exists (setData (<[Group it := c']> (data file)) file), it'.
  split; [by apply addItem_container|]. split; [|done].
  intros g c. simpl. intros [[<- <-]|[Hne Hc]]%lookup_insert_Some; [done|].
  by eapply Hs.
Qed.

Lemma addAll_steady its file :
  0 ≤ maxEntries file → fileSteady file →
  ∃ file', addAll file its = Ok file' ∧ fileSteady file'
    ∧ maxEntries file' = maxEntries file.
Proof.
  revert file. induction its as [|it its IH]; intros file HmaxE Hs.
  { exists file. done. }
  destruct (addItem_steady file it HmaxE Hs)
    as (file1 & it1 & Hadd & Hs1 & Hm1 & _).
  cbn [addAll]. rewrite Hadd, bind_Ok.
  destruct (IH file1) as (file' & Hrun & Hs' & Hm'); [by rewrite Hm1|done|].
  exists file'. split; [done|]. split; [done|congruence].
Qed.

(** *** A negative bound *)

Lemma evict_negative fuel maxE c ls :
  maxE < 0 → linked c ls → (length ls < fuel)%nat →
  evict fuel maxE c = Panic.
Proof.
  intros HmaxE. revert c ls.
  induction fuel as [|fuel IH]; intros c ls Hl Hfuel; [lia|].
  destruct (decide (ls = [])) as [->|Hne].
  { cbn [evict]. rewrite decide_True by lia. by rewrite (dropTail_nil c Hl). }
  destruct (evict_step fuel maxE c ls Hl Hne) as
    (c1 & k & Hev & Hk & _ & Hl1 & _ & _); [lia|].
  rewrite Hev. apply (IH c1 (take k ls) Hl1). rewrite length_take. lia.
Qed.

(** *** A bound of 1 or more *)

Lemma scanPos_head t es :
  (∀ hd, es !! 0%nat = Some hd → CreatedAt hd ≤ t) → scanPos t es = 0%nat.
Proof.
  destruct es as [|e es]; [done|]. intros Hhd. simpl. unfold Before.
  specialize (Hhd e eq_refl). by destruct (Z.ltb_spec t (CreatedAt e)); [lia|].
Qed.

Lemma addToContainer_lively maxE c it :
  1 ≤ maxE → c = emptyContainer ∨ lively maxE c →
  ∃ c' it', addToContainer maxE c it = Ok (c', it') ∧ lively maxE c'
    ∧ it' = withID (ID it') it
    ∧ (Type_ it ≠ "boolean" →
       (∀ hd rest, items c = Ok (hd :: rest) → CreatedAt hd ≤ CreatedAt it) →
       ∃ rest, items c' = Ok (it' :: rest)).
Proof.
  intros HmaxE Hc.
  assert (∃ ls, linked c ls ∧ Z.of_nat (size (byID c)) ≤ maxE
                ∧ (ls = [] → byID c = ∅)) as (ls & Hl & Hsz & Hnil).
  { destruct Hc as [->|(ls & Hl & Hne & Hsz)].
    - exists []. split; [apply linked_empty|]. simpl.
      rewrite map_size_empty. split; [lia|done].
    - exists ls. done. }
  destruct (deriveID_total c it) as [id Hd].
  destruct (byID c !! id) as [l0|] eqn:Hid.
  - assert (Hty : Type_ it = "boolean").
    { destruct (decide (Type_ it = "boolean")) as [|Hty]; [done|].
      pose proof (deriveID_fresh c it id Hty Hd). congruence. }
    assert (id = booleanID it) as ->.
    { unfold deriveID in Hd. rewrite decide_True in Hd by done. congruence. }
    destruct (addToContainer_replace_linked maxE c ls it l0 Hl Hty Hid)
      as (c1 & Hadd1 & Hl1 & Hby1 & _).
    exists c1, (withID (booleanID it) it). split; [done|]. split.
    { exists ls. split; [done|]. split; [|by rewrite Hby1].
      intros Hls. rewrite (Hnil Hls) in Hid. by rewrite lookup_empty in Hid. }
    split; [done|]. by intros [].
  - destruct (addToContainer_new_at maxE c ls it id Hl Hd Hid)
      as (c5 & l & pos & Hpos & Hle & Hnotin & Hl5 & He5 & Hby5 & _ & _ & Hadd5).
    assert (Hsz5 : size (byID c5) = S (size (byID c))).
    { by rewrite Hby5, map_size_insert_None. }
    assert (Hlen5 : length (insertAt pos l ls) = S (length ls))
      by apply insertAt_length.
    assert (Hne5 : insertAt pos l ls ≠ []).
    { intros Hn. apply (f_equal length) in Hn. by rewrite Hlen5 in Hn. }
    assert (Hfirst : Type_ it ≠ "boolean" →
              (∀ hd rest, items c = Ok (hd :: rest) → CreatedAt hd ≤ CreatedAt it) →
              pos = 0%nat).
    { intros _ Hhd. rewrite Hpos. apply scanPos_head. intros hd Hhd0.
      rewrite (items_linked c ls Hl) in Hhd.
      destruct (entries c ls) as [|e es]; [done|]. simpl in Hhd0.
      injection Hhd0 as ->. by eapply Hhd. }
    rewrite Hadd5. destruct (decide (ls = [])) as [->|Hne].
    { exists c5, (withID id it). split; [done|]. split.
      { exists (insertAt pos l []). split; [done|]. split; [done|].
        rewrite Hsz5, (Hnil eq_refl), map_size_empty. lia. }
      split; [done|]. intros Hty Hhd.
      rewrite (items_linked _ _ Hl5), He5. simpl.
      assert (pos = 0%nat) as -> by (simpl in Hle; lia). simpl. eauto. }
    destruct (decide (Z.of_nat (size (byID c5)) ≤ maxE)) as [Hfit|Hover].
    { rewrite evict_done by done. rewrite bind_Ok.
      exists c5, (withID id it). split; [done|]. split; [by exists (insertAt pos l ls)|].
      split; [done|]. intros Hty Hhd.
      rewrite (items_linked _ _ Hl5), He5, (Hfirst Hty Hhd). simpl. eauto. }
    assert (Hlen : (1 ≤ length ls)%nat) by (destruct ls; simpl; [done|lia]).
    destruct (evict_step (size (nodes c5)) maxE c5 _ Hl5 Hne5) as
      (c1 & k & Hev & Hk & Hk1 & Hl1 & He1 & Hsz1); [lia|].
    rewrite Hev, evict_done by lia. rewrite bind_Ok.
    exists c1, (withID id it). split; [done|]. split.
    { exists (take k (insertAt pos l ls)). split; [done|]. split; [|lia].
      intros Hn. apply (f_equal length) in Hn. rewrite length_take in Hn.
      simpl in Hn. lia. }
    split; [done|]. intros Hty Hhd.
    rewrite (items_linked _ _ Hl1), He1, He5, (Hfirst Hty Hhd). simpl.
    destruct k as [|k]; [lia|]. simpl. eauto.
Qed.

Lemma addItem_lively file it :
  1 ≤ maxEntries file → fileLively file →
  ∃ file' it', addItem file it = Ok (file', it')
    ∧ fileLively file' ∧ maxEntries file' = maxEntries file
    ∧ is_Some (data file' !! Group it)
    ∧ (∀ g, is_Some (data file !! g) → is_Some (data file' !! g))
    ∧ it' = withID (ID it') it
    ∧ (Type_ it ≠ "boolean" →
       (∀ hd rest, GetGroupItems file (Group it) = Ok (hd :: rest) →
          CreatedAt hd ≤ CreatedAt it) →
       ∃ rest, GetGroupItems file' (Group it) = Ok (it' :: rest)).
Proof.
  intros HmaxE Hs.
  destruct (addToContainer_lively (maxEntries file)
              (default emptyContainer (data file !! Group it)) it HmaxE)
    as (c' & it' & Hadd & Hc' & Hit' & Hfirst).
  { destruct (data file !! Group it) as [c0|] eqn:Hc0; simpl; [|by left].
    right. by eapply Hs. }
  exists (setData (<[Group it := c']> (data file)) file), it'.
  split; [by apply addItem_container|]. split.
  { intros g c. simpl. intros [[<- <-]|[Hne Hc]]%lookup_insert_Some; [done|].
    by eapply Hs. }
  split; [done|]. split; [simpl; rewrite lookup_insert_eq; eauto|]. split.
  { intros g Hg. simpl. destruct (decide (g = Group it)) as [->|Hne].
    - rewrite lookup_insert_eq. eauto.
    - by rewrite lookup_insert_ne. }
  split; [done|]. intros Hty Hhd. unfold GetGroupItems at 1. simpl.
  rewrite lookup_insert_eq. apply Hfirst; [done|].
  intros hd rest Hitems. unfold GetGroupItems in Hhd.
  destruct (data file !! Group it) as [c0|] eqn:Hc0; simpl in Hitems.
  - by eapply Hhd.
  - done.
Qed.

Lemma addAll_lively its file :
  1 ≤ maxEntries file → fileLively file →
  ∃ file', addAll file its = Ok file' ∧ fileLively file'
    ∧ maxEntries file' = maxEntries file
    ∧ (∀ g, is_Some (data file !! g) → is_Some (data file' !! g))
    ∧ ∀ it, it ∈ its → is_Some (data file' !! Group it).
Proof.
  revert file. induction its as [|it its IH]; intros file HmaxE Hs.
  { exists file. split_and!; try done. by intros it Hit%elem_of_nil. }
  destruct (addItem_lively file it HmaxE Hs)
    as (file1 & it1 & Hadd & Hs1 & Hm1 & Hin1 & Hmono1 & _).
  cbn [addAll]. rewrite Hadd, bind_Ok.
  destruct (IH file1) as (file' & Hrun & Hs' & Hm' & Hmono' & Hin');
    [by rewrite Hm1|done|].
  exists file'. split; [done|]. split; [done|]. split; [congruence|].
  split; [by auto|].
  intros x [->|Hx]%elem_of_cons; [by apply Hmono'|by apply Hin'].
Qed.

(** *** The groups of a store *)

Lemma addAll_dom its file file' g :
  addAll file its = Ok file' →
  is_Some (data file' !! g)
  ↔ is_Some (data file !! g) ∨ ∃ it, it ∈ its ∧ Group it = g.
Proof.
  revert file. induction its as [|it its IH]; intros file.
  { intros [= <-]. split; [by left|].
    intros [?|(it & Hit%elem_of_nil & _)]; done. }
  cbn [addAll]. unfold addItem.
  destruct (addToContainer _ _ it) as [[c1 it1]| | |]; try done.
  rewrite !bind_Ok. intros Hrest. rewrite (IH _ Hrest). simpl.
  destruct (decide (g = Group it)) as [->|Hne].
  - rewrite lookup_insert_eq. split; [|by eauto].
    intros _. right. exists it. split; [by left|done].
  - rewrite lookup_insert_ne by done. split.
    + intros [?|(x & Hx & Hg)]; [by left|]. right. exists x.
      split; [by right|done].
    + intros [?|(x & [->|Hx]%elem_of_cons & Hg)]; [by left|done|].
      right. eauto.
Qed.

(** *** Order *)

Lemma descending_tail e es : descending (e :: es) → descending es.
Proof. intros Hd i j x y Hij Hx Hy. by apply (Hd (S i) (S j)); [lia|..]. Qed.

Lemma descending_placed v es : descending es → descending (placed v es).
Proof.
  unfold placed. induction es as [|e es IH]; intros Hd.
  { simpl. by intros [|i] [|j] x y Hij Hx Hy; simpl in *; try lia. }
  cbn [scanPos]. unfold Before.
  destruct (Z.ltb_spec (CreatedAt v) (CreatedAt e)) as [Hlt|Hge].
  - cbn [take drop app]. apply descending_cons; [by eapply IH, descending_tail|].
    intros x Hx.
    destruct (scanPos (CreatedAt v) es) as [|pos] eqn:Hpos.
    + simpl in Hx. injection Hx as <-. lia.
    + destruct es as [|e' es']; [done|]. simpl in Hx. injection Hx as <-.
      by apply (Hd 0%nat 1%nat e e'); [lia|..].
  - cbn [take drop app]. apply descending_cons; [done|].
    intros x [= <-]. done.
Qed.

Lemma ordered_keeps maxE c it c' it' :
  notBoolean it → ordered maxE (Group it) c →
  addToContainer maxE c it = Ok (c', it') →
  ordered maxE (Group it) c'.
Proof.
  intros Hty (ls & Hl & Hd) Hadd.
  destruct (addToContainer_listing maxE c ls it c' it' Hl Hadd)
    as (id & ls' & -> & _ & Hl' & [(Hb & _)|(_ & _ & k & He)]); [done|].
  exists ls'. split; [done|]. rewrite He.
  by apply descending_take, descending_placed.
Qed.

Lemma ordered_empty maxE g : ordered maxE g emptyContainer.
Proof.
  exists []. split; [apply linked_empty|]. by intros i j x y Hij Hx.
Qed.

(** *** The search for a sequence number *)

Lemma nextFreeID_least fuel (m : gmap string loc) p (z : Z) id :
  nextFreeID fuel m p z = Ok id →
  ∃ z' : Z, z ≤ z' ∧ id = p +:+ pretty z' ∧ m !! id = None
    ∧ ∀ j : Z, z ≤ j < z' → is_Some (m !! (p +:+ pretty j)).
Proof.
  revert z. induction fuel as [|fuel IH]; intros z; [done|]. simpl.
  destruct (m !! (p +:+ pretty z)) as [l|] eqn:Hm.
  - intros (z' & Hz' & -> & Hfree & Hused)%IH. exists z'.
    split; [lia|]. split; [done|]. split; [done|].
    intros j Hj. destruct (decide (j = z)) as [->|]; [eauto|].
    apply Hused. lia.
  - intros [= <-]. exists z. split; [lia|]. split; [done|]. split; [done|].
    intros j Hj. lia.
Qed.

(** *** Strings *)

Lemma string_app_length (s t : string) :
  String.length (s +:+ t) = (String.length s + String.length t)%nat.
Proof. induction s as [|a s IH]; simpl; [done|]. by rewrite IH. Qed.

Lemma string_app_inj_r (s1 s2 t : string) : s1 +:+ t = s2 +:+ t → s1 = s2.
Proof.
  revert s2. induction s1 as [|a s1 IH]; intros [|b s2] Heq; [done| | |].
  - apply (f_equal String.length) in Heq.
    rewrite !string_app_length in Heq. simpl in Heq. lia.
  - apply (f_equal String.length) in Heq.
    rewrite !string_app_length in Heq. simpl in Heq. lia.
  - cbn in Heq. injection Heq as -> Heq. f_equal. by apply IH.
Qed.

(** *** Appends in the order of the instants *)

Lemma tight_size c ls : linked c ls → tight c ls → size (byID c) = length ls.
Proof.
  intros Hl Ht. apply Nat.le_antisymm; [|by apply linked_size].
  rewrite <-(entries_length c ls Hl), <-(length_fmap ID), <-size_dom.
  rewrite <-(size_list_to_set (C:=gset string))
    by (by apply entries_ids_NoDup).
  apply subseteq_size. intros k [l Hk]%elem_of_dom.
  destruct (tight_byID _ _ Ht k l Hk) as ([Hin|?] & n & Hn & <-); [|done].
  apply elem_of_list_to_set, list_elem_of_fmap. exists (value n). split; [done|].
  apply list_elem_of_lookup in Hin as [i Hi].
  eapply list_elem_of_lookup_2. by apply (entries_lookup c ls i l n).
Qed.

Lemma dropTail_size c c' :
  dropTail c = Ok c' → (size (byID c) ≤ S (size (byID c')))%nat.
Proof.
  unfold dropTail. destruct (load c (tail c)) as [drop| | |]; try done.
  rewrite bind_Ok. cbv zeta.
  destruct (match tail (setTail (prev drop) c) with
            | Some _ => _ | None => _ end) as [c2| | |] eqn:Hc2; try done.
  rewrite bind_Ok. intros [= <-]. simpl.
  assert (Hby : byID c2 = byID c).
  { destruct (tail (setTail (prev drop) c)) as [t|]; [|by injection Hc2 as <-].
    unfold store in Hc2. destruct (nodes _ !! t); [|done]. by injection Hc2 as <-. }
  rewrite Hby. pose proof (map_size_delete (ID (value drop)) (byID c)) as Hsz.
  destruct (byID c !! ID (value drop)); simpl in Hsz; lia.
Qed.

Lemma evict_lower fuel maxE c c' :
  0 ≤ maxE → evict fuel maxE c = Ok c' →
  Z.of_nat (size (byID c)) `min` maxE ≤ Z.of_nat (size (byID c')).
Proof.
  intros HmaxE. revert c. induction fuel as [|fuel IH]; intros c; cbn [evict].
  { case_decide; [done|]. intros [= <-]. lia. }
  case_decide as Hgt; [|intros [= <-]; lia].
  destruct (dropTail c) as [c1| | |] eqn:Hdrop; try done. rewrite bind_Ok.
  intros Hev%IH. apply dropTail_size in Hdrop. lia.
Qed.

Lemma take_latest {A} (a : A) (R : list A) (M : nat) :
  (1 ≤ M)%nat →
  take (S (M `min` length R) `min` M) (a :: take M R) = take M (a :: R).
Proof.
  intros HM. destruct M as [|m]; [lia|].
  replace (S (S m `min` length R) `min` S m)%nat
    with (S (length R `min` m)) by lia.
  cbn [take]. f_equal. rewrite take_take.
  replace ((length R `min` m) `min` S m)%nat with (length R `min` m)%nat by lia.
  destruct (decide (m ≤ length R)%nat).
  - f_equal. lia.
  - rewrite !take_ge; [done|lia|lia].
Qed.

Lemma addToContainer_latest maxE c done x :
  1 ≤ maxE → notBoolean x →
  (∀ y, y ∈ done → CreatedAt y ≤ CreatedAt x) → latest maxE c done →
  ∃ c' x', addToContainer maxE c x = Ok (c', x') ∧ latest maxE c' (done ++ [x]).
Proof.
  intros HmaxE Hty Hnew (ls & Hl & Ht & He).
  destruct (deriveID_total c x) as [id Hd].
  pose proof (deriveID_fresh c x id Hty Hd) as Hid.
  assert (Hpos : scanPos (CreatedAt x) (entries c ls) = 0%nat).
  { apply scanPos_head. intros hd Hhd.
    assert (Hin : submitted hd ∈ submitted <$> entries c ls).
    { apply list_elem_of_fmap. exists hd. split; [done|].
      by eapply list_elem_of_lookup_2. }
    rewrite He in Hin. apply elem_of_take in Hin as (i & Hi & _).
    apply list_elem_of_lookup_2 in Hi. rewrite elem_of_reverse in Hi.
    apply list_elem_of_fmap in Hi as (y & Hy & Hin).
    replace (CreatedAt hd) with (CreatedAt y); [by apply Hnew|].
    change (CreatedAt (submitted y) = CreatedAt (submitted hd)). by rewrite Hy. }
  destruct (addToContainer_new_tight maxE c ls x id) as
    (c' & l & k & Hadd & Hnotin & Hres); [lia|done|done|done|done|by left|].
  cbv zeta in Hres. rewrite Hpos in Hres. rewrite !decide_True in Hres by done.
  destruct Hres as (Hk & Hk1 & Hl' & Ht' & He').
  exists c', (withID id x). split; [done|]. exists (take k (l :: ls)).
  split; [done|]. split; [done|].
  (* how many nodes the eviction loop has left *)
  assert (Hsz : size (byID c) = length ls) by (by apply tight_size).
  assert (Hsz' : size (byID c') = k).
  { rewrite (tight_size c' _ Hl' Ht'), length_take. simpl in Hk |- *. lia. }
  assert (Hkeq : k = (S (Z.to_nat maxE `min` length (reverse (submitted <$> done)))
                      `min` Z.to_nat maxE)%nat).
  { assert (Hlen : length ls
                   = (Z.to_nat maxE `min` length (reverse (submitted <$> done)))%nat).
    { rewrite <-(entries_length c ls Hl), <-(length_fmap submitted), He.
      rewrite length_take. lia. }
    destruct (addToContainer_new_at maxE c ls x id Hl Hd Hid)
      as (c5 & l5 & pos5 & _ & _ & _ & Hl5 & _ & Hby5 & _ & _ & Hadd5).
    assert (Hsz5 : size (byID c5) = S (length ls)).
    { by rewrite Hby5, map_size_insert_None, Hsz. }
    rewrite Hadd in Hadd5. destruct (decide (ls = [])) as [->|Hne].
    { rewrite (Hk1 eq_refl). cbn [length] in Hlen. lia. }
    destruct (evict _ maxE c5) as [c6| | |] eqn:Hev; try done.
    rewrite bind_Ok in Hadd5. injection Hadd5 as ->.
    assert (H0 : 0 ≤ maxE) by lia.
    pose proof (evict_lower _ maxE c5 _ H0 Hev) as Hlow.
    destruct (evict_linked _ _ _ _ _ Hl5 Hev) as (_ & _ & _ & Hup).
    cbn [length] in Hk. lia. }
  rewrite He', fmap_take, fmap_cons, He, Hkeq.
  rewrite fmap_app, reverse_app. simpl.
  apply take_latest. lia.
Qed.

Lemma addEach_latest maxE todo c done :
  1 ≤ maxE → Forall notBoolean todo → ascending (done ++ todo) →
  latest maxE c done →
  ∃ c', addEach maxE c todo = Ok c' ∧ latest maxE c' (done ++ todo).
Proof.
  intros HmaxE. revert c done.
  induction todo as [|x todo IH]; intros c done Hty Hasc Hlat.
  { rewrite app_nil_r. by exists c. }
  apply Forall_cons in Hty as [Hx Hty].
  destruct (addToContainer_latest maxE c done x HmaxE Hx) as (c1 & x1 & Hadd & Hlat1);
    [|done|].
  { clear -Hasc. induction done as [|d done IH]; intros y Hy.
    - by apply elem_of_nil in Hy.
    - destruct Hasc as [Hd Hasc]. apply elem_of_cons in Hy as [->|Hy].
      + rewrite Forall_app, Forall_cons in Hd. by destruct Hd as (_ & ? & _).
      + by apply IH. }
  cbn [addEach]. rewrite Hadd, bind_Ok.
  rewrite (cons_middle x done todo), app_assoc.
  apply IH; [done|by rewrite <-app_assoc|done].
Qed.

Lemma ascending_filter (P : Item → Prop) `{∀ x, Decision (P x)} its :
  ascending its → ascending (filter P its).
Proof.
  induction its as [|x its IH]; [done|]. intros [Hx Hasc].
  destruct (decide (P x)).
  - rewrite filter_cons_True by done. split; [|by apply IH].
    apply Forall_forall. intros y [_ Hy]%list_elem_of_filter.
    by eapply Forall_forall in Hx.
  - rewrite filter_cons_False by done. by apply IH.
Qed.

Lemma Forall_filter_keeps {A} (Q P : A → Prop) `{∀ x, Decision (P x)}
    (xs : list A) :
  Forall Q xs → Forall Q (filter P xs).
Proof.
  rewrite !Forall_forall. intros HQ x [_ Hx]%list_elem_of_filter. by apply HQ.
Qed.

(** ** Properties of the index *)

Lemma GetGroupItems_Ok_inv file g es :
  GetGroupItems file g = Ok es → ∃ c, data file !! g = Some c ∧ items c = Ok es.
Proof.
  unfold GetGroupItems. destruct (data file !! g) as [c|]; [eauto|done].
Qed.

Lemma emptyFile_steady maxE : fileSteady (emptyFile maxE).
Proof. intros g c Hc. simpl in Hc. by rewrite lookup_empty in Hc. Qed.

Lemma emptyFile_lively maxE : fileLively (emptyFile maxE).
Proof. intros g c Hc. simpl in Hc. by rewrite lookup_empty in Hc. Qed.

(** X1. With a bound that is not negative, any sequence of appends to an
    empty store goes through: no call of [addItem] dereferences [nil] and
    its loops end.  Afterwards [GetGroupItems] returns normally for every
    group an entry was appended to, and panics for every other group. *)
Theorem appends_never_fault maxE its :
  0 ≤ maxE →
  ∃ file, addAll (emptyFile maxE) its = Ok file
    ∧ (∀ it, it ∈ its → ∃ es, GetGroupItems file (Group it) = Ok es)
    ∧ (∀ g, g ∉ Group <$> its → GetGroupItems file g = Panic).
Proof.
  intros HmaxE.
  destruct (addAll_steady its (emptyFile maxE) HmaxE (emptyFile_steady maxE))
    as (file & Hrun & Hs & _).
  exists file. split; [done|]. split.
  - intros it Hit.
    assert (is_Some (data file !! Group it)) as [c Hc].
    { apply (addAll_dom its (emptyFile maxE) file (Group it) Hrun).
      right. eauto. }
    destruct (Hs _ _ Hc) as (ls & Hl & _). exists (entries c ls).
    unfold GetGroupItems. rewrite Hc. by apply items_linked.
  - intros g Hg. unfold GetGroupItems.
    destruct (data file !! g) as [c|] eqn:Hc; [exfalso|done].
    assert (is_Some (data file !! g)) as Hsome by eauto.
    apply (addAll_dom its (emptyFile maxE) file g Hrun) in Hsome
      as [[c0 Hc0]|(it & Hit & <-)].
    + simpl in Hc0. by rewrite lookup_empty in Hc0.
    + apply Hg, list_elem_of_fmap. eauto.
Qed.

(** X2. With a negative bound, an entry with a new identity appended to a
    group that lists an entry makes the eviction loop run past the end of
    the sequence: [addItem] dereferences the [nil] tail. *)
Theorem negative_bound_panics file it c ls :
  maxEntries file < 0 → data file !! Group it = Some c →
  linked c ls → ls ≠ [] →
  (Type_ it = "boolean" → byID c !! booleanID it = None) →
  addItem file it = Panic.
Proof.
  intros HmaxE Hc Hl Hne Hfresh. unfold addItem. rewrite Hc. simpl.
  destruct (deriveID_total c it) as [id Hd].
  assert (Hid : byID c !! id = None).
  { destruct (decide (Type_ it = "boolean")) as [Hty|Hty];
      [|by eapply deriveID_fresh].
    unfold deriveID in Hd. rewrite decide_True in Hd by done.
    injection Hd as <-. by apply Hfresh. }
  destruct (addToContainer_new_at (maxEntries file) c ls it id Hl Hd Hid)
    as (c5 & l & pos & _ & _ & _ & Hl5 & _ & _ & _ & _ & Hadd5).
  rewrite Hadd5, decide_False by done.
  rewrite (evict_negative _ _ c5 _ HmaxE Hl5); [done|].
  pose proof (linked_length _ _ Hl5). lia.
Qed.

(** X3. Whatever has been appended to an empty store, [GetGroupItems]
    lists one entry at most or no more entries than the bound. *)
Theorem listing_bounded maxE its file g es :
  addAll (emptyFile maxE) its = Ok file → GetGroupItems file g = Ok es →
  (length es ≤ 1)%nat ∨ Z.of_nat (length es) ≤ maxE.
Proof.
  intros Hrun (c & Hc & Hitems)%GetGroupItems_Ok_inv.
  destruct (addAll_wellListed maxE its file g c Hrun Hc) as (ls & Hl & Hsz & _).
  rewrite (items_linked c ls Hl) in Hitems. injection Hitems as <-.
  rewrite entries_length by done. pose proof (linked_size c ls Hl).
  destruct Hsz; [by left|right; lia].
Qed.

(** X4. The entries that [GetGroupItems] lists for a group have pairwise
    distinct identities, are of that group, and carry the identity of
    their day if they are boolean. *)
Theorem listing_identities maxE its file g es :
  addAll (emptyFile maxE) its = Ok file → GetGroupItems file g = Ok es →
  NoDup (ID <$> es)
  ∧ ∀ x, x ∈ es → Group x = g ∧ (Type_ x = "boolean" → ID x = booleanID x).
Proof.
  intros Hrun (c & Hc & Hitems)%GetGroupItems_Ok_inv.
  destruct (addAll_wellListed maxE its file g c Hrun Hc) as (ls & Hl & _ & Hall).
  rewrite (items_linked c ls Hl) in Hitems. injection Hitems as <-.
  split; [by apply entries_ids_NoDup|].
  intros x Hx. rewrite Forall_forall in Hall. by destruct (Hall x Hx).
Qed.

(** X5. [GetGroupItems] lists nothing that was not appended: every entry
    of a listing is an appended entry of that group, under the identity
    [addItem] gave it. *)
Theorem listing_from_appends maxE its file g es x :
  addAll (emptyFile maxE) its = Ok file → GetGroupItems file g = Ok es →
  x ∈ es → ∃ it, it ∈ its ∧ Group it = g ∧ x = withID (ID x) it.
Proof.
  intros Hrun (c & Hc & Hitems)%GetGroupItems_Ok_inv Hx.
  destruct (addAll_wellListed maxE its file g c Hrun Hc) as (ls & Hl & _ & Hall).
  rewrite (items_linked c ls Hl) in Hitems. injection Hitems as <-.
  rewrite Forall_forall in Hall.
  destruct (Hall x Hx) as ([Hg _] & it & Hit & Hsub).
  exists it. split; [done|]. unfold submitted in Hsub.
  split.
  - rewrite <-Hg. by injection Hsub.
  - destruct x, it. simpl in *. by injection Hsub as -> -> -> -> -> -> -> -> -> ->.
Qed.

(** X6. The identity of an entry that is not boolean ends in the least
    sequence number, counted from 0, under which the container files no
    entry of that group, name and instant. *)
Theorem deriveID_least c it :
  Type_ it ≠ "boolean" →
  ∃ z : Z, 0 ≤ z
    ∧ deriveID c it = Ok (metricPrefix it +:+ pretty z)
    ∧ byID c !! (metricPrefix it +:+ pretty z) = None
    ∧ ∀ j : Z, 0 ≤ j < z → is_Some (byID c !! (metricPrefix it +:+ pretty j)).
Proof.
  intros Hty. destruct (deriveID_total c it) as [id Hd].
  pose proof Hd as Hd'. unfold deriveID in Hd'.
  rewrite decide_False in Hd' by done.
  apply nextFreeID_least in Hd' as (z & Hz & -> & Hfree & Hused).
  exists z. done.
Qed.

(** X7. Two boolean entries of one group and name have the same identity
    exactly when their instants, in nanoseconds since the epoch, have the
    same quotient by the length of a day. *)
Theorem booleanID_iff x y :
  Group x = Group y → Name x = Name y →
  booleanID x = booleanID y
  ↔ CreatedAt x `quot` dayNanos = CreatedAt y `quot` dayNanos.
Proof.
  intros Hg Hn. unfold booleanID. rewrite Hg, Hn. split.
  - intros Heq. do 4 apply (inj (String.app _)) in Heq.
    apply string_app_inj_r in Heq. by apply (inj pretty) in Heq.
  - by intros ->.
Qed.

(** X8. [GetGroups] yields every group once, and the groups it yields are
    those an entry was appended to. *)
Theorem GetGroups_after_appends maxE its file :
  addAll (emptyFile maxE) its = Ok file →
  NoDup (GetGroups file) ∧ ∀ g, g ∈ GetGroups file ↔ g ∈ Group <$> its.
Proof.
  intros Hrun. split; [apply GetGroups_NoDup|]. intros g.
  rewrite GetGroups_elem, (addAll_dom its (emptyFile maxE) file g Hrun).
  rewrite list_elem_of_fmap. simpl. rewrite lookup_empty. split.
  - intros [[? ?]|(it & Hit & <-)]; [done|eauto].
  - intros (it & -> & Hit). right. eauto.
Qed.

(** X9. With a bound of 1 or more, an entry that is not boolean and not
    older than the first entry its group lists is listed first once it is
    appended, under the identity [addItem] returns. *)
Theorem newest_listed_first maxE its file it :
  1 ≤ maxE → addAll (emptyFile maxE) its = Ok file →
  Type_ it ≠ "boolean" →
  (∀ hd rest, GetGroupItems file (Group it) = Ok (hd :: rest) →
     CreatedAt hd ≤ CreatedAt it) →
  ∃ file' it' rest,
    addItem file it = Ok (file', it') ∧ it' = withID (ID it') it
    ∧ GetGroupItems file' (Group it) = Ok (it' :: rest).
Proof.
  intros HmaxE Hrun Hty Hhd.
  destruct (addAll_lively its (emptyFile maxE) HmaxE (emptyFile_lively maxE))
    as (file0 & Hrun0 & Hs & Hm & _).
  assert (file0 = file) as -> by congruence.
  destruct (addItem_lively file it) as
    (file' & it' & Hadd & _ & _ & _ & _ & Hit' & Hfirst); [by rewrite Hm|done|].
  destruct (Hfirst Hty Hhd) as [rest Hrest]. by exists file', it', rest.
Qed.

(** X10. With a bound of 1 or more, any sequence of appends to an empty
    store goes through, and every group an entry was appended to lists an
    entry afterwards. *)
Theorem written_group_lists_an_entry maxE its :
  1 ≤ maxE →
  ∃ file, addAll (emptyFile maxE) its = Ok file
    ∧ ∀ it, it ∈ its → ∃ x rest, GetGroupItems file (Group it) = Ok (x :: rest).
Proof.
  intros HmaxE.
  destruct (addAll_lively its (emptyFile maxE) HmaxE (emptyFile_lively maxE))
    as (file & Hrun & Hs & _ & _ & Hin).
  exists file. split; [done|]. intros it [c Hc]%Hin.
  destruct (Hs _ _ Hc) as (ls & Hl & Hne & _).
  unfold GetGroupItems. rewrite Hc, (items_linked c ls Hl).
  pose proof (entries_length c ls Hl) as Hlen.
  destruct (entries c ls) as [|x rest]; [|eauto].
  destruct ls; simpl in Hlen; [done|lia].
Qed.

(** X11. When no boolean entry has been appended, every listing is in
    descending order of the instants, whatever the order of the appends
    and whatever the eviction loop has cut off. *)
Theorem metric_listing_descending maxE its file g es :
  Forall notBoolean its →
  addAll (emptyFile maxE) its = Ok file → GetGroupItems file g = Ok es →
  descending es.
Proof.
  intros Hall Hrun (c & Hc & Hitems)%GetGroupItems_Ok_inv.
  destruct (addAll_keeps notBoolean ordered ordered_keeps ordered_empty
              its (emptyFile maxE) file Hall) as [_ Hord]; [|done|].
  { intros g' c' Hc'. simpl in Hc'. by rewrite lookup_empty in Hc'. }
  destruct (Hord g c Hc) as (ls & Hl & Hd).
  rewrite (items_linked c ls Hl) in Hitems. by injection Hitems as <-.
Qed.

(** X12. An append of an entry that is not boolean leaves the entries of
    its group in the order they were listed in: the listing afterwards is
    an initial segment of the old listing with the new entry put in front
    of the first entry that is not newer.  The listings of the other
    groups are as before. *)
Theorem append_keeps_the_order maxE its file it file' it' es :
  addAll (emptyFile maxE) its = Ok file → Type_ it ≠ "boolean" →
  addItem file it = Ok (file', it') →
  retained file (Group it) = es →
  (∃ k, GetGroupItems file' (Group it) = Ok (take k (placed it' es)))
  ∧ ∀ g, g ≠ Group it → GetGroupItems file' g = GetGroupItems file g.
Proof.
  intros Hrun Hty Hadd <-. unfold addItem in Hadd.
  destruct (addToContainer _ _ it) as [[c' it1]| | |] eqn:Hc; try done.
  rewrite bind_Ok in Hadd. injection Hadd as <- <-. split.
  - assert (∃ ls, linked (default emptyContainer (data file !! Group it)) ls
              ∧ retained file (Group it)
                = entries (default emptyContainer (data file !! Group it)) ls)
      as (ls & Hl & Hret).
    { destruct (data file !! Group it) as [c|] eqn:Hg; simpl.
      - destruct (addAll_wellListed maxE its file _ c Hrun Hg) as (ls & Hl & _).
        exists ls. split; [done|]. by apply retained_linked.
      - exists []. split; [apply linked_empty|]. by apply retained_None. }
    destruct (addToContainer_listing _ _ ls it c' it1 Hl Hc)
      as (id & ls' & -> & _ & Hl' & [(Hb & _)|(_ & _ & k & He)]); [done|].
    exists k. unfold GetGroupItems. simpl. rewrite lookup_insert_eq.
    by rewrite (items_linked c' ls' Hl'), He, Hret.
  - intros g Hne. unfold GetGroupItems. simpl. by rewrite lookup_insert_ne.
Qed.

(** X13. When entries that are not boolean are appended in the order of
    their instants, as a running scheduler appends them, and the bound is 1
    or more, every group lists the latest of its entries, as many as the
    bound allows, newest first. *)
Theorem in_order_appends_keep_the_latest maxE its :
  1 ≤ maxE → Forall notBoolean its → ascending its →
  ∃ file, addAll (emptyFile maxE) its = Ok file
    ∧ ∀ it, it ∈ its →
        ∃ es, GetGroupItems file (Group it) = Ok es
          ∧ submitted <$> es
            = take (Z.to_nat maxE)
                (reverse (submitted <$> filter (λ x, Group x = Group it) its)).
Proof.
  intros HmaxE Hty Hasc.
  assert (Hgrp : ∀ g, ∃ c',
            addEach maxE emptyContainer (filter (λ x, Group x = g) its) = Ok c'
            ∧ latest maxE c' (filter (λ x, Group x = g) its)).
  { intros g.
    apply (addEach_latest maxE (filter (λ x, Group x = g) its) emptyContainer []);
      [done|by apply Forall_filter_keeps|by apply ascending_filter|].
    exists []. split; [apply linked_empty|]. split; [apply tight_empty|].
    by destruct (Z.to_nat maxE). }
  destruct (addAll_groups its (emptyFile maxE)) as (file & Hrun & _ & _ & Hdata).
  { intros g. simpl. rewrite lookup_empty. simpl.
    destruct (Hgrp g) as (c' & Hc' & _). eauto. }
  exists file. split; [done|]. intros it Hit.
  destruct (Hgrp (Group it)) as (c' & Hc' & ls & Hl & _ & He).
  specialize (Hdata (Group it) c'). simpl in Hdata.
  rewrite lookup_empty in Hdata. simpl in Hdata. specialize (Hdata Hc').
  rewrite decide_False in Hdata.
  2:{ intros Hnil. assert (Hin : it ∈ filter (λ x, Group x = Group it) its)
        by (by apply list_elem_of_filter).
      rewrite Hnil in Hin. by apply elem_of_nil in Hin. }
  exists (entries c' ls). split; [|done].
  unfold GetGroupItems. rewrite Hdata. by apply items_linked.
Qed.

Lemma appends_never_fault_witness :
  ∃ file, addAll (emptyFile 0) sampleRun = Ok file
    ∧ (∀ it, it ∈ sampleRun → ∃ es, GetGroupItems file (Group it) = Ok es)
    ∧ (∀ g, g ∉ Group <$> sampleRun → GetGroupItems file g = Panic).
Proof. apply (appends_never_fault 0 sampleRun). lia. Defined.

Lemma negative_bound_panics_witness : addItem unboundedBelow latencyA = Panic.
Proof.
  apply (negative_bound_panics unboundedBelow latencyA
           (singleton 0%nat (withID (booleanID pingMorning) pingMorning))
           [0%nat]).
  - simpl. lia.
  - reflexivity.
  - apply singleton_linked.
  - discriminate.
  - discriminate.
Defined.

Lemma listing_bounded_witness :
  (length (retained sampleStore "web") ≤ 1)%nat
  ∨ Z.of_nat (length (retained sampleStore "web")) ≤ 5.
Proof.
  apply (listing_bounded 5 sampleRun sampleStore "web"); vm_compute; reflexivity.
Defined.

Lemma listing_identities_witness :
  NoDup (ID <$> retained sampleStore "web")
  ∧ ∀ x, x ∈ retained sampleStore "web" →
      Group x = "web" ∧ (Type_ x = "boolean" → ID x = booleanID x).
Proof.
  apply (listing_identities 5 sampleRun sampleStore "web"); vm_compute;
    reflexivity.
Defined.

Lemma listing_from_appends_witness :
  ∃ it, it ∈ sampleRun ∧ Group it = "db"
    ∧ withID (booleanID dbPing) dbPing
      = withID (ID (withID (booleanID dbPing) dbPing)) it.
Proof.
  apply (listing_from_appends 5 sampleRun sampleStore "db"
           (retained sampleStore "db")).
  - vm_compute. reflexivity.
  - vm_compute. reflexivity.
  - vm_compute. left.
Defined.

Lemma deriveID_least_witness :
  ∃ z : Z, 0 ≤ z
    ∧ deriveID emptyContainer latencyA = Ok (metricPrefix latencyA +:+ pretty z)
    ∧ byID emptyContainer !! (metricPrefix latencyA +:+ pretty z) = None
    ∧ ∀ j : Z, 0 ≤ j < z →
        is_Some (byID emptyContainer !! (metricPrefix latencyA +:+ pretty j)).
Proof. apply (deriveID_least emptyContainer latencyA). discriminate. Defined.

Lemma booleanID_iff_witness :
  booleanID pingMorning = booleanID pingNoon
  ↔ CreatedAt pingMorning `quot` dayNanos = CreatedAt pingNoon `quot` dayNanos.
Proof. apply (booleanID_iff pingMorning pingNoon); reflexivity. Defined.

Lemma GetGroups_after_appends_witness :
  NoDup (GetGroups sampleStore)
  ∧ ∀ g, g ∈ GetGroups sampleStore ↔ g ∈ Group <$> sampleRun.
Proof.
  apply (GetGroups_after_appends 5 sampleRun sampleStore).
  vm_compute. reflexivity.
Defined.

Lemma newest_listed_first_witness :
  ∃ file' it' rest,
    addItem metricStore (metricAt "latency" (day0 + 5 * hour)) = Ok (file', it')
    ∧ it' = withID (ID it') (metricAt "latency" (day0 + 5 * hour))
    ∧ GetGroupItems file' "web" = Ok (it' :: rest).
Proof.
  apply (newest_listed_first 3 metricRun metricStore
           (metricAt "latency" (day0 + 5 * hour))).
  - lia.
  - vm_compute. reflexivity.
  - discriminate.
  - intros hd rest Hhd. vm_compute in Hhd. injection Hhd as <- _.
    vm_compute. discriminate.
Defined.

Lemma written_group_lists_an_entry_witness :
  ∃ file, addAll (emptyFile 1) sampleRun = Ok file
    ∧ ∀ it, it ∈ sampleRun →
        ∃ x rest, GetGroupItems file (Group it) = Ok (x :: rest).
Proof. apply (written_group_lists_an_entry 1 sampleRun). lia. Defined.

Lemma metric_listing_descending_witness :
  descending (retained metricStore "web").
Proof.
  apply (metric_listing_descending 3 metricRun metricStore "web").
  - repeat constructor; discriminate.
  - vm_compute. reflexivity.
  - vm_compute. reflexivity.
Defined.

Lemma append_keeps_the_order_witness :
  (∃ k, GetGroupItems
          (afterAll metricStore [metricAt "latency" (day0 + 5 * hour)]) "web"
        = Ok (take k (placed (withID (metricPrefix (metricAt "latency" (day0 + 5 * hour)) +:+ "0")
                                (metricAt "latency" (day0 + 5 * hour)))
                        (retained metricStore "web"))))
  ∧ ∀ g, g ≠ "web" →
      GetGroupItems (afterAll metricStore [metricAt "latency" (day0 + 5 * hour)]) g
      = GetGroupItems metricStore g.
Proof.
  apply (append_keeps_the_order 3 metricRun metricStore
           (metricAt "latency" (day0 + 5 * hour))).
  - vm_compute. reflexivity.
  - discriminate.
  - vm_compute. reflexivity.
  - reflexivity.
Defined.

Lemma in_order_appends_keep_the_latest_witness :
  ∃ file, addAll (emptyFile 2) [latencyA; latencyB; nextWeek] = Ok file
    ∧ ∀ it, it ∈ [latencyA; latencyB; nextWeek] →
        ∃ es, GetGroupItems file (Group it) = Ok es
          ∧ submitted <$> es
            = take (Z.to_nat 2)
                (reverse (submitted <$> filter (λ x, Group x = Group it)
                                          [latencyA; latencyB; nextWeek])).
Proof.
  apply (in_order_appends_keep_the_latest 2 [latencyA; latencyB; nextWeek]).
  - lia.
  - repeat constructor; discriminate.
  - simpl. repeat split; repeat constructor; vm_compute; discriminate.
Defined.

End index_facts.

Module durable_facts.
Import history history_defs history_facts coordinator_defs coordinator_facts.
Import recovery_defs recovery_facts index_defs index_facts durable_defs.

(** *** The read loop of [New] on any log *)

Lemma replay_mono file cur lines file' g :
  replay file cur lines = Ok file' →
  is_Some (data file !! g) → is_Some (data file' !! g).
Proof.
  revert file cur. induction lines as [|ln lines IH]; intros file cur.
  { by intros [= <-]. }
  simpl. destruct (ln cur) as [cur'|]; [|done]. unfold addItem.
  destruct (addToContainer _ _ cur') as [[c1 it1]| | |]; try done.
  rewrite !bind_Ok. intros Hrest Hg. apply (IH _ _ Hrest). simpl.
  destruct (decide (g = Group cur')) as [->|Hne].
  - rewrite lookup_insert_eq. eauto.
  - by rewrite lookup_insert_ne.
Qed.

Lemma replay_nonempty file cur ln lines file' :
  replay file cur (ln :: lines) = Ok file' → data file' ≠ ∅.
Proof.
  simpl. destruct (ln cur) as [cur'|]; [|done]. unfold addItem.
  destruct (addToContainer _ _ cur') as [[c1 it1]| | |]; try done.
  rewrite !bind_Ok. intros Hrest Hempty.
  assert (is_Some (data file' !! Group cur')) as [c Hc].
  { apply (replay_mono _ _ _ _ _ Hrest). simpl. rewrite lookup_insert_eq. eauto. }
  rewrite Hempty in Hc. by rewrite lookup_empty in Hc.
Qed.

Lemma replay_steady lines file cur :
  0 ≤ maxEntries file → fileSteady file →
  (∀ ln, ln ∈ lines → ∀ it, is_Some (ln it)) →
  ∃ file', replay file cur lines = Ok file' ∧ fileSteady file'
    ∧ maxEntries file' = maxEntries file.
Proof.
  revert file cur. induction lines as [|ln lines IH]; intros file cur HmaxE Hs Hok.
  { exists file. done. }
  destruct (Hok ln (list_elem_of_here _ _) cur) as [cur' Hcur].
  destruct (addItem_steady file cur' HmaxE Hs)
    as (file1 & it1 & Hadd & Hs1 & Hm1 & _).
  simpl. rewrite Hcur, Hadd, bind_Ok.
  destruct (IH file1 cur') as (file' & Hrun & Hs' & Hm');
    [by rewrite Hm1|done| |].
  { intros ln' Hln'. apply Hok. by right. }
  exists file'. split; [done|]. split; [done|congruence].
Qed.

Lemma replay_garbled good bad rest file cur :
  0 ≤ maxEntries file → fileSteady file →
  (∀ ln, ln ∈ good → ∀ it, is_Some (ln it)) → (∀ it, bad it = None) →
  ∃ e, replay file cur (good ++ bad :: rest) = Err e.
Proof.
  revert file cur. induction good as [|ln good IH]; intros file cur HmaxE Hs Hok Hbad.
  { simpl. rewrite Hbad. eauto. }
  destruct (Hok ln (list_elem_of_here _ _) cur) as [cur' Hcur].
  destruct (addItem_steady file cur' HmaxE Hs)
    as (file1 & it1 & Hadd & Hs1 & Hm1 & _).
  simpl. rewrite Hcur, Hadd, bind_Ok.
  apply IH; [by rewrite Hm1|done| |done].
  intros ln' Hln'. apply Hok. by right.
Qed.

Lemma emptyStore_sound disk maxE : fileSound (mkFile disk [] ∅ maxE).
Proof. intros g c Hc. simpl in Hc. by rewrite lookup_empty in Hc. Qed.

Lemma emptyStore_steady disk q maxE : fileSteady (mkFile disk q ∅ maxE).
Proof. intros g c Hc. simpl in Hc. by rewrite lookup_empty in Hc. Qed.

Lemma retained_no_data file groups :
  data file = ∅ → concat (retained file <$> groups) = [].
Proof.
  intros Hd. induction groups as [|g groups IH]; [done|].
  rewrite fmap_cons, concat_cons, IH, retained_None; [done|].
  by rewrite Hd, lookup_empty.
Qed.

(** ** Properties of recovery and compaction *)

(** X14. When [New] succeeds, the log file holds one line for every entry
    that [GetGroupItems] lists and no other line: the entries of the
    groups one after another, in the order in which the map yielded the
    groups, each group from head to tail. *)
Theorem New_leaves_the_listing marshalErr options disk groups io store :
  New marshalErr options disk groups io = Ok store →
  Close store = encode <$> concat (retained store <$> groups).
Proof.
  intros Hnew.
  destruct (New_inv marshalErr options disk groups io store Hnew)
    as (file1 & Hr1 & Hd1 & Hm1 & [[Hsz Hfd]|[Hsz Hcompact]]).
  - apply map_size_empty_iff in Hsz.
    rewrite retained_no_data by congruence. unfold Close.
    destruct (replay_sound _ _ _ _ (emptyStore_sound disk (MaxEntries options)) Hr1)
      as (_ & _ & Hfd1). simpl in Hfd1.
    etrans; [exact Hfd|]. etrans; [exact Hfd1|].
    destruct disk as [|ln disk]; [done|].
    by apply replay_nonempty in Hr1.
  - apply compact_spec in Hcompact as [Hwb _]. unfold Close.
    etrans; [exact Hwb|]. simpl. f_equal. f_equal.
    apply list_fmap_ext. intros _ g _. symmetry. by apply retained_data.
Qed.

(** X15. With a bound and a capacity of the channel of pending writes that
    are not negative, [New] succeeds on every log whose lines can be
    decoded, when the entries can be serialized, the file can be opened,
    the channel can be allocated and no file operation fails, whatever the
    order in which the map yields the groups. *)
Theorem New_succeeds marshalErr options disk :
  0 ≤ MaxEntries options → 0 ≤ MaxConcurrentWrites options →
  (∀ ln, ln ∈ disk → ∀ it, is_Some (ln it)) →
  (∀ it, marshalErr it = None) →
  ∃ keys, ∀ groups, groups ≡ₚ keys →
    ∃ store, New marshalErr options disk groups noFaults = Ok store
      ∧ GetGroups store ≡ₚ keys.
Proof.
  intros HmaxE Hcap Hok Hmarshal.
  destruct (replay_steady disk (mkFile disk [] ∅ (MaxEntries options)) zeroItem
              HmaxE (emptyStore_steady _ _ _) Hok)
    as (file1 & Hr1 & Hs1 & _).
  exists (GetGroups file1). intros groups Hgroups.
  destruct (New_noFaults marshalErr options disk groups file1 Hcap Hr1)
    as (store & Hnew & Hd).
  { right. apply compact_total. intros g Hg. rewrite Hgroups in Hg.
    apply GetGroups_elem in Hg as [c Hc].
    destruct (Hs1 g c Hc) as (ls & Hl & _). exists (entries c ls). split.
    - unfold GetGroupItems. rewrite Hc. by apply items_linked.
    - by apply Forall_forall. }
  exists store. split; [done|]. unfold GetGroups. by rewrite Hd.
Qed.

(** [New] fails before a line is read when the file cannot be opened, and
    panics when the capacity of the channel of pending writes is negative
    or cannot be allocated. *)
Lemma New_open_error marshalErr options disk groups io e :
  openErr io = Some e → New marshalErr options disk groups io = Err e.
Proof. intros He. unfold New. by rewrite He. Qed.

Lemma New_capacity_panics marshalErr options disk groups io :
  openErr io = None →
  MaxConcurrentWrites options < 0 ∨ chanPanics io = true →
  New marshalErr options disk groups io = Panic.
Proof.
  intros Ho Hc. unfold New. rewrite Ho. simpl.
  case_decide; [done|]. destruct Hc as [?|Hc]; [lia|]. by rewrite Hc.
Qed.

(** X16. With a bound and a capacity of the channel of pending writes that
    are not negative, and a channel that can be allocated, [New] returns an
    error and no store when a line of the log cannot be decoded, whatever
    precedes and follows that line and whether or not the file operations
    fail. *)
Theorem New_rejects_a_garbled_line marshalErr options good bad rest groups io :
  0 ≤ MaxEntries options → 0 ≤ MaxConcurrentWrites options →
  chanPanics io = false →
  (∀ ln, ln ∈ good → ∀ it, is_Some (ln it)) → (∀ it, bad it = None) →
  ∃ e, New marshalErr options (good ++ bad :: rest) groups io = Err e.
Proof.
  intros HmaxE Hcap Hchan Hok Hbad.
  destruct (openErr io) as [e|] eqn:Ho.
  { exists e. by apply New_open_error. }
  destruct (replay_garbled good bad rest
              (mkFile (good ++ bad :: rest) [] ∅ (MaxEntries options)) zeroItem
              HmaxE (emptyStore_steady _ _ _) Hok Hbad) as [e He].
  exists e. unfold New. rewrite Ho, Hchan. simpl.
  rewrite decide_False by lia. by rewrite He.
Qed.

(** *** What [addItem] reads of a store and of an entry *)

Lemma addToContainer_withID maxE c id it :
  addToContainer maxE c (withID id it) = addToContainer maxE c it.
Proof. by destruct it. Qed.

Lemma addToContainer_result maxE c it c' it' :
  addToContainer maxE c it = Ok (c', it') → ∃ id, it' = withID id it.
Proof.
  unfold addToContainer.
  destruct (deriveID c it) as [id| | |]; try done. rewrite bind_Ok. cbv zeta.
  destruct (match byID c !! id with Some l => _ | None => _ end) as [node c1].
  destruct (store c1 (Some node) _) as [c2| | |]; try done. rewrite bind_Ok.
  destruct (if _ : bool then _ else _) as [c3| | |]; try done.
  rewrite bind_Ok. intros [= <- <-]. eauto.
Qed.

Lemma addItem_data f1 f2 it f1' it' :
  data f1 = data f2 → maxEntries f1 = maxEntries f2 →
  addItem f1 it = Ok (f1', it') →
  ∃ f2', addItem f2 it = Ok (f2', it') ∧ data f2' = data f1'
    ∧ maxEntries f2' = maxEntries f1'.
Proof.
  intros Hd Hm. unfold addItem. rewrite Hd, Hm.
  destruct (addToContainer _ _ it) as [[c1 it1]| | |]; try done.
  rewrite !bind_Ok. intros [= <- <-]. eexists. split; [done|]. done.
Qed.

Lemma addAll_data its f1 f2 f1' :
  data f1 = data f2 → maxEntries f1 = maxEntries f2 →
  addAll f1 its = Ok f1' →
  ∃ f2', addAll f2 its = Ok f2' ∧ data f2' = data f1'
    ∧ maxEntries f2' = maxEntries f1'.
Proof.
  revert f1 f2. induction its as [|it its IH]; intros f1 f2 Hd Hm.
  { intros [= <-]. by exists f2. }
  cbn [addAll].
  destruct (addItem f1 it) as [[f1a it1]| | |] eqn:Hadd; try done.
  rewrite bind_Ok. intros Hrest.
  destruct (addItem_data f1 f2 it f1a it1 Hd Hm Hadd) as (f2a & Hadd2 & Hd2 & Hm2).
  rewrite Hadd2, bind_Ok. by apply (IH f1a f2a).
Qed.

Lemma addAll_snoc its it file :
  addAll file (its ++ [it])
  = file1 ← addAll file its; '(file2, _) ← addItem file1 it; Ok file2.
Proof.
  revert file. induction its as [|x its IH]; intros file.
  { simpl. destruct (addItem file it) as [[f v]| | |]; done. }
  cbn [app addAll].
  destruct (addItem file x) as [[f v]| | |]; try done.
  rewrite !bind_Ok. apply IH.
Qed.

(** *** One wake-up of the writer *)

(** The log holds the entries [its], and the index is what the appends of
    [its] to an empty store make. *)
Lemma bgWriter_logged marshalErr io file evs file' its f :
  (∀ it, marshalErr it = None) →
  fd file = encode <$> its →
  addAll (emptyFile (maxEntries file)) its = Ok f → data f = data file →
  bgWriter marshalErr file io = (evs, Some file') →
  ∃ its' f', fd file' = encode <$> its'
    ∧ addAll (emptyFile (maxEntries file')) its' = Ok f'
    ∧ data f' = data file' ∧ maxEntries file' = maxEntries file.
Proof.
  intros Hmarshal Hfd Hrun Hd Hbg.
  destruct (writes file) as [|req q] eqn:Hq.
  { unfold bgWriter in Hbg. rewrite Hq in Hbg. injection Hbg as _ <-.
    by exists its, f. }
  destruct (bgWriter_cases marshalErr file io req q Hq)
    as [(_ & Hpanic & _)|(file1 & it & Hadd & Hcase)]; [congruence|].
  destruct Hcase as [(e & He & _)|(_ & [[Hpanic _]|[Hok _]])];
    [by rewrite Hmarshal in He|congruence|].
  rewrite Hok in Hbg. injection Hbg as _ <-.
  destruct (addItem_frame _ _ _ _ Hadd) as (Hfd1 & _ & Hm1). simpl in Hfd1, Hm1.
  assert (Hmf : maxEntries f = maxEntries file).
  { destruct (addAll_keeps (λ _, True) (λ _ _ _, True) (λ _ _ _ _ _ _ _ _, I)
                (λ _ _, I) its (emptyFile (maxEntries file)) f) as [Hm _];
      [by apply Forall_forall|done|done|done]. }
  destruct (addItem_data (setWrites q file) f (item req) file1 it)
    as (f1 & Hadd1 & Hd1 & Hmf1); [done|done|done|].
  assert (∃ id, it = withID id (item req)) as [id ->].
  { unfold addItem in Hadd.
    destruct (addToContainer _ _ (item req)) as [[c1 it1]| | |] eqn:Hc; try done.
    rewrite bind_Ok in Hadd. injection Hadd as _ <-.
    by eapply addToContainer_result. }
  exists (its ++ [withID id (item req)]), f1. simpl.
  split; [by rewrite Hfd1, Hfd, fmap_app|]. split; [|done].
  rewrite Hm1, addAll_snoc, Hrun, bind_Ok.
  unfold addItem in Hadd1 |- *. simpl.
  rewrite addToContainer_withID. simpl in Hadd1.
  destruct (addToContainer _ _ (item req)) as [[c1 it1]| | |]; try done.
  rewrite bind_Ok in Hadd1 |- *. by injection Hadd1 as <- _.
Qed.

Lemma wakeUps_logged marshalErr io n file file' its f :
  (∀ it, marshalErr it = None) →
  fd file = encode <$> its →
  addAll (emptyFile (maxEntries file)) its = Ok f → data f = data file →
  wakeUps marshalErr io n file = Some file' →
  ∃ its' f', fd file' = encode <$> its'
    ∧ addAll (emptyFile (maxEntries file')) its' = Ok f'
    ∧ data f' = data file' ∧ maxEntries file' = maxEntries file.
Proof.
  intros Hmarshal. revert file its f.
  induction n as [|n IH]; intros file its f Hfd Hrun Hd.
  { intros [= <-]. by exists its, f. }
  cbn [wakeUps].
  destruct (bgWriter marshalErr file io) as [evs [file1|]] eqn:Hbg; [|done].
  destruct (bgWriter_logged marshalErr io file evs file1 its f
              Hmarshal Hfd Hrun Hd Hbg) as (its1 & f1 & Hfd1 & Hrun1 & Hd1 & Hm1).
  intros Hrest.
  destruct (IH file1 its1 f1 Hfd1 Hrun1 Hd1 Hrest)
    as (its' & f' & Hfd' & Hrun' & Hd' & Hm').
  exists its', f'. split; [done|]. split; [done|]. split; [done|]. congruence.
Qed.

(** ** Properties of the writer *)

(** X17. One wake-up of the writer on a queue that is not empty takes the
    first request out of the queue and leaves the others in it; if the
    process does not panic, that request and no other is answered, once;
    if the process panics, nobody is answered. *)
Theorem bgWriter_serves_one marshalErr file io req q evs r :
  writes file = req :: q → bgWriter marshalErr file io = (evs, r) →
  match r with
  | Some file' => writes file' = q ∧ ∃ e, answers evs = [(errChan req, e)]
  | None => answers evs = []
  end.
Proof.
  intros Hq Hbg.
  destruct (bgWriter_cases marshalErr file io req q Hq)
    as [(_ & Hpanic & _)|(file1 & it & Hadd & Hcase)].
  { rewrite Hpanic in Hbg. by injection Hbg as <- <-. }
  destruct (addItem_frame _ _ _ _ Hadd) as (_ & Hw1 & _). simpl in Hw1.
  destruct Hcase as [(e & He & Herr)|(_ & [[Hpanic _]|[Hok _]])].
  - rewrite Herr in Hbg. injection Hbg as <- <-. split; [done|]. by exists (Some e).
  - rewrite Hpanic in Hbg. by injection Hbg as <- <-.
  - rewrite Hok in Hbg. injection Hbg as <- <-. split; [done|]. by exists None.
Qed.

(** X18. A waiter is told of an error only when its entry cannot be
    serialized.  The writer then has written nothing, has not synced and
    has not released the lock it took; the entry has been filed in the
    index all the same. *)
Theorem bgWriter_error_keeps_lock marshalErr file io evs file' ch e :
  bgWriter marshalErr file io = (evs, Some file') →
  EvSend ch (Some e) ∈ evs →
  evs = [EvLock; EvSend ch (Some e)] ∧ fd file' = fd file
  ∧ ∃ req q it, writes file = req :: q ∧ errChan req = ch
      ∧ addItem (setWrites q file) (item req) = Ok (file', it)
      ∧ marshalErr it = Some e.
Proof.
  intros Hbg Hin.
  destruct (writes file) as [|req q] eqn:Hq.
  { unfold bgWriter in Hbg. rewrite Hq in Hbg. injection Hbg as <- _.
    by apply elem_of_nil in Hin. }
  destruct (bgWriter_cases marshalErr file io req q Hq)
    as [(_ & Hpanic & _)|(file1 & it & Hadd & Hcase)]; [congruence|].
  destruct (addItem_frame _ _ _ _ Hadd) as (Hfd1 & _ & _). simpl in Hfd1.
  destruct Hcase as [(e' & He & Herr)|(_ & [[Hpanic _]|[Hok _]])];
    [|congruence|].
  - rewrite Herr in Hbg. injection Hbg as <- <-.
    rewrite !elem_of_cons, elem_of_nil in Hin.
    destruct Hin as [?|[[= -> ->]|[]]]; [done|].
    split; [done|]. split; [done|]. by exists req, q, it.
  - rewrite Hok in Hbg. injection Hbg as <- _.
    rewrite !elem_of_cons, elem_of_nil in Hin.
    destruct Hin as [?|[?|[?|[?|[?|[]]]]]]; done.
Qed.

(** X19. A restart finds the index as it was.  When every entry can be
    serialized, the log that any number of wake-ups of the writer leave
    behind, starting from an empty log and an empty index, is read back by
    [New], called with the same bound and a capacity of the channel of
    pending writes that is not negative, into the index that the store
    holds, node for node. *)
Theorem restart_recovers_the_index marshalErr io n file0 file groups k :
  0 ≤ k →
  data file0 = ∅ → fd file0 = [] → (∀ it, marshalErr it = None) →
  wakeUps marshalErr io n file0 = Some file →
  groups ≡ₚ GetGroups file →
  ∃ store,
    New marshalErr (mkOptions (maxEntries file0) k) (Close file) groups noFaults
    = Ok store
    ∧ data store = data file.
Proof.
  intros Hk Hd0 Hfd0 Hmarshal Hrun Hgroups.
  destruct (wakeUps_logged marshalErr io n file0 file [] (emptyFile (maxEntries file0))
              Hmarshal Hfd0 eq_refl (eq_sym Hd0) Hrun)
    as (its & f & Hfd & Hadd & Hd & Hm).
  rewrite Hm in Hadd.
  destruct (addAll_data its (emptyFile (maxEntries file0))
              (mkFile (Close file) [] ∅ (maxEntries file0)) f eq_refl eq_refl Hadd)
    as (f2 & Hadd2 & Hd2 & _).
  assert (Hr : replay (mkFile (Close file) [] ∅ (maxEntries file0)) zeroItem
                 (Close file) = Ok f2).
  { unfold Close at 2. rewrite Hfd. by rewrite replay_encode. }
  destruct (New_noFaults marshalErr (mkOptions (maxEntries file0) k)
              (Close file) groups f2 Hk Hr) as (store & Hnew & Hds).
  { right. apply compact_total. intros g Hg. rewrite Hgroups in Hg.
    apply GetGroups_elem in Hg as [c Hc].
    assert (Hcf : data f !! g = Some c) by (by rewrite Hd).
    destruct (addAll_wellListed _ its f g c Hadd Hcf) as (ls & Hl & _).
    exists (entries c ls). split.
    - unfold GetGroupItems. rewrite Hd2, Hcf. by apply items_linked.
    - by apply Forall_forall. }
  exists store. split; [done|]. congruence.
Qed.

Lemma New_succeeds_witness :
  ∃ keys, ∀ groups, groups ≡ₚ keys →
    ∃ store, New marshalOK roomy mixedLog groups noFaults = Ok store
      ∧ GetGroups store ≡ₚ keys.
Proof.
  apply (New_succeeds marshalOK roomy mixedLog).
  - simpl. lia.
  - simpl. lia.
  - intros ln Hln it. unfold mixedLog in Hln.
    apply list_elem_of_fmap in Hln as (x & -> & _). by exists x.
  - reflexivity.
Defined.

Lemma New_leaves_the_listing_witness :
  Close mixedStore = encode <$> concat (retained mixedStore <$> ["web"]).
Proof.
  apply (New_leaves_the_listing marshalOK roomy mixedLog ["web"] noFaults).
  vm_compute. reflexivity.
Defined.

Lemma New_rejects_a_garbled_line_witness :
  ∃ e, New marshalOK roomy (twinLog ++ garbled :: mixedLog) ["web"] noFaults
       = Err e.
Proof.
  apply (New_rejects_a_garbled_line marshalOK roomy twinLog garbled mixedLog).
  - simpl. lia.
  - simpl. lia.
  - reflexivity.
  - intros ln Hln it. unfold twinLog in Hln.
    apply list_elem_of_fmap in Hln as (x & -> & _). by exists x.
  - reflexivity.
Defined.

Lemma bgWriter_serves_one_witness :
  match (bgWriter marshalOK threePending written).2 with
  | Some file' =>
      writes file' = [mkRequest latencyA 2; mkRequest pingNoon 3]
      ∧ ∃ e, answers (bgWriter marshalOK threePending written).1 = [(1%nat, e)]
  | None => answers (bgWriter marshalOK threePending written).1 = []
  end.
Proof.
  apply (bgWriter_serves_one marshalOK threePending written
           (mkRequest pingMorning 1)).
  - reflexivity.
  - by destruct (bgWriter marshalOK threePending written).
Defined.

Lemma bgWriter_error_keeps_lock_witness :
  (bgWriter refusesLatency (setWrites [mkRequest latencyA 2] threePending)
     written).1
  = [EvLock; EvSend 2 (Some "json: unsupported value")].
Proof.
  destruct (bgWriter refusesLatency (setWrites [mkRequest latencyA 2] threePending)
              written) as [evs [file'|]] eqn:Hbg; [|by vm_compute in Hbg].
  apply (bgWriter_error_keeps_lock refusesLatency
           (setWrites [mkRequest latencyA 2] threePending) written evs file'
           2%nat "json: unsupported value" Hbg).
  vm_compute in Hbg. injection Hbg as <- _. right. left.
Defined.

Lemma restart_recovers_the_index_witness :
  ∃ store,
    New marshalOK (mkOptions 5 1)
      (Close (default threePending (wakeUps marshalOK written 3 threePending)))
      ["web"] noFaults = Ok store
    ∧ data store
      = data (default threePending (wakeUps marshalOK written 3 threePending)).
Proof.
  apply (restart_recovers_the_index marshalOK written 3 threePending _ ["web"] 1).
  - lia.
  - reflexivity.
  - reflexivity.
  - reflexivity.
  - vm_compute. reflexivity.
  - vm_compute. reflexivity.
Defined.

End durable_facts.

Module probe_facts.
Import checker checker_defs probe_defs.

Section executor.
Context {float64 : Type} (zero : float64)
        (ParseFloat : string → float64 + string) (TrimSpace : string → string).

Abbreviation check := (check float64 zero ParseFloat TrimSpace).

(** X20. Whatever the kind of the probe and whatever its command does,
    the entry of an attempt is healthy or unhealthy; it is healthy exactly
    when its error text is empty; an attempt whose command fails to run or
    exits with a status other than zero is unhealthy; an unhealthy entry
    has the metric zero; and the entry names the probe. *)
Theorem check_outcome c ex :
  (iStatus (check c ex) = "healthy" ∨ iStatus (check c ex) = "unhealthy")
  ∧ (iStatus (check c ex) = "healthy" ↔ iError (check c ex) = "")
  ∧ (iStatus (check c ex) = "healthy" → runErr ex = None)
  ∧ (iStatus (check c ex) = "unhealthy" → iMetric (check c ex) = zero)
  ∧ iGroup (check c ex) = Group c ∧ iName (check c ex) = Name c
  ∧ iType (check c ex) = Type_ c ∧ iMetricUnit (check c ex) = MetricUnit c.
Proof.
  unfold checker.check.
  destruct (runErr ex) as [[code|msg]|]; simpl.
  - split; [by right|]. split; [split; intros H; by inversion H|]. done.
  - split; [by right|]. split; [split; intros H; by inversion H|]. done.
  - destruct (decide (Type_ c = "metric")) as [Hty|Hty];
      [|simpl; split_and!; by auto].
    destruct (ParseFloat _) as [n|e]; simpl.
    + split_and!; by auto.
    + split; [by right|]. split; [split; intros H; by inversion H|]. done.
Qed.

(** X21. For a probe that is not a metric probe, the attempt is healthy
    exactly when the command runs and exits with status zero, and its
    metric is zero; status, error text and metric are those of any other
    run that ends in the same way, whatever the two runs print. *)
Theorem check_boolean c ex :
  Type_ c ≠ "metric" →
  (iStatus (check c ex) = "healthy" ↔ runErr ex = None)
  ∧ iMetric (check c ex) = zero
  ∧ ∀ ex', runErr ex' = runErr ex →
      iStatus (check c ex') = iStatus (check c ex)
      ∧ iError (check c ex') = iError (check c ex)
      ∧ iMetric (check c ex') = iMetric (check c ex).
Proof.
  intros Hty. unfold checker.check.
  split; [|split].
  - destruct (runErr ex) as [[code|msg]|]; simpl; [done..|].
    by rewrite decide_False.
  - destruct (runErr ex) as [[code|msg]|]; simpl; [done..|].
    by rewrite decide_False.
  - intros ex' ->.
    destruct (runErr ex) as [[code|msg]|]; simpl; [done..|].
    by rewrite !decide_False by done.
Qed.

End executor.

(** X23. In the executor of [part_000] an attempt is healthy exactly when
    the command runs and exits with status zero, also for a metric probe
    whose output is not a number: that entry is healthy with the metric 0
    and an error text. *)
Theorem part_000_Check_status ParseInt c ex :
  (history.Status (part_000.Check ParseInt c ex) = "healthy"
   ↔ runErr ex = None)
  ∧ (part_000.Type_ c = "metric" → runErr ex = None →
     ∀ e, ParseInt (stdout ex) = inr e →
       history.Metric (part_000.Check ParseInt c ex) = 0
       ∧ history.Error (part_000.Check ParseInt c ex) ≠ "").
Proof.
  unfold part_000.Check.
  destruct (runErr ex) as [[code|msg]|]; simpl; [done..|]. split.
  - destruct (decide (part_000.Type_ c = "metric")) as [Hty|Hty]; [|done].
    by destruct (ParseInt _).
  - intros Hty _ e He. rewrite decide_True, He by done. done.
Qed.

Lemma check_boolean_witness :
  (iStatus (checker.check Z 0 demoParse demoTrim pingProbe exitOne) = "healthy"
   ↔ runErr exitOne = None)
  ∧ iMetric (checker.check Z 0 demoParse demoTrim pingProbe exitOne) = 0
  ∧ ∀ ex', runErr ex' = runErr exitOne →
      iStatus (checker.check Z 0 demoParse demoTrim pingProbe ex')
      = iStatus (checker.check Z 0 demoParse demoTrim pingProbe exitOne)
      ∧ iError (checker.check Z 0 demoParse demoTrim pingProbe ex')
        = iError (checker.check Z 0 demoParse demoTrim pingProbe exitOne)
      ∧ iMetric (checker.check Z 0 demoParse demoTrim pingProbe ex')
        = iMetric (checker.check Z 0 demoParse demoTrim pingProbe exitOne).
Proof. apply (check_boolean 0 demoParse demoTrim pingProbe exitOne). discriminate. Defined.

End probe_facts.

Module scheduler_facts.
Import checker checker_defs probe_defs scheduler scheduler_defs.

Lemma inOrder_lookup {Item} (st gr nm : Item → string) prev
    (tr : list (action Item)) i s g n :
  inOrder st gr nm prev tr → tr !! S i = Some (Notified s g n) →
  ∃ it, tr !! i = Some (Appended it) ∧ s = st it ∧ g = gr it ∧ n = nm it.
Proof.
  revert prev i. induction tr as [|a tr IH]; intros prev i Hord Hi; [done|].
  destruct Hord as [_ Hord]. destruct i as [|i].
  - destruct tr as [|b tr]; [done|]. simpl in Hi. injection Hi as ->.
    destruct Hord as [(it & [= ->] & ?) _]. by exists it.
  - by apply (IH (Some a) i).
Qed.

Section loop.
Context {float64 : Type} (zero : float64)
        (ParseFloat : string → float64 + string) (TrimSpace : string → string).

Abbreviation iterate := (iterate float64 zero ParseFloat TrimSpace).
Abbreviation Start := (Start float64 zero ParseFloat TrimSpace).

Lemma iterate_inOrder c receiver rounds fuel r prev :
  (∀ s g n, prev ≠ Some (Notified s g n)) →
  inOrder iStatus iGroup iName prev (iterate c receiver rounds fuel r).
Proof.
  revert r prev. induction fuel as [|fuel IH]; intros r prev Hprev; [done|].
  cbn [scheduler.iterate].
  destruct (checker.Check float64 zero ParseFloat TrimSpace c _) as [item tr].
  assert (Hwait : ∀ p, inOrder iStatus iGroup iName p
            (Waited (Interval c)
               :: (if closedAtWait float64 (rounds r) then [Stopped]
                   else iterate c receiver rounds fuel (S r)))).
  { intros p. split; [done|]. destruct (closedAtWait _ _); [done|].
    apply IH. done. }
  split; [done|].
  destruct (closedAtWrite _ _); [by split|].
  destruct (appendResult _ _ item) as [item' [e|]]; [done|].
  split; [done|]. destruct receiver; [|apply Hwait].
  split; [by exists item'|]. apply Hwait.
Qed.

Lemma iterate_final c receiver rounds fuel r i a :
  iterate c receiver rounds fuel r !! i = Some a → final a →
  iterate c receiver rounds fuel r !! S i = None.
Proof.
  revert r i. induction fuel as [|fuel IH]; intros r i; [done|].
  cbn [scheduler.iterate].
  destruct (checker.Check float64 zero ParseFloat TrimSpace c _) as [item tr].
  assert (Hwait : ∀ j,
            (Waited (Interval c)
               :: (if closedAtWait float64 (rounds r) then [Stopped]
                   else iterate c receiver rounds fuel (S r))) !! j = Some a →
            final a →
            (Waited (Interval c)
               :: (if closedAtWait float64 (rounds r) then [Stopped]
                   else iterate c receiver rounds fuel (S r))) !! S j = None).
  { intros [|j] Hj Hfin; [by injection Hj as <-|]. simpl in *.
    destruct (closedAtWait _ _); [by destruct j|]. by eapply IH. }
  destruct i as [|i]; [by intros [= <-]|]. simpl.
  destruct (closedAtWrite _ _).
  { destruct i as [|i]; [by intros [= <-]|]. simpl. apply Hwait. }
  destruct (appendResult _ _ item) as [item' [e|]].
  { by destruct i. }
  destruct i as [|i]; [by intros [= <-]|]. simpl.
  destruct receiver; simpl; [|apply Hwait].
  destruct i as [|i]; [by intros [= <-]|]. simpl. apply Hwait.
Qed.

Lemma iterate_handled c receiver rounds fuel r :
  ran (iterate c receiver rounds fuel r)
  = handled (iterate c receiver rounds fuel r).
Proof.
  revert r. induction fuel as [|fuel IH]; intros r; [done|].
  cbn [scheduler.iterate].
  destruct (checker.Check float64 zero ParseFloat TrimSpace c _) as [item tr].
  simpl. destruct (closedAtWrite _ _); simpl.
  { destruct (closedAtWait _ _); simpl; [done|]. by rewrite IH. }
  destruct (appendResult _ _ item) as [item' [e|]]; simpl; [done|].
  destruct receiver; simpl; (destruct (closedAtWait _ _); simpl; [done|]);
    by rewrite IH.
Qed.

(** X24. In the goroutine of [Start], the receiver is notified only right
    after [Append] has returned without an error, and of the status, group
    and name of the entry that [Append] returned. *)
Theorem notification_follows_append c receiver rounds fuel i s g n :
  Start c receiver rounds fuel !! S i = Some (Notified s g n) →
  ∃ it, Start c receiver rounds fuel !! i = Some (Appended it)
    ∧ s = iStatus it ∧ g = iGroup it ∧ n = iName it.
Proof.
  apply (inOrder_lookup iStatus iGroup iName None).
  by apply iterate_inOrder.
Qed.

(** X25. The goroutine of [Start] ends when the close signal is taken in
    the wait between two checks, and dies when [Append] returns an error;
    after either nothing else happens.  Every result of [Check] is
    skipped, appended or answered with an error, once. *)
Theorem Start_ends c receiver rounds fuel :
  (∀ i a, Start c receiver rounds fuel !! i = Some a → final a →
     Start c receiver rounds fuel !! S i = None)
  ∧ ran (Start c receiver rounds fuel) = handled (Start c receiver rounds fuel).
Proof.
  split; [|apply iterate_handled]. intros i a. apply iterate_final.
Qed.

End loop.

Lemma notification_follows_append_witness :
  ∃ it, scheduler.Start Z 0 demoParse demoTrim (New (failingProbe 1)) true
          failsSecond 3 !! 1%nat = Some (Appended it)
    ∧ "unhealthy" = iStatus it ∧ "web" = iGroup it ∧ "ping" = iName it.
Proof.
  apply (notification_follows_append 0 demoParse demoTrim
           (New (failingProbe 1)) true failsSecond 3 1).
  vm_compute. reflexivity.
Defined.

End scheduler_facts.

Module config_facts.
Import patrol config checker_defs config_defs.
Import history_facts.




End config_facts.
